(** * networks.py: the modules of the text-to-speech network

    A shallow embedding of [networks.py]: the five [nn.Module] classes
    [TextEncoder], [AudioEncoder], [DotProductAttention], [AudioDecoder] and
    [PostNet], each with its constructor and its [forward] method.

    - Tensors are three-dimensional (batch, channel, time): a shape and an
      indexing function.
    - The element type is abstract: a type [F] with the operations the
      framework applies to elements ([Scalar]).  No law of arithmetic is
      assumed and no rounding is modelled; a sum is written in the order of
      its index.  What is proved is about shapes, failures and the elements
      a result is computed from; the two statements on exact arithmetic
      assume its laws explicitly ([exact_arithmetic]).
    - A framework primitive that refuses its operands raises; [forward]
      runs in the error monad [result].  The framework's checks of shapes
      are modelled: a convolution refuses a wrong number of channels, a
      weight without elements, an empty time axis and a kernel longer than
      the padded input; [Upsample] refuses an empty time axis; a matrix
      product and broadcasting refuse sizes that do not match.
    - The constructors are total, while the framework refuses to build a
      layer of width zero: what is stated of the value a [forward] returns
      takes positive widths and inputs that are not empty.
    - The layer classes of [layers.py] and [modules.py] are not among the
      sources; what is modelled of them says so. *)

From Stdlib Require Import String Arith Lia List Bool.
From Stdlib Require Import Reals Lra.
From ExtLib Require Import Structures.Monad Structures.MonadExc Data.Monads.EitherMonad.
Import ListNotations MonadNotation.
Local Open Scope monad_scope.

(** ** Exceptions *)

(** The exceptions a [forward] can end with: [RuntimeError] is what the
    framework raises on operands of incompatible shapes, [ValueError] what
    the interpreter raises when a tuple is unpacked into the wrong number of
    names, [IndexError] what indexing a module list out of range raises. *)
Inductive exn : Type :=
| RuntimeError (msg : string)
| ValueError (msg : string)
| IndexError (msg : string).

Definition result : Type -> Type := sum exn.

(** [for i in range(n): y = body(i, y)] *)
Definition for_range {A : Type} (n : nat) (body : nat -> A -> result A) (y0 : A)
  : result A :=
  fold_left (fun acc i => y <- acc ;; body i y) (seq 0 n) (ret y0).

(** [ms[i]] *)
Definition getitem {A : Type} (ms : list A) (i : nat) : result A :=
  match nth_error ms i with
  | Some m => ret m
  | None => raise (IndexError "index out of range"%string)
  end.

(** Two runs end alike: with the same exception, or with related values. *)
Definition result_rel {A : Type} (R : A -> A -> Prop) (r r' : result A) : Prop :=
  match r, r' with
  | inr a, inr a' => R a a'
  | inl e, inl e' => e = e'
  | _, _ => False
  end.

(** ** Elements *)

Class Scalar (F : Type) : Type := {
  fzero : F;
  fone : F;
  fadd : F -> F -> F;
  fsub : F -> F -> F;
  fmul : F -> F -> F;
  fdiv : F -> F -> F;
  fmax : F -> F -> F;
  fexp : F -> F;
  ftanh : F -> F;
  fsigmoid : F -> F;
  frelu : F -> F;
  fsqrt : F -> F;
  of_nat : nat -> F
}.

Section Framework.

Context {F : Type} {SF : Scalar F}.

(** The sum [f 0 + f 1 + ... + f (n-1)], accumulated from the left. *)
Definition fsum (n : nat) (f : nat -> F) : F :=
  match n with
  | 0 => fzero
  | S m => fold_left (fun acc i => fadd acc (f i)) (seq 1 m) (f 0)
  end.

(** The largest of [f 0], [f 1], ..., [f (n-1)]. *)
Definition fmaximum (n : nat) (f : nat -> F) : F :=
  match n with
  | 0 => fzero
  | S m => fold_left (fun acc i => fmax acc (f i)) (seq 1 m) (f 0)
  end.

(** ** Tensors *)

Record tensor : Type := Tensor {
  size0 : nat;                       (* batch *)
  size1 : nat;                       (* channels (or text time, for alignments) *)
  size2 : nat;                       (* time *)
  item : nat -> nat -> nat -> F
}.

Definition shape (x : tensor) : nat * nat * nat := (size0 x, size1 x, size2 x).

(** An elementwise function: [torch.tanh], [torch.sigmoid], [torch.relu]. *)
Definition pointwise (f : F -> F) (x : tensor) : tensor :=
  Tensor (size0 x) (size1 x) (size2 x) (fun n c t => f (item x n c t)).

Definition tanh : tensor -> tensor := pointwise ftanh.
Definition sigmoid : tensor -> tensor := pointwise fsigmoid.
Definition relu : tensor -> tensor := pointwise frelu.

(** [x.transpose(1, 2)] *)
Definition transpose_1_2 (x : tensor) : tensor :=
  Tensor (size0 x) (size2 x) (size1 x) (fun n i j => item x n j i).

(** [x / s] for a number [s] *)
Definition div_scalar (x : tensor) (s : F) : tensor :=
  pointwise (fun a => fdiv a s) x.

(** [torch.bmm(a, b)]: the batch of matrix products; the batch sizes and the
    inner sizes have to match. *)
Definition bmm (a b : tensor) : result tensor :=
  if (size0 a =? size0 b) && (size2 a =? size1 b) then
    ret (Tensor (size0 a) (size1 a) (size2 b)
           (fun n i j => fsum (size2 a) (fun k => fmul (item a n i k) (item b n k j))))
  else raise (RuntimeError "bmm: incompatible shapes"%string).

(** [torch.softmax(x, dim=1)]: the framework takes the largest element of
    each column off the column before the exponentials, and divides these by
    their sum. *)
Definition softmax_dim1 (x : tensor) : tensor :=
  Tensor (size0 x) (size1 x) (size2 x)
    (fun n i j =>
       let largest := fmaximum (size1 x) (fun i' => item x n i' j) in
       fdiv (fexp (fsub (item x n i j) largest))
            (fsum (size1 x) (fun i' => fexp (fsub (item x n i' j) largest)))).

(** [x.narrow(1, start, length)]: [length] channels from [start] on. *)
Definition narrow_1 (x : tensor) (start length : nat) : tensor :=
  Tensor (size0 x) length (size2 x) (fun n c t => item x n (start + c) t).

(** [x.chunk(chunks, dim=1)]: pieces of [ceil(C / chunks)] channels, the last
    one smaller when [C] is not a multiple; fewer than [chunks] pieces when the
    channels run out, and [chunks] empty pieces when there is no channel. *)
Definition chunk (chunks : nat) (x : tensor) : list tensor :=
  let C := size1 x in
  let split_size := (C + chunks - 1) / chunks in
  if split_size =? 0 then repeat (narrow_1 x 0 0) chunks
  else
    map (fun i => narrow_1 x (i * split_size) (Nat.min split_size (C - i * split_size)))
        (seq 0 ((C + split_size - 1) / split_size)).

(** [x[:, :, :length]] *)
Definition keep_time (x : tensor) (length : nat) : tensor :=
  Tensor (size0 x) (size1 x) (Nat.min length (size2 x)) (item x).

(** Nearest-neighbour interpolation along the time axis: output step [t]
    repeats input step [t / scale_factor]. *)
Definition nearest (scale_factor : nat) (x : tensor) : tensor :=
  Tensor (size0 x) (size1 x) (size2 x * scale_factor)
    (fun n c t => item x n c (t / scale_factor)).

(** [nn.Upsample(scale_factor, mode='nearest')]: the interpolation, which
    the framework refuses when the input or the output has no time step. *)
Definition Upsample (scale_factor : nat) (x : tensor) : result tensor :=
  if (size2 x =? 0) || (size2 x * scale_factor =? 0) then
    raise (RuntimeError "Upsample: input and output sizes should be greater than 0"%string)
  else ret (nearest scale_factor x).

(** The input of a convolution, [padding] zeros added at both ends of the
    time axis. *)
Definition padded (x : tensor) (padding : nat) (n c i : nat) : F :=
  if (padding <=? i) && (i - padding <? size2 x) then item x n c (i - padding)
  else fzero.

(** What [F.conv1d] returns when it accepts its operands. *)
Definition convolved (x : tensor) (out_channels in_channels kernel_size : nat)
    (weight : nat -> nat -> nat -> F) (bias : nat -> F) (padding dilation : nat)
  : tensor :=
  Tensor (size0 x) out_channels
    (size2 x + 2 * padding - dilation * (kernel_size - 1))
    (fun n o t =>
       fadd (fsum in_channels (fun c =>
               fsum kernel_size (fun j =>
                 fmul (weight o c j) (padded x padding n c (t + j * dilation)))))
            (bias o)).

(** [F.conv1d(x, weight, bias, stride=1, padding, dilation)] with a weight of
    shape [(out_channels, in_channels, kernel_size)].  The framework refuses
    an input whose channels are not those of the weight, a weight without
    elements, an input without time steps, and a kernel that, dilated, is
    longer than the padded input. *)
Definition conv1d (x : tensor) (out_channels in_channels kernel_size : nat)
    (weight : nat -> nat -> nat -> F) (bias : nat -> F) (padding dilation : nat)
  : result tensor :=
  if negb (size1 x =? in_channels) then
    raise (RuntimeError "conv1d: the input has the wrong number of channels"%string)
  else if (out_channels =? 0) || (in_channels =? 0) || (kernel_size =? 0) then
    raise (RuntimeError "conv1d: the weight has no elements"%string)
  else if size2 x =? 0 then
    raise (RuntimeError "conv1d: the input has no time steps"%string)
  else if size2 x + 2 * padding <? dilation * (kernel_size - 1) + 1 then
    raise (RuntimeError "conv1d: the kernel is longer than the padded input"%string)
  else
    ret (convolved x out_channels in_channels kernel_size weight bias padding dilation).

(** The size a dimension gets when sizes [a] and [b] are broadcast. *)
Definition broadcast_size (a b : nat) : result nat :=
  if a =? b then ret a
  else if a =? 1 then ret b
  else if b =? 1 then ret a
  else raise (RuntimeError "the sizes of the tensors do not match"%string).

(** The index read in a dimension of size [size] at output index [i]. *)
Definition broadcast_index (size i : nat) : nat := if size =? 1 then 0 else i.

(** An elementwise binary operation ([a * b], [a + b]) with broadcasting. *)
Definition binary (f : F -> F -> F) (a b : tensor) : result tensor :=
  s0 <- broadcast_size (size0 a) (size0 b) ;;
  s1 <- broadcast_size (size1 a) (size1 b) ;;
  s2 <- broadcast_size (size2 a) (size2 b) ;;
  ret (Tensor s0 s1 s2
         (fun n c t =>
            f (item a (broadcast_index (size0 a) n) (broadcast_index (size1 a) c)
                      (broadcast_index (size2 a) t))
              (item b (broadcast_index (size0 b) n) (broadcast_index (size1 b) c)
                      (broadcast_index (size2 b) t)))).

End Framework.

Arguments tensor F : clear implicits.

(** ** Layers *)

Section Layers.

Context {F : Type} {SF : Scalar F}.

(** Modelled from the spec: the layer classes of [layers.py], which is not
    among the sources; the spec's "convolutions, highway layers" and "causal"
    convolutions, as [networks.py] constructs them: input channels, output
    channels, kernel size and dilation, and for the plain convolutions the
    activation (an elementwise function, given by what it does to an
    element; [None] leaves the output as it is).  [Conv1d], [HighwayConv1d]
    and [CustomConv1d] pad alike at both ends ([padding='same']); the causal
    layers pad the past only. *)
Inductive layer : Type :=
| Conv1d (in_channels out_channels kernel_size dilation : nat)
         (activation_fn : option (F -> F))
| HighwayConv1d (in_channels out_channels kernel_size dilation : nat)
| CausalConv1d (in_channels out_channels kernel_size dilation : nat)
               (activation_fn : option (F -> F))
| CausalHighwayConv1d (in_channels out_channels kernel_size dilation : nat)
| CustomConv1d (in_channels out_channels kernel_size : nat).

Definition layer_in_channels (l : layer) : nat :=
  match l with
  | Conv1d i _ _ _ _ | HighwayConv1d i _ _ _ | CausalConv1d i _ _ _ _
  | CausalHighwayConv1d i _ _ _ | CustomConv1d i _ _ => i
  end.

Definition layer_kernel_size (l : layer) : nat :=
  match l with
  | Conv1d _ _ k _ _ | HighwayConv1d _ _ k _ | CausalConv1d _ _ k _ _
  | CausalHighwayConv1d _ _ k _ | CustomConv1d _ _ k => k
  end.

(** A layer built by a causal class. *)
Definition is_causal (l : layer) : bool :=
  match l with
  | CausalConv1d _ _ _ _ _ | CausalHighwayConv1d _ _ _ _ => true
  | _ => false
  end.

Definition activate (activation_fn : option (F -> F)) (y : tensor F) : tensor F :=
  match activation_fn with
  | Some f => pointwise f y
  | None => y
  end.

(** Modelled from the spec: the convolution with [padding='same']:
    [kernel_size // 2 * dilation] zeros at both ends. *)
Definition conv_same (x : tensor F) (out_channels in_channels kernel_size : nat)
    (weight : nat -> nat -> nat -> F) (bias : nat -> F) (dilation : nat)
  : result (tensor F) :=
  conv1d x out_channels in_channels kernel_size weight bias
         (kernel_size / 2 * dilation) dilation.

(** Modelled from the spec: the causal convolution: padded by
    [(kernel_size - 1) * dilation] and cut back to the length of the input,
    so that output step [t] reads input steps [t], [t - dilation], ... *)
Definition conv_causal (x : tensor F) (out_channels in_channels kernel_size : nat)
    (weight : nat -> nat -> nat -> F) (bias : nat -> F) (dilation : nat)
  : result (tensor F) :=
  y <- conv1d x out_channels in_channels kernel_size weight bias
              ((kernel_size - 1) * dilation) dilation ;;
  ret (keep_time y (size2 x)).

(** Modelled from the spec: the highway connection: the convolution's output
    [H] splits along the channels into [H1] and [H2], and the layer returns
    [sigmoid(H1) * H2 + (1 - sigmoid(H1)) * x]. *)
Definition highway (H x : tensor F) (out_channels : nat) : result (tensor F) :=
  let H1 := narrow_1 H 0 out_channels in
  let H2 := narrow_1 H out_channels out_channels in
  let h := sigmoid H1 in
  a <- binary fmul h H2 ;;
  b <- binary fmul (pointwise (fsub fone) h) x ;;
  binary fadd a b.

(** Modelled from the spec: what a layer computes from its weight and bias. *)
Definition layer_forward (l : layer) (weight : nat -> nat -> nat -> F)
    (bias : nat -> F) (x : tensor F) : result (tensor F) :=
  match l with
  | Conv1d i o k d act =>
      y <- conv_same x o i k weight bias d ;;
      ret (activate act y)
  | HighwayConv1d i o k d =>
      H <- conv_same x (2 * o) i k weight bias d ;;
      highway H x o
  | CausalConv1d i o k d act =>
      y <- conv_causal x o i k weight bias d ;;
      ret (activate act y)
  | CausalHighwayConv1d i o k d =>
      H <- conv_causal x (2 * o) i k weight bias d ;;
      highway H x o
  | CustomConv1d i o k =>
      conv_same x o i k weight bias 1
  end.

(** The parameters of a layer, and of a layer under weight normalisation,
    where the weight is given by a magnitude [weight_g] per output channel and
    a direction [weight_v]. *)
Record parameters : Type := Parameters {
  weight : nat -> nat -> nat -> F;
  bias : nat -> F
}.

Record norm_parameters : Type := NormParameters {
  weight_g : nat -> F;
  weight_v : nat -> nat -> nat -> F;
  norm_bias : nat -> F
}.

(** [torch.nn.utils.weight_norm], [dim=0]: the weight is
    [v * (g / ||v||)], the norm taken per output channel. *)
Definition norm_except_dim_0 (in_channels kernel_size : nat)
    (v : nat -> nat -> nat -> F) (o : nat) : F :=
  fsqrt (fsum in_channels (fun c =>
           fsum kernel_size (fun j => fmul (v o c j) (v o c j)))).

Definition compute_weight (l : layer) (p : norm_parameters) : nat -> nat -> nat -> F :=
  fun o c j =>
    fmul (weight_v p o c j)
         (fdiv (weight_g p o)
               (norm_except_dim_0 (layer_in_channels l) (layer_kernel_size l)
                                  (weight_v p) o)).

(** A module of a network: a layer with its parameters, as it is ([plain]) or
    wrapped by [norm], the source's name for [weight_norm]. *)
Inductive module : Type :=
| plain (l : layer) (p : parameters)
| norm (l : layer) (p : norm_parameters).

Definition module_layer (m : module) : layer :=
  match m with plain l _ | norm l _ => l end.

(** [m(x)] *)
Definition call (m : module) (x : tensor F) : result (tensor F) :=
  match m with
  | plain l p => layer_forward l (weight p) (bias p) x
  | norm l p => layer_forward l (compute_weight l p) (norm_bias p) x
  end.

(** The loop of the three convolutional networks:
    [for i in range(len(hc_blocks)): y = hc_blocks[i](y)]. *)
Definition apply_blocks (hc_blocks : list module) (y0 : tensor F) : result (tensor F) :=
  for_range (length hc_blocks)
            (fun i y => m <- getitem hc_blocks i ;; call m y) y0.

(** The same loop by recursion over the list, for the proofs. *)
Fixpoint run_blocks (ms : list module) (y : tensor F) : result (tensor F) :=
  match ms with
  | [] => ret y
  | m :: ms' => y' <- call m y ;; run_blocks ms' y'
  end.

End Layers.

Arguments layer F : clear implicits.
Arguments parameters F : clear implicits.
Arguments norm_parameters F : clear implicits.
Arguments module F : clear implicits.

(** ** The networks *)

Module TextEncoder.
Section Def.
Context {F : Type} {SF : Scalar F}.

Record t : Type := Make { hc_blocks : list (module F) }.

(** [__init__(self, d_in, d_out, d_hidden)]; [theta i] holds the parameters
    of block [i]. *)
Definition __init__ (d_in d_out d_hidden : nat) (theta : nat -> norm_parameters F) : t :=
  Make
    ([norm (Conv1d d_in d_hidden 1 1 (Some frelu)) (theta 0)]
     ++ [norm (Conv1d d_hidden d_hidden 1 1 None) (theta 1)]
     ++ flat_map (fun r =>
          map (fun i => norm (HighwayConv1d d_hidden d_hidden 3 (3 ^ i))
                             (theta (2 + 4 * r + i)))
              (seq 0 4))
          (seq 0 2)
     ++ map (fun i => norm (HighwayConv1d d_hidden d_hidden 3 1) (theta (10 + i)))
            (seq 0 2)
     ++ map (fun i => norm (HighwayConv1d d_hidden d_hidden 1 1) (theta (12 + i)))
            (seq 0 2)).

Definition forward (self : t) (L : tensor F) : result (tensor F * tensor F) :=
  y <- apply_blocks (hc_blocks self) L ;;
  match chunk 2 y with
  | [K; V] => ret (K, V)
  | _ => raise (ValueError "not enough values to unpack (expected 2)"%string)
  end.

End Def.
Arguments t F : clear implicits.
End TextEncoder.

Module AudioEncoder.
Section Def.
Context {F : Type} {SF : Scalar F}.

Record t : Type := Make { hc_blocks : list (module F) }.

Definition __init__ (d_in d_out d_hidden : nat) (theta : nat -> norm_parameters F) : t :=
  Make
    ([norm (CausalConv1d d_in d_hidden 1 1 (Some frelu)) (theta 0)]
     ++ map (fun i => norm (CausalConv1d d_hidden d_hidden 1 1 (Some frelu))
                           (theta (1 + i)))
            (seq 0 2)
     ++ flat_map (fun r =>
          map (fun i => norm (CausalHighwayConv1d d_hidden d_hidden 3 (3 ^ i))
                             (theta (3 + 4 * r + i)))
              (seq 0 4))
          (seq 0 2)
     ++ map (fun i => norm (CausalHighwayConv1d d_hidden d_out 3 3) (theta (11 + i)))
            (seq 0 2)).

Definition forward (self : t) (S : tensor F) : result (tensor F) :=
  apply_blocks (hc_blocks self) S.

End Def.
Arguments t F : clear implicits.
End AudioEncoder.

Module DotProductAttention.
Section Def.
Context {F : Type} {SF : Scalar F}.

Record t : Type := Make {
  d_k : nat;
  linear_q : module F;
  linear_k : module F;
  linear_v : module F
}.

Definition __init__ (d_hidden : nat) (theta_q theta_k theta_v : parameters F) : t :=
  Make d_hidden
       (plain (CustomConv1d d_hidden d_hidden 1) theta_q)
       (plain (CustomConv1d d_hidden d_hidden 1) theta_k)
       (plain (CustomConv1d d_hidden d_hidden 1) theta_v).

Definition forward (self : t) (Q K V : tensor F) : result (tensor F * tensor F) :=
  Q <- call (linear_q self) Q ;;
  let Q := tanh Q in
  K <- call (linear_k self) K ;;
  let K := tanh K in
  V <- call (linear_v self) V ;;
  let V := tanh V in
  KQ <- bmm (transpose_1_2 K) Q ;;
  let A := softmax_dim1 (div_scalar KQ (fsqrt (of_nat (d_k self)))) in
  R <- bmm V A ;;
  ret (R, A).

End Def.
Arguments t F : clear implicits.
End DotProductAttention.

Module AudioDecoder.
Section Def.
Context {F : Type} {SF : Scalar F}.

Record t : Type := Make { hc_blocks : list (module F) }.

Definition __init__ (d_in d_out d_hidden : nat) (theta : nat -> norm_parameters F) : t :=
  Make
    ([norm (CausalConv1d d_in d_hidden 1 1 (Some frelu)) (theta 0)]
     ++ map (fun i => norm (CausalHighwayConv1d d_hidden d_hidden 3 (3 ^ i))
                           (theta (1 + i)))
            (seq 0 4)
     ++ map (fun i => norm (CausalHighwayConv1d d_hidden d_hidden 3 1) (theta (5 + i)))
            (seq 0 2)
     ++ map (fun i => norm (CausalConv1d d_hidden d_hidden 1 1 (Some frelu))
                           (theta (7 + i)))
            (seq 0 3)
     ++ [norm (CausalConv1d d_hidden d_out 1 1 None) (theta 10)]).

Definition forward (self : t) (R_ : tensor F) : result (tensor F) :=
  Y <- apply_blocks (hc_blocks self) R_ ;;
  ret (sigmoid Y).

End Def.
Arguments t F : clear implicits.
End AudioDecoder.

Module PostNet.
Section Def.
Context {F : Type} {SF : Scalar F}.

(** Modelled from the spec: [ResidualBlock1d] of [modules.py], which is not
    among the sources, is a parameter: the type of its parameters and what a
    block built with [(d_in, d_out, ksize)] computes. *)
Variable residual_parameters : Type.
Variable ResidualBlock1d_forward :
  nat -> nat -> nat -> residual_parameters -> tensor F -> result (tensor F).

Inductive net : Type :=
| nn_Upsample (scale_factor : nat)
| ResidualBlock1d (d_in d_out ksize : nat) (p : residual_parameters).

Record t : Type := Make { nets : list net }.

Definition __init__ (d_in d_out d_hidden : nat) (theta : nat -> residual_parameters) : t :=
  Make [ nn_Upsample 2;
         ResidualBlock1d d_in d_hidden 5 (theta 1);
         nn_Upsample 2;
         ResidualBlock1d d_hidden d_hidden 5 (theta 3);
         ResidualBlock1d d_hidden d_out 5 (theta 4) ].

Definition call_net (m : net) (x : tensor F) : result (tensor F) :=
  match m with
  | nn_Upsample scale_factor => Upsample scale_factor x
  | ResidualBlock1d d_in d_out ksize p => ResidualBlock1d_forward d_in d_out ksize p x
  end.

(** [nn.Sequential]: [for module in self: input = module(input)]. *)
Definition Sequential (ms : list net) (input : tensor F) : result (tensor F) :=
  fold_left (fun acc m => y <- acc ;; call_net m y) ms (ret input).

Definition forward (self : t) (x : tensor F) : result (tensor F) :=
  y <- Sequential (nets self) x ;;
  ret (sigmoid y).

End Def.
Arguments nn_Upsample {residual_parameters} scale_factor.
Arguments ResidualBlock1d {residual_parameters} d_in d_out ksize p.
Arguments nets {residual_parameters} self : rename.
Arguments __init__ {residual_parameters} d_in d_out d_hidden theta.
Arguments call_net {F residual_parameters} ResidualBlock1d_forward m x.
Arguments Sequential {F residual_parameters} ResidualBlock1d_forward ms input.
Arguments forward {F SF residual_parameters} ResidualBlock1d_forward self x.
End PostNet.

(** ** Relations between tensors, parameters and modules *)

Section Relations.

Context {F : Type} {SF : Scalar F}.

(** [x] and [x'] have the same batch and channel sizes and agree at every
    time step up to and including [t] that both have (their lengths may
    differ). *)
Definition agree (t : nat) (x x' : tensor F) : Prop :=
  size0 x = size0 x' /\ size1 x = size1 x' /\
  forall n c s,
    n < size0 x -> c < size1 x -> s <= t -> s < size2 x -> s < size2 x' ->
    item x n c s = item x' n c s.

(** [agree], for tensors of lengths [T] and [T']. *)
Definition agree_len (t T T' : nat) (x x' : tensor F) : Prop :=
  agree t x x' /\ size2 x = T /\ size2 x' = T'.

(** Equal tensors: the same shape and the same elements. *)
Definition tensor_eq (x x' : tensor F) : Prop :=
  shape x = shape x' /\
  forall n c s, n < size0 x -> c < size1 x -> s < size2 x ->
    item x n c s = item x' n c s.

(** Tensors of one shape, whatever their elements. *)
Definition same_shape (x x' : tensor F) : Prop := shape x = shape x'.

Definition same_shape2 (p p' : tensor F * tensor F) : Prop :=
  same_shape (fst p) (fst p') /\ same_shape (snd p) (snd p').

(** The channels a layer returns. *)
Definition layer_out_channels (l : layer F) : nat :=
  match l with
  | Conv1d _ o _ _ _ | HighwayConv1d _ o _ _ | CausalConv1d _ o _ _ _
  | CausalHighwayConv1d _ o _ _ | CustomConv1d _ o _ => o
  end.

(** A layer takes inputs of [C] channels and returns their length: its
    convolution expects [C] channels, its weight has elements, a kernel
    padded alike at both ends has an odd size, and a highway layer is as wide
    as its input. *)
Definition accepts (l : layer F) (C : nat) : Prop :=
  layer_in_channels l = C /\
  0 < C /\ 0 < layer_out_channels l /\ 0 < layer_kernel_size l /\
  match l with
  | Conv1d _ _ k _ _ | CustomConv1d _ _ k => Nat.odd k = true
  | HighwayConv1d i o k _ => Nat.odd k = true /\ i = o
  | CausalConv1d _ _ _ _ _ => True
  | CausalHighwayConv1d i o _ _ => i = o
  end.

(** The blocks fit one another, from [C] channels on. *)
Fixpoint chain (ms : list (module F)) (C : nat) : Prop :=
  match ms with
  | [] => True
  | m :: ms' =>
      accepts (module_layer m) C /\ chain ms' (layer_out_channels (module_layer m))
  end.

(** The channels the last block returns. *)
Fixpoint chain_out (ms : list (module F)) (C : nat) : nat :=
  match ms with
  | [] => C
  | m :: ms' => chain_out ms' (layer_out_channels (module_layer m))
  end.

(** A call of block [i] of [ms], on the value the blocks before it made of
    [x], raised [e]. *)
Definition raised_by_block (ms : list (module F)) (x : tensor F) (e : exn) : Prop :=
  exists i m y,
    nth_error ms i = Some m /\ run_blocks (firstn i ms) x = inr y /\ call m y = inl e.

(** One of the five fallible steps of [DotProductAttention.forward] raised
    [e]: a projection or a matrix product, called on the values the steps
    before it returned. *)
Definition raised_in_attention (self : DotProductAttention.t F) (Q K V : tensor F)
    (e : exn) : Prop :=
  call (DotProductAttention.linear_q self) Q = inl e \/
  exists Q1, call (DotProductAttention.linear_q self) Q = inr Q1 /\
  (call (DotProductAttention.linear_k self) K = inl e \/
   exists K1, call (DotProductAttention.linear_k self) K = inr K1 /\
   (call (DotProductAttention.linear_v self) V = inl e \/
    exists V1, call (DotProductAttention.linear_v self) V = inr V1 /\
    (bmm (transpose_1_2 (tanh K1)) (tanh Q1) = inl e \/
     exists KQ, bmm (transpose_1_2 (tanh K1)) (tanh Q1) = inr KQ /\
       bmm (tanh V1)
           (softmax_dim1
              (div_scalar KQ (fsqrt (of_nat (DotProductAttention.d_k self)))))
       = inl e))).

(** A call of module [i] of a [Sequential], on the value the modules before
    it made of [x], raised [e]. *)
Definition raised_by_net {residual_parameters : Type}
    (RB : nat -> nat -> nat -> residual_parameters -> tensor F -> result (tensor F))
    (ms : list (PostNet.net residual_parameters)) (x : tensor F) (e : exn) : Prop :=
  exists i m y,
    nth_error ms i = Some m /\ PostNet.Sequential RB (firstn i ms) x = inr y /\
    PostNet.call_net RB m y = inl e.

End Relations.

(** ** The attention, element by element *)

Section AttentionSpec.

Context {F : Type} {SF : Scalar F}.

(** The tanh of a 1x1 linear projection over [C] channels. *)
Definition projection (p : parameters F) (C : nat) (x : tensor F) (n o t : nat) : F :=
  ftanh (fadd (fsum C (fun c => fmul (weight p o c 0) (item x n c t))) (bias p o)).

Section Projected.

(** The projected query, key and value; [C] channels, [Tx] text steps. *)
Variables (Q' K' V' : nat -> nat -> nat -> F) (C Tx d_k : nat).

(** [(K^T Q) / sqrt(d_k)] at text step [i] and audio step [j]. *)
Definition score (n i j : nat) : F :=
  fdiv (fsum C (fun c => fmul (K' n c i) (Q' n c j))) (fsqrt (of_nat d_k)).

(** The largest score of audio step [j]. *)
Definition largest_score (n j : nat) : F := fmaximum Tx (fun i => score n i j).

(** The softmax of the scores over the text steps. *)
Definition alignment (n i j : nat) : F :=
  fdiv (fexp (fsub (score n i j) (largest_score n j)))
       (fsum Tx (fun i' => fexp (fsub (score n i' j) (largest_score n j)))).

(** [V . A]: the value vectors combined with the alignments as weights. *)
Definition attended (n c j : nat) : F :=
  fsum Tx (fun i => fmul (V' n c i) (alignment n i j)).

End Projected.
End AttentionSpec.

(** ** Exact arithmetic *)

Section ExactArithmetic.

Context {F : Type} {SF : Scalar F}.

(** What exact arithmetic gives and rounded arithmetic does not: an order
    [less] under which sums of positive elements grow, an exponential with
    positive values, a division that distributes over sums, and the sigmoid
    [1 / (1 + exp(-x))]. *)
Record exact_arithmetic (less : F -> F -> Prop) : Prop := ExactArithmeticLaws {
  lt_transitive : forall a b c, less a b -> less b c -> less a c;
  lt_add_left : forall a b, less fzero a -> less b (fadd a b);
  lt_add_right : forall a b, less fzero b -> less a (fadd a b);
  exp_positive : forall x, less fzero (fexp x);
  div_add : forall a b z, fdiv (fadd a b) z = fadd (fdiv a z) (fdiv b z);
  div_same : forall z, less fzero z -> fdiv z z = fone;
  div_positive : forall a z, less fzero a -> less fzero z -> less fzero (fdiv a z);
  div_below_one : forall a z, less fzero z -> less a z -> less (fdiv a z) fone;
  one_positive : less fzero fone;
  sigmoid_exp : forall x, fsigmoid x = fdiv fone (fadd fone (fexp (fsub fzero x)))
}.

Definition le_of (less : F -> F -> Prop) (a b : F) : Prop := less a b \/ a = b.

End ExactArithmetic.

(** The real numbers. *)
Module Real.

#[global] Instance Scalar_R : Scalar R := {
  fzero := 0%R;
  fone := 1%R;
  fadd := Rplus;
  fsub := Rminus;
  fmul := Rmult;
  fdiv := Rdiv;
  fmax := Rmax;
  fexp := exp;
  ftanh := Rtrigo_def.tanh;
  fsigmoid := fun x => (1 / (1 + exp (- x)))%R;
  frelu := Rmax 0;
  fsqrt := sqrt;
  of_nat := INR
}.

(** Queries, keys and values with real elements. *)
Definition Q0 : tensor R := Tensor 1 2 3 (fun n c t => INR (n + c + t)).
Definition K0 : tensor R := Tensor 1 2 2 (fun n c t => INR (c * t)).
Definition V0 : tensor R := Tensor 1 2 2 (fun n c t => INR (c + 2 * t)).
Definition theta0 : parameters R := Parameters (fun o c j => INR (o + c)) (fun o => 1%R).

(** A result of the attention, and the parameters of a decoder. *)
Definition R0 : tensor R := Tensor 1 2 4 (fun n c t => INR (c + t)).
Definition theta (i : nat) : norm_parameters R :=
  NormParameters (fun o => 1%R) (fun o c j => INR (i + o + c + j + 1)) (fun o => 0%R).

End Real.

(** ** Symbolic elements *)

(** Elements as expressions over named unknowns: the computation graph of an
    output element, whatever arithmetic evaluates it. *)
Module Symbolic.

Inductive term : Type :=
| Var (name : string) (i n c t : nat)
| Zero
| One
| Add (a b : term)
| Sub (a b : term)
| Mul (a b : term)
| Div (a b : term)
| Max (a b : term)
| Exp (a : term)
| Tanh (a : term)
| Sigmoid (a : term)
| Relu (a : term)
| Sqrt (a : term)
| OfNat (n : nat).

#[global] Instance Scalar_term : Scalar term := {
  fzero := Zero;
  fone := One;
  fadd := Add;
  fsub := Sub;
  fmul := Mul;
  fdiv := Div;
  fmax := Max;
  fexp := Exp;
  ftanh := Tanh;
  fsigmoid := Sigmoid;
  frelu := Relu;
  fsqrt := Sqrt;
  of_nat := OfNat
}.

(** The tensor [name] of shape [(N, C, T)], every element unknown. *)
Definition unknown (name : string) (N C T : nat) : tensor term :=
  Tensor N C T (Var name 0).

(** Parameters, every element unknown. *)
Definition theta (i : nat) : norm_parameters term :=
  NormParameters (fun o => Var "g" i o 0 0) (Var "v" i) (fun o => Var "b" i o 0 0).

Definition theta_plain (name : string) : parameters term :=
  Parameters (Var name 0) (fun o => Var name 1 o 0 0).

(** A residual block to run [PostNet] with: a convolution of kernel size
    [ksize] and a relu, added to a 1x1 convolution of the input. *)
Definition residual_block (d_in d_out ksize : nat) (p : parameters term * parameters term)
    (x : tensor term) : result (tensor term) :=
  y <- conv_same x d_out d_in ksize (weight (fst p)) (bias (fst p)) 1 ;;
  s <- conv_same x d_out d_in 1 (weight (snd p)) (bias (snd p)) 1 ;;
  binary fadd (relu y) s.

Definition theta_residual (i : nat) : parameters term * parameters term :=
  (Parameters (Var "w" i) (fun o => Var "b" i o 0 0),
   Parameters (Var "ws" i) (fun o => Var "bs" i o 0 0)).

(** Two spectrograms of four steps that share the first two. *)
Definition S1 : tensor term := unknown "S" 1 2 4.
Definition S2 : tensor term :=
  Tensor 1 2 4 (fun n c t => if t <=? 1 then Var "S" 0 n c t else Var "S'" 0 n c t).

(** A query of three audio steps, keys and values of two text steps, two
    channels each. *)
Definition Q0 : tensor term := unknown "Q" 1 2 3.
Definition K0 : tensor term := unknown "K" 1 2 2.
Definition V0 : tensor term := unknown "V" 1 2 2.

(** A spectrogram of five channels, a text of one channel and one step, and
    a spectrogram without time steps. *)
Definition S5 : tensor term := unknown "S" 1 5 4.
Definition L1 : tensor term := unknown "L" 1 1 1.
Definition S0 : tensor term := unknown "S" 1 2 0.

End Symbolic.

(** ** What an output element depends on *)

Section Locality.

Context {F : Type} {SF : Scalar F}.

(** [x] and [x'] have one shape and, in batch element [n], the same elements
    at every step [s] whose neighbours from [s - back] to [s + ahead] lie
    between [lo] and [hi].  The steps before the first one are no
    neighbours: [s - back] is [0] for [s < back]. *)
Definition agree_in (n lo hi back ahead : nat) (x x' : tensor F) : Prop :=
  same_shape x x' /\
  forall c s, n < size0 x -> c < size1 x -> s < size2 x ->
    lo <= s - back -> s + ahead <= hi -> item x n c s = item x' n c s.

(** [x] and [x'] have one shape and, in batch element [n], the same elements
    at the steps from [s - back] to [s + ahead], as far as they have them. *)
Definition agree_around (n s back ahead : nat) (x x' : tensor F) : Prop :=
  same_shape x x' /\
  forall c s', n < size0 x -> c < size1 x -> s' < size2 x ->
    s - back <= s' -> s' <= s + ahead -> item x n c s' = item x' n c s'.

(** [x] and [x'] have one shape and, in batch element [n], the same elements
    at step [s]. *)
Definition agree_at (n s : nat) (x x' : tensor F) : Prop :=
  same_shape x x' /\
  forall c, n < size0 x -> c < size1 x -> s < size2 x -> item x n c s = item x' n c s.

Definition agree_at2 (n s : nat) (p p' : tensor F * tensor F) : Prop :=
  agree_at n s (fst p) (fst p') /\ agree_at n s (snd p) (snd p').

(** How many steps before and after the one it writes a layer reads: its
    convolution reads [kernel_size] steps [dilation] apart, starting
    [padding] steps back. *)
Definition reach_back (l : layer F) : nat :=
  match l with
  | Conv1d _ _ k d _ | HighwayConv1d _ _ k d => k / 2 * d
  | CausalConv1d _ _ k d _ | CausalHighwayConv1d _ _ k d => (k - 1) * d
  | CustomConv1d _ _ k => k / 2 * 1
  end.

Definition reach_ahead (l : layer F) : nat :=
  match l with
  | Conv1d _ _ k d _ | HighwayConv1d _ _ k d => (k - 1) * d - k / 2 * d
  | CausalConv1d _ _ _ _ _ | CausalHighwayConv1d _ _ _ _ => 0
  | CustomConv1d _ _ k => (k - 1) * 1 - k / 2 * 1
  end.

(** A layer whose convolution returns the length of its input. *)
Definition keeps_length (l : layer F) : bool :=
  is_causal l || Nat.odd (layer_kernel_size l).

Definition blocks_back (ms : list (module F)) : nat :=
  fold_right (fun m a => reach_back (module_layer m) + a) 0 ms.

Definition blocks_ahead (ms : list (module F)) : nat :=
  fold_right (fun m a => reach_ahead (module_layer m) + a) 0 ms.

End Locality.

(** Spectrograms and texts of four hundred steps: one unknown throughout,
    one that shares its steps 10 to 390. *)
Module Long.

Definition X1 : tensor Symbolic.term := Symbolic.unknown "X" 1 2 400.
Definition X2 : tensor Symbolic.term :=
  Tensor 1 2 400
    (fun n c t => if (10 <=? t) && (t <=? 390) then Symbolic.Var "X" 0 n c t
                  else Symbolic.Var "X'" 0 n c t).

End Long.

(** A second query, equal to [Symbolic.Q0] at audio step 1 only, and a
    second tensor of values, nowhere equal to [Symbolic.V0]. *)
Module Columns.

Definition Q1 : tensor Symbolic.term :=
  Tensor 1 2 3 (fun n c t =>
    if t =? 1 then Symbolic.Var "Q" 0 n c t else Symbolic.Var "Q'" 0 n c t).

Definition V1 : tensor Symbolic.term := Symbolic.unknown "V'" 1 2 2.

End Columns.

(** * Proofs *)

(** ** The error monad, sums and loops *)

Lemma bind_inr {A B : Type} (r : result A) (k : A -> result B) (b : B) :
  (a <- r ;; k a) = inr b -> exists a, r = inr a /\ k a = inr b.
Proof.
  destruct r as [e | a]; simpl; intros H; [discriminate | eauto].
Qed.

Lemma bind_inl {A B : Type} (r : result A) (k : A -> result B) (e : exn) :
  (a <- r ;; k a) = inl e -> r = inl e \/ exists a, r = inr a /\ k a = inl e.
Proof.
  destruct r as [e' | a]; simpl; intros H; [left; congruence | right; eauto].
Qed.

Lemma result_rel_bind {A B : Type} (R : A -> A -> Prop) (Q : B -> B -> Prop)
    (r r' : result A) (k k' : A -> result B) :
  result_rel R r r' ->
  (forall a a', R a a' -> result_rel Q (k a) (k' a')) ->
  result_rel Q (a <- r ;; k a) (a <- r' ;; k' a).
Proof.
  destruct r as [e | a], r' as [e' | a']; simpl; intros H Hk; try contradiction.
  - exact H.
  - apply Hk, H.
Qed.

Lemma result_rel_impl {A : Type} (R Q : A -> A -> Prop) (r r' : result A) :
  (forall a a', R a a' -> Q a a') -> result_rel R r r' -> result_rel Q r r'.
Proof.
  destruct r, r'; simpl; auto.
Qed.

Section Basics.

Context {F : Type} {SF : Scalar F}.

Lemma fold_fadd_ext (f g : nat -> F) (l : list nat) :
  (forall i, In i l -> f i = g i) ->
  forall acc, fold_left (fun a i => fadd a (f i)) l acc
              = fold_left (fun a i => fadd a (g i)) l acc.
Proof.
  induction l as [| i l IH]; intros H acc; simpl; [reflexivity |].
  rewrite (H i (or_introl eq_refl)). apply IH.
  intros j Hj. apply H. right. exact Hj.
Qed.

(** A sum depends on the summands below its bound only. *)
Lemma fsum_ext (n : nat) (f g : nat -> F) :
  (forall i, i < n -> f i = g i) -> fsum n f = fsum n g.
Proof.
  destruct n as [| m]; intros H; simpl; [reflexivity |].
  rewrite (H 0) by lia. apply fold_fadd_ext.
  intros i Hi. apply in_seq in Hi. apply H. lia.
Qed.

Lemma fsum_1 (f : nat -> F) : fsum 1 f = f 0.
Proof. reflexivity. Qed.

(** So does a maximum. *)
Lemma fmaximum_ext (n : nat) (f g : nat -> F) :
  (forall i, i < n -> f i = g i) -> fmaximum n f = fmaximum n g.
Proof.
  destruct n as [| m]; intros H; simpl; [reflexivity |].
  rewrite (H 0) by lia.
  assert (Hl : forall l acc, (forall i, In i l -> f i = g i) ->
             fold_left (fun a i => fmax a (f i)) l acc
             = fold_left (fun a i => fmax a (g i)) l acc).
  { induction l as [| i l IH]; intros acc Hfg; simpl; [reflexivity |].
    rewrite (Hfg i (or_introl eq_refl)). apply IH.
    intros j Hj. apply Hfg. right. exact Hj. }
  apply Hl. intros i Hi. apply in_seq in Hi. apply H. lia.
Qed.

Lemma getitem_middle (pre ms : list (module F)) (m : module F) :
  getitem (pre ++ m :: ms) (length pre) = inr m.
Proof.
  unfold getitem. rewrite nth_error_app2 by lia.
  rewrite Nat.sub_diag. reflexivity.
Qed.

Lemma for_range_blocks (ms pre : list (module F)) (r : result (tensor F)) :
  fold_left (fun acc i => y <- acc ;; (m <- getitem (pre ++ ms) i ;; call m y))
            (seq (length pre) (length ms)) r
  = (y <- r ;; run_blocks ms y).
Proof.
  revert pre r. induction ms as [| m ms IH]; intros pre r.
  - simpl. destruct r; reflexivity.
  - cbn [length seq fold_left].
    replace (pre ++ m :: ms) with ((pre ++ [m]) ++ ms)
      by (rewrite <- app_assoc; reflexivity).
    replace (S (length pre)) with (length (pre ++ [m]))
      by (rewrite length_app; simpl; lia).
    rewrite IH. destruct r as [e | y]; [reflexivity |].
    cbn [bind Monad_either].
    rewrite <- app_assoc. cbn [app]. rewrite getitem_middle. reflexivity.
Qed.

(** The loop over the indices applies the blocks in order; indexing never
    fails. *)
Lemma apply_blocks_run_blocks (ms : list (module F)) (y : tensor F) :
  apply_blocks ms y = run_blocks ms y.
Proof.
  unfold apply_blocks, for_range.
  exact (for_range_blocks ms [] (inr y)).
Qed.

Lemma run_blocks_app (ms ms' : list (module F)) (x : tensor F) :
  run_blocks (ms ++ ms') x = (y <- run_blocks ms x ;; run_blocks ms' y).
Proof.
  revert x. induction ms as [| m ms IH]; intros x; simpl; [reflexivity |].
  destruct (call m x) as [e | y]; simpl; [reflexivity | apply IH].
Qed.

End Basics.

(** ** Shapes *)

Section Shapes.

Context {F : Type} {SF : Scalar F}.

Lemma shape_eq (x : tensor F) (a b c : nat) :
  shape x = (a, b, c) <-> size0 x = a /\ size1 x = b /\ size2 x = c.
Proof.
  unfold shape. split.
  - intros H. inversion H. auto.
  - intros (-> & -> & ->). reflexivity.
Qed.

(** An odd kernel padded by [kernel_size // 2 * dilation] keeps the length. *)
Lemma same_length (k d T : nat) :
  Nat.odd k = true -> T + 2 * (k / 2 * d) - d * (k - 1) = T.
Proof.
  intros Hk. apply Nat.odd_spec in Hk. destruct Hk as [q ->].
  replace ((2 * q + 1) / 2) with q
    by (apply (Nat.div_unique (2 * q + 1) 2 q 1); lia).
  replace (2 * q + 1 - 1) with (2 * q) by lia.
  replace (d * (2 * q)) with (2 * (q * d)) by lia. lia.
Qed.

(** The checks of a convolution, one by one. *)
Lemma conv1d_cases (x : tensor F) (o i k : nat) (w : nat -> nat -> nat -> F)
    (b : nat -> F) (p d : nat) :
  (size1 x <> i /\
   conv1d x o i k w b p d
   = inl (RuntimeError "conv1d: the input has the wrong number of channels")) \/
  (size1 x = i /\ (o = 0 \/ i = 0 \/ k = 0) /\
   conv1d x o i k w b p d = inl (RuntimeError "conv1d: the weight has no elements")) \/
  (size1 x = i /\ 0 < o /\ 0 < i /\ 0 < k /\ size2 x = 0 /\
   conv1d x o i k w b p d = inl (RuntimeError "conv1d: the input has no time steps")) \/
  (size1 x = i /\ 0 < o /\ 0 < i /\ 0 < k /\ 0 < size2 x /\
   size2 x + 2 * p < d * (k - 1) + 1 /\
   conv1d x o i k w b p d
   = inl (RuntimeError "conv1d: the kernel is longer than the padded input")) \/
  (size1 x = i /\ 0 < o /\ 0 < i /\ 0 < k /\ 0 < size2 x /\
   d * (k - 1) + 1 <= size2 x + 2 * p /\
   conv1d x o i k w b p d = inr (convolved x o i k w b p d)).
Proof.
  unfold conv1d.
  destruct (Nat.eqb_spec (size1 x) i) as [Hx | Hx]; cbn [negb]; [| left; auto].
  right.
  destruct (Nat.eqb_spec o 0) as [Ho | Ho]; cbn [orb]; [left; auto |].
  destruct (Nat.eqb_spec i 0) as [Hi | Hi]; cbn [orb]; [left; auto |].
  destruct (Nat.eqb_spec k 0) as [Hk | Hk]; cbn [orb]; [left; auto |].
  right.
  destruct (Nat.eqb_spec (size2 x) 0) as [HT | HT];
    [left; repeat split; solve [assumption | lia | reflexivity] |].
  right.
  destruct (Nat.ltb_spec (size2 x + 2 * p) (d * (k - 1) + 1)) as [Hl | Hl];
    [left | right]; repeat split; solve [assumption | lia | reflexivity].
Qed.

Lemma conv1d_inr (x : tensor F) (o i k : nat) (w : nat -> nat -> nat -> F)
    (b : nat -> F) (p d : nat) :
  size1 x = i -> 0 < o -> 0 < i -> 0 < k -> 0 < size2 x ->
  d * (k - 1) + 1 <= size2 x + 2 * p ->
  conv1d x o i k w b p d = inr (convolved x o i k w b p d).
Proof.
  intros Hx Ho Hi Hk HT Hl.
  destruct (conv1d_cases x o i k w b p d)
    as [(H & _) | [(_ & H & _) | [(_ & _ & _ & _ & H & _) |
        [(_ & _ & _ & _ & _ & H & _) | (_ & _ & _ & _ & _ & _ & H)]]]];
    solve [exact H | exfalso; lia].
Qed.

(** A convolution that returns has passed every check. *)
Lemma conv1d_inr_inv (x y : tensor F) (o i k : nat) (w : nat -> nat -> nat -> F)
    (b : nat -> F) (p d : nat) :
  conv1d x o i k w b p d = inr y ->
  size1 x = i /\ 0 < o /\ 0 < i /\ 0 < k /\ 0 < size2 x /\
  d * (k - 1) + 1 <= size2 x + 2 * p /\
  y = convolved x o i k w b p d.
Proof.
  intros H.
  destruct (conv1d_cases x o i k w b p d)
    as [(_ & E) | [(_ & _ & E) | [(_ & _ & _ & _ & _ & E) |
        [(_ & _ & _ & _ & _ & _ & E) | (H1 & H2 & H3 & H4 & H5 & H6 & E)]]]];
    rewrite E in H; try discriminate.
  inversion H. auto 10.
Qed.

Lemma conv1d_inl (x : tensor F) (o i k : nat) (w : nat -> nat -> nat -> F)
    (b : nat -> F) (p d : nat) :
  size1 x <> i ->
  conv1d x o i k w b p d
  = inl (RuntimeError "conv1d: the input has the wrong number of channels").
Proof.
  intros H. unfold conv1d. apply Nat.eqb_neq in H. rewrite H. reflexivity.
Qed.

Lemma conv1d_sizes (x y : tensor F) (o i k : nat) (w : nat -> nat -> nat -> F)
    (b : nat -> F) (p d : nat) :
  conv1d x o i k w b p d = inr y ->
  size0 y = size0 x /\ size1 y = o /\ size2 y = size2 x + 2 * p - d * (k - 1).
Proof.
  intros H. apply conv1d_inr_inv in H.
  destruct H as (_ & _ & _ & _ & _ & _ & ->). cbn [convolved size0 size1 size2]. auto.
Qed.

Lemma conv1d_channels (x y : tensor F) (o i k : nat) (w : nat -> nat -> nat -> F)
    (b : nat -> F) (p d : nat) :
  conv1d x o i k w b p d = inr y -> size1 y = o.
Proof. intros H. apply conv1d_sizes in H. apply H. Qed.

(** Whether a convolution returns, and with which exception it fails,
    depends on the shape of its input only. *)
Lemma conv1d_alike (x x' : tensor F) (o i k : nat) (w : nat -> nat -> nat -> F)
    (b : nat -> F) (p d : nat) :
  size1 x = size1 x' -> (size2 x = 0 <-> size2 x' = 0) ->
  (size2 x + 2 * p < d * (k - 1) + 1 <-> size2 x' + 2 * p < d * (k - 1) + 1) ->
  result_rel (fun y y' => y = convolved x o i k w b p d /\
                          y' = convolved x' o i k w b p d)
             (conv1d x o i k w b p d) (conv1d x' o i k w b p d).
Proof.
  intros H1 H0 Hl.
  destruct (conv1d_cases x o i k w b p d)
    as [(A & ->) | [(A & A' & ->) | [(A & Ao & Ai & Ak & AT & ->) |
        [(A & Ao & Ai & Ak & AT & Al & ->) | (A & Ao & Ai & Ak & AT & Al & ->)]]]];
  destruct (conv1d_cases x' o i k w b p d)
    as [(B & ->) | [(B & B' & ->) | [(B & Bo & Bi & Bk & BT & ->) |
        [(B & Bo & Bi & Bk & BT & Bl & ->) | (B & Bo & Bi & Bk & BT & Bl & ->)]]]];
  cbn [result_rel]; try reflexivity; try (split; reflexivity); exfalso; lia.
Qed.

(** The length check of a kernel padded alike at both ends, or in the past,
    passes on every input that has a time step. *)
Lemma same_fits (k d T : nat) :
  0 < k -> 0 < T -> d * (k - 1) + 1 <= T + 2 * (k / 2 * d).
Proof.
  intros Hk HT.
  assert (Hh : k - 1 <= 2 * (k / 2)).
  { pose proof (Nat.div_mod_eq k 2) as E.
    pose proof (Nat.mod_upper_bound k 2 ltac:(lia)) as U. lia. }
  assert (Hd : d * (k - 1) <= d * (2 * (k / 2))) by (apply Nat.mul_le_mono_l, Hh).
  replace (2 * (k / 2 * d)) with (d * (2 * (k / 2)))
    by (rewrite (Nat.mul_comm (k / 2) d), !Nat.mul_assoc, (Nat.mul_comm 2 d); reflexivity).
  lia.
Qed.

Lemma causal_fits (k d T : nat) :
  0 < T -> d * (k - 1) + 1 <= T + 2 * ((k - 1) * d).
Proof.
  intros HT. rewrite (Nat.mul_comm d (k - 1)).
  generalize ((k - 1) * d). intros m. lia.
Qed.

Lemma conv_same_shape (x : tensor F) (o i k : nat) (w : nat -> nat -> nat -> F)
    (b : nat -> F) (d : nat) :
  size1 x = i -> 0 < o -> 0 < i -> 0 < size2 x -> Nat.odd k = true ->
  exists y, conv_same x o i k w b d = inr y /\
            size0 y = size0 x /\ size1 y = o /\ size2 y = size2 x.
Proof.
  intros Hx Ho Hi HT Hk. unfold conv_same.
  assert (Hk0 : 0 < k) by (destruct k; [discriminate | lia]).
  rewrite conv1d_inr; try assumption; [| apply same_fits; assumption].
  eexists. split; [reflexivity |]. cbn [convolved size0 size1 size2].
  rewrite same_length by exact Hk. auto.
Qed.

Lemma conv_causal_shape (x : tensor F) (o i k : nat) (w : nat -> nat -> nat -> F)
    (b : nat -> F) (d : nat) :
  size1 x = i -> 0 < o -> 0 < i -> 0 < k -> 0 < size2 x ->
  exists y, conv_causal x o i k w b d = inr y /\
            size0 y = size0 x /\ size1 y = o /\ size2 y = size2 x.
Proof.
  intros Hx Ho Hi Hk HT. unfold conv_causal.
  rewrite conv1d_inr; try assumption; [| apply causal_fits; assumption].
  eexists. split; [reflexivity |]. cbn [convolved size0 size1 size2 keep_time].
  repeat split. apply Nat.min_l.
  replace (d * (k - 1)) with ((k - 1) * d) by lia. lia.
Qed.

Lemma conv_causal_sizes (x y : tensor F) (o i k : nat) (w : nat -> nat -> nat -> F)
    (b : nat -> F) (d : nat) :
  conv_causal x o i k w b d = inr y ->
  size0 y = size0 x /\ size1 y = o /\ size2 y = size2 x.
Proof.
  unfold conv_causal. intros H. apply bind_inr in H. destruct H as (z & Hz & H).
  apply conv1d_sizes in Hz. destruct Hz as (Z0 & Z1 & Z2).
  inversion H. cbn [keep_time size0 size1 size2]. repeat split; try assumption.
  rewrite Z2. apply Nat.min_l.
  replace (d * (k - 1)) with ((k - 1) * d) by lia. lia.
Qed.

Lemma conv_causal_channels (x y : tensor F) (o i k : nat)
    (w : nat -> nat -> nat -> F) (b : nat -> F) (d : nat) :
  conv_causal x o i k w b d = inr y -> size1 y = o.
Proof. intros H. apply conv_causal_sizes in H. apply H. Qed.

Lemma broadcast_size_refl (a : nat) : broadcast_size a a = inr a.
Proof. unfold broadcast_size. rewrite Nat.eqb_refl. reflexivity. Qed.

Lemma binary_shape (f : F -> F -> F) (a b : tensor F) :
  size0 a = size0 b -> size1 a = size1 b -> size2 a = size2 b ->
  exists y, binary f a b = inr y /\
            size0 y = size0 a /\ size1 y = size1 a /\ size2 y = size2 a.
Proof.
  intros H0 H1 H2. unfold binary. rewrite <- H0, <- H1, <- H2.
  rewrite !broadcast_size_refl. simpl. eexists. split; [reflexivity |]. auto.
Qed.

Lemma highway_shape (H x : tensor F) (o : nat) :
  size0 H = size0 x -> size1 x = o -> size2 H = size2 x ->
  exists y, highway H x o = inr y /\
            size0 y = size0 x /\ size1 y = o /\ size2 y = size2 x.
Proof.
  intros H0 H1 H2. unfold highway.
  destruct (binary_shape fmul (sigmoid (narrow_1 H 0 o)) (narrow_1 H o o))
    as (a & -> & Ha0 & Ha1 & Ha2); try reflexivity.
  destruct (binary_shape fmul (pointwise (fsub fone) (sigmoid (narrow_1 H 0 o))) x)
    as (b & -> & Hb0 & Hb1 & Hb2); simpl; auto.
  simpl in *.
  destruct (binary_shape fadd a b) as (y & -> & Hy0 & Hy1 & Hy2); try congruence.
  exists y. split; [reflexivity |]. repeat split; congruence.
Qed.

Lemma layer_forward_shape (l : layer F) (w : nat -> nat -> nat -> F) (b : nat -> F)
    (x : tensor F) :
  accepts l (size1 x) -> 0 < size2 x ->
  exists y, layer_forward l w b x = inr y /\
            size0 y = size0 x /\ size1 y = layer_out_channels l /\ size2 y = size2 x.
Proof.
  intros (Hin & HC & Ho & Hk & Hl) HT.
  destruct l as [i o k d act | i o k d | i o k d act | i o k d | i o k];
    cbn [layer_forward layer_in_channels layer_out_channels layer_kernel_size]
      in Hin, Ho, Hk, Hl |- *;
    symmetry in Hin; rewrite Hin in HC.
  - destruct (conv_same_shape x o i k w b d Hin Ho HC HT Hl) as (y & -> & H0 & H1 & H2).
    cbn [bind Monad_either ret]. eexists. split; [reflexivity |].
    destruct act; simpl; auto.
  - destruct Hl as [Hl <-].
    destruct (conv_same_shape x (2 * i) i k w b d Hin ltac:(lia) HC HT Hl)
      as (y & -> & H0 & H1 & H2).
    cbn [bind Monad_either ret]. apply highway_shape; auto.
  - destruct (conv_causal_shape x o i k w b d Hin Ho HC Hk HT) as (y & -> & H0 & H1 & H2).
    cbn [bind Monad_either ret]. eexists. split; [reflexivity |].
    destruct act; simpl; auto.
  - subst o.
    destruct (conv_causal_shape x (2 * i) i k w b d Hin ltac:(lia) HC Hk HT)
      as (y & -> & H0 & H1 & H2).
    cbn [bind Monad_either ret]. apply highway_shape; auto.
  - apply conv_same_shape; assumption.
Qed.

Lemma call_shape (m : module F) (x : tensor F) :
  accepts (module_layer m) (size1 x) -> 0 < size2 x ->
  exists y, call m x = inr y /\
            size0 y = size0 x /\ size1 y = layer_out_channels (module_layer m) /\
            size2 y = size2 x.
Proof.
  destruct m as [l p | l p]; simpl; apply layer_forward_shape.
Qed.

(** Blocks that fit one another all succeed on an input that has a time
    step, and keep batch size and length. *)
Lemma run_blocks_shape (ms : list (module F)) (x : tensor F) :
  chain ms (size1 x) -> 0 < size2 x ->
  exists y, run_blocks ms x = inr y /\
            size0 y = size0 x /\ size1 y = chain_out ms (size1 x) /\
            size2 y = size2 x.
Proof.
  revert x. induction ms as [| m ms IH]; intros x Hc HT; simpl in *.
  - exists x. auto.
  - destruct Hc as [Hm Hc].
    destruct (call_shape m x Hm HT) as (y & -> & H0 & H1 & H2). simpl.
    rewrite <- H1 in Hc. rewrite <- H2 in HT.
    destruct (IH y Hc HT) as (z & Hz & Hz0 & Hz1 & Hz2).
    exists z. split; [exact Hz |]. repeat split; congruence.
Qed.

(** A layer refuses an input with another number of channels than its
    convolution expects. *)
Lemma layer_refuses (l : layer F) (w : nat -> nat -> nat -> F) (b : nat -> F)
    (x : tensor F) :
  size1 x <> layer_in_channels l ->
  layer_forward l w b x
  = inl (RuntimeError "conv1d: the input has the wrong number of channels").
Proof.
  intros H.
  destruct l as [i o k d act | i o k d | i o k d act | i o k d | i o k];
    cbn [layer_forward layer_in_channels] in H |- *;
    unfold conv_same, conv_causal; rewrite conv1d_inl by exact H; reflexivity.
Qed.

Lemma call_refuses (m : module F) (x : tensor F) :
  size1 x <> layer_in_channels (module_layer m) ->
  call m x = inl (RuntimeError "conv1d: the input has the wrong number of channels").
Proof.
  destruct m as [l p | l p]; cbn [call module_layer]; apply layer_refuses.
Qed.

(** A layer refuses an input without time steps. *)
Lemma layer_refuses_empty (l : layer F) (w : nat -> nat -> nat -> F) (b : nat -> F)
    (x : tensor F) :
  size2 x = 0 -> exists msg, layer_forward l w b x = inl (RuntimeError msg).
Proof.
  intros HT.
  assert (Hc : forall o i k p d,
             exists msg, conv1d x o i k w b p d = inl (RuntimeError msg)).
  { intros o i k p d.
    destruct (conv1d_cases x o i k w b p d)
      as [(_ & E) | [(_ & _ & E) | [(_ & _ & _ & _ & _ & E) |
          [(_ & _ & _ & _ & A & _) | (_ & _ & _ & _ & A & _)]]]];
      try (eexists; exact E); exfalso; lia. }
  destruct l as [i o k d act | i o k d | i o k d act | i o k d | i o k];
    cbn [layer_forward]; unfold conv_same, conv_causal.
  - destruct (Hc o i k (k / 2 * d) d) as [msg ->]. eexists. reflexivity.
  - destruct (Hc (2 * o) i k (k / 2 * d) d) as [msg ->]. eexists. reflexivity.
  - destruct (Hc o i k ((k - 1) * d) d) as [msg ->]. eexists. reflexivity.
  - destruct (Hc (2 * o) i k ((k - 1) * d) d) as [msg ->]. eexists. reflexivity.
  - destruct (Hc o i k (k / 2 * 1) 1) as [msg ->]. eexists. reflexivity.
Qed.

End Shapes.

(** Solves the goal that the blocks of a network fit one another. *)
Ltac fits :=
  cbn; repeat split; try reflexivity; try assumption;
  cbn [layer_kernel_size layer_out_channels layer_in_channels]; lia.

(** ** TextEncoder *)

Section TextEncoderProofs.

Context {F : Type} {SF : Scalar F}.

(** An even number of channels splits into the lower and the upper half. *)
Lemma chunk_2_even (y : tensor F) (h : nat) :
  size1 y = 2 * h -> chunk 2 y = [narrow_1 y 0 h; narrow_1 y h h].
Proof.
  intros Hy. unfold chunk. rewrite Hy.
  replace ((2 * h + 2 - 1) / 2) with h
    by (apply (Nat.div_unique (2 * h + 2 - 1) 2 h 1); lia).
  destruct h as [| h'].
  - reflexivity.
  - cbn [Nat.eqb].
    replace ((2 * S h' + S h' - 1) / S h') with 2
      by (apply (Nat.div_unique (2 * S h' + S h' - 1) (S h') 2 h'); lia).
    cbn [seq map]. repeat f_equal; lia.
Qed.

(** A single channel does not split: [chunk] returns one piece. *)
Lemma chunk_2_single (y : tensor F) :
  size1 y = 1 -> chunk 2 y = [narrow_1 y 0 1].
Proof.
  intros Hy. unfold chunk. rewrite Hy. reflexivity.
Qed.

(** An odd number of channels, three or more, splits unevenly: the first
    piece gets one channel more than the second. *)
Lemma chunk_2_odd (y : tensor F) (h : nat) :
  size1 y = 2 * h + 3 ->
  chunk 2 y = [narrow_1 y 0 (h + 2); narrow_1 y (h + 2) (h + 1)].
Proof.
  intros Hy. unfold chunk. rewrite Hy.
  replace ((2 * h + 3 + 2 - 1) / 2) with (h + 2)
    by (apply (Nat.div_unique (2 * h + 3 + 2 - 1) 2 (h + 2) 0); lia).
  replace (h + 2 =? 0) with false by (symmetry; apply Nat.eqb_neq; lia).
  replace ((2 * h + 3 + (h + 2) - 1) / (h + 2)) with 2
    by (apply (Nat.div_unique (2 * h + 3 + (h + 2) - 1) (h + 2) 2 h); lia).
  cbn [seq map]. f_equal; [f_equal; lia | f_equal; f_equal; lia].
Qed.

(** Two or more channels split into [ceil(C / 2)] and [floor(C / 2)]. *)
Lemma chunk_2_split (y : tensor F) :
  2 <= size1 y ->
  chunk 2 y = [narrow_1 y 0 ((size1 y + 1) / 2);
               narrow_1 y ((size1 y + 1) / 2) (size1 y / 2)].
Proof.
  intros HC. destruct (Nat.Even_or_Odd (size1 y)) as [[h Hh] | [h Hh]].
  - rewrite (chunk_2_even y h Hh), Hh.
    replace ((2 * h + 1) / 2) with h
      by (apply (Nat.div_unique (2 * h + 1) 2 h 1); lia).
    replace (2 * h / 2) with h
      by (apply (Nat.div_unique (2 * h) 2 h 0); lia).
    reflexivity.
  - destruct h as [| h']; [lia |].
    rewrite (chunk_2_odd y h') by lia. rewrite Hh.
    replace ((2 * S h' + 1 + 1) / 2) with (h' + 2)
      by (apply (Nat.div_unique (2 * S h' + 1 + 1) 2 (h' + 2) 0); lia).
    replace ((2 * S h' + 1) / 2) with (h' + 1)
      by (apply (Nat.div_unique (2 * S h' + 1) 2 (h' + 1) 1); lia).
    reflexivity.
Qed.

Lemma TextEncoder_chain (d_in d_out d_hidden : nat) (theta : nat -> norm_parameters F) :
  0 < d_in -> 0 < d_hidden ->
  chain (TextEncoder.hc_blocks (TextEncoder.__init__ d_in d_out d_hidden theta)) d_in /\
  chain_out (TextEncoder.hc_blocks (TextEncoder.__init__ d_in d_out d_hidden theta)) d_in
  = d_hidden.
Proof.
  intros Hi Hh. split; [| reflexivity].
  fits.
Qed.

(** The fourteen blocks succeed on an input of [d_in] channels that has a
    time step, and return [d_hidden] channels of the same length. *)
Lemma TextEncoder_blocks_shape (d_in d_out d_hidden : nat)
    (theta : nat -> norm_parameters F) (L : tensor F) :
  size1 L = d_in -> 0 < d_in -> 0 < d_hidden -> 0 < size2 L ->
  exists y,
    apply_blocks (TextEncoder.hc_blocks (TextEncoder.__init__ d_in d_out d_hidden theta)) L
    = inr y /\
    size0 y = size0 L /\ size1 y = d_hidden /\ size2 y = size2 L.
Proof.
  intros HL Hi Hh HT.
  destruct (TextEncoder_chain d_in d_out d_hidden theta Hi Hh) as [Hc Ho].
  rewrite <- HL in Hc, Ho.
  destruct (run_blocks_shape _ L Hc HT) as (y & Hy & H0 & H1 & H2).
  exists y. rewrite apply_blocks_run_blocks. repeat split; congruence.
Qed.

(** C8: for an input [L] of shape [(N, d_in, Tx)], not empty, and an even
    [d_hidden], [TextEncoder.forward] returns a pair [(K, V)], the two halves
    along the channel axis of the last block's output [y]: both of shape
    [(N, d_hidden / 2, Tx)], [K] the first [d_hidden / 2] channels of [y] and
    [V] the channels from [d_hidden / 2] on. *)
Theorem TextEncoder_forward_halves
    (d_in d_out d_hidden : nat) (theta : nat -> norm_parameters F)
    (L : tensor F) (N Tx : nat) :
  shape L = (N, d_in, Tx) ->
  0 < N -> 0 < d_in -> 0 < Tx ->
  0 < d_hidden -> Nat.Even d_hidden ->
  let self := TextEncoder.__init__ d_in d_out d_hidden theta in
  exists y K V,
    apply_blocks (TextEncoder.hc_blocks self) L = inr y /\
    shape y = (N, d_hidden, Tx) /\
    TextEncoder.forward self L = inr (K, V) /\
    shape K = (N, d_hidden / 2, Tx) /\
    shape V = (N, d_hidden / 2, Tx) /\
    forall n c t,
      item K n c t = item y n c t /\
      item V n c t = item y n (d_hidden / 2 + c) t.
Proof.
  intros HL _ Hi HTx Hd [h Hh] self. subst self.
  apply shape_eq in HL. destruct HL as (HN & HC & HT).
  rewrite <- HT in HTx.
  destruct (TextEncoder_blocks_shape d_in d_out d_hidden theta L HC Hi Hd HTx)
    as (y & Hy & H0 & H1 & H2).
  assert (Hhalf : d_hidden / 2 = h).
  { subst d_hidden. symmetry. apply (Nat.div_unique (2 * h) 2 h 0); lia. }
  exists y, (narrow_1 y 0 h), (narrow_1 y h h).
  split; [exact Hy |].
  split; [apply shape_eq; repeat split; congruence |].
  split.
  { unfold TextEncoder.forward. rewrite Hy. cbn [bind Monad_either].
    rewrite (chunk_2_even y h) by congruence. reflexivity. }
  rewrite Hhalf.
  split; [apply shape_eq; simpl; repeat split; congruence |].
  split; [apply shape_eq; simpl; repeat split; congruence |].
  intros n c t. simpl. auto.
Qed.

End TextEncoderProofs.

(** An instance of C8: two input channels, four hidden ones, four steps. *)
Lemma TextEncoder_forward_halves_witness :
  (shape Symbolic.S1 = (1, 2, 4) /\ 0 < 1 /\ 0 < 2 /\ 0 < 4 /\ 0 < 4 /\ Nat.Even 4) /\
  exists y K V,
    apply_blocks (TextEncoder.hc_blocks (TextEncoder.__init__ 2 3 4 Symbolic.theta))
                 Symbolic.S1 = inr y /\
    shape y = (1, 4, 4) /\
    TextEncoder.forward (TextEncoder.__init__ 2 3 4 Symbolic.theta) Symbolic.S1
    = inr (K, V) /\
    shape K = (1, 4 / 2, 4) /\
    shape V = (1, 4 / 2, 4) /\
    forall n c t,
      item K n c t = item y n c t /\ item V n c t = item y n (4 / 2 + c) t.
Proof.
  assert (H1 : 0 < 1) by lia.
  assert (H2 : 0 < 2) by lia.
  assert (H4 : 0 < 4) by lia.
  assert (He : Nat.Even 4) by (exists 2; reflexivity).
  split; [repeat split; assumption |].
  exact (TextEncoder_forward_halves 2 3 4 Symbolic.theta Symbolic.S1 1 4
           eq_refl H1 H2 H4 H4 He).
Defined.

(** ** DotProductAttention *)

Section AttentionProofs.

Context {F : Type} {SF : Scalar F}.

Lemma bmm_inr (a b : tensor F) :
  size0 a = size0 b -> size2 a = size1 b ->
  bmm a b
  = inr (Tensor (size0 a) (size1 a) (size2 b)
           (fun n i j => fsum (size2 a) (fun k => fmul (item a n i k) (item b n k j)))).
Proof.
  intros H0 H1. unfold bmm. rewrite H0, H1, !Nat.eqb_refl. reflexivity.
Qed.

Lemma bmm_inr_inv (a b y : tensor F) :
  bmm a b = inr y ->
  size0 a = size0 b /\ size2 a = size1 b /\
  size0 y = size0 a /\ size1 y = size1 a /\ size2 y = size2 b.
Proof.
  unfold bmm.
  destruct (Nat.eqb_spec (size0 a) (size0 b)) as [E0 | E0]; [| discriminate].
  destruct (Nat.eqb_spec (size2 a) (size1 b)) as [E1 | E1]; [| discriminate].
  cbn [andb ret Monad_either]. intros H. inversion H. cbn [size0 size1 size2]. auto.
Qed.

(** A [CustomConv1d] of kernel size 1 followed by [tanh] is the tanh of a
    linear projection of the channels, step by step. *)
Lemma linear_projection (C : nat) (p : parameters F) (x : tensor F) :
  size1 x = C -> 0 < C -> 0 < size2 x ->
  exists y,
    call (plain (CustomConv1d C C 1) p) x = inr y /\
    size0 y = size0 x /\ size1 y = C /\ size2 y = size2 x /\
    forall n o t, t < size2 x -> item (tanh y) n o t = projection p C x n o t.
Proof.
  intros HC HC0 HT. cbn [call layer_forward]. unfold conv_same.
  rewrite conv1d_inr; try assumption; try lia.
  eexists. split; [reflexivity |]. cbn [convolved size0 size1 size2].
  repeat split.
  - change (1 / 2 * 1) with 0. lia.
  - intros n o t Ht. unfold projection. cbn [tanh pointwise item convolved].
    f_equal. f_equal. apply fsum_ext. intros c Hc.
    rewrite fsum_1. f_equal. unfold padded.
    change (1 / 2 * 1) with 0. change (0 * 1) with 0.
    rewrite Nat.add_0_r, Nat.sub_0_r.
    apply Nat.ltb_lt in Ht. rewrite Ht. reflexivity.
Qed.

(** A projection that returns was given the channels it was built for, and
    a time step. *)
Lemma projection_inr_inv (C : nat) (p : parameters F) (x y : tensor F) :
  call (plain (CustomConv1d C C 1) p) x = inr y ->
  size1 x = C /\ 0 < C /\ 0 < size2 x /\
  size0 y = size0 x /\ size1 y = C /\ size2 y = size2 x.
Proof.
  cbn [call layer_forward]. unfold conv_same. intros H.
  pose proof (conv1d_sizes _ _ _ _ _ _ _ _ _ H) as (Y0 & Y1 & Y2).
  apply conv1d_inr_inv in H. destruct H as (H1 & H2 & _ & _ & H5 & _).
  repeat split; try assumption.
  rewrite Y2. change (1 / 2 * 1) with 0. lia.
Qed.

(** What [forward] runs through on inputs whose shapes fit. *)
Lemma attention_forward_run (d_hidden : nat) (theta_q theta_k theta_v : parameters F)
    (Q K V : tensor F) (N Tx Ty : nat) :
  shape Q = (N, d_hidden, Ty) ->
  shape K = (N, d_hidden, Tx) ->
  shape V = (N, d_hidden, Tx) ->
  0 < d_hidden -> 0 < Tx -> 0 < Ty ->
  let self := DotProductAttention.__init__ d_hidden theta_q theta_k theta_v in
  exists R A,
    DotProductAttention.forward self Q K V = inr (R, A) /\
    shape R = (N, d_hidden, Ty) /\
    shape A = (N, Tx, Ty) /\
    (forall n i j, n < N -> i < Tx -> j < Ty ->
       item A n i j
       = alignment (projection theta_q d_hidden Q) (projection theta_k d_hidden K)
                   d_hidden Tx d_hidden n i j) /\
    (forall n c j, n < N -> c < d_hidden -> j < Ty ->
       item R n c j
       = attended (projection theta_q d_hidden Q) (projection theta_k d_hidden K)
                  (projection theta_v d_hidden V) d_hidden Tx d_hidden n c j).
Proof.
  intros HQ HK HV Hd HTx HTy self. subst self.
  apply shape_eq in HQ, HK, HV.
  destruct HQ as (HQ0 & HQ1 & HQ2), HK as (HK0 & HK1 & HK2), HV as (HV0 & HV1 & HV2).
  destruct (linear_projection d_hidden theta_q Q HQ1 Hd ltac:(lia))
    as (Q1 & EQ & Q10 & Q11 & Q12 & Qi).
  destruct (linear_projection d_hidden theta_k K HK1 Hd ltac:(lia))
    as (K1 & EK & K10 & K11 & K12 & Ki).
  destruct (linear_projection d_hidden theta_v V HV1 Hd ltac:(lia))
    as (V1 & EV & V10 & V11 & V12 & Vi).
  unfold DotProductAttention.forward.
  cbn [DotProductAttention.__init__ DotProductAttention.linear_q
       DotProductAttention.linear_k DotProductAttention.linear_v
       DotProductAttention.d_k].
  rewrite EQ. cbn [bind Monad_either]. rewrite EK. cbn [bind Monad_either].
  rewrite EV. cbn [bind Monad_either].
  rewrite (bmm_inr (transpose_1_2 (tanh K1)) (tanh Q1))
    by (cbn [transpose_1_2 tanh pointwise size0 size1 size2]; congruence).
  cbn [bind Monad_either].
  rewrite bmm_inr
    by (cbn [transpose_1_2 tanh pointwise softmax_dim1 div_scalar size0 size1 size2];
        congruence).
  cbn [bind Monad_either ret].
  eexists. eexists. split; [reflexivity |].
  assert (Hscore : forall n i j, i < Tx -> j < Ty ->
            fdiv (fsum (size1 K1) (fun k => fmul (item (tanh K1) n k i)
                                                 (item (tanh Q1) n k j)))
                 (fsqrt (of_nat d_hidden))
            = score (projection theta_q d_hidden Q) (projection theta_k d_hidden K)
                    d_hidden d_hidden n i j).
  { intros n i j Hi Hj. unfold score. rewrite K11. f_equal.
    apply fsum_ext. intros c Hc.
    rewrite Ki by lia. rewrite Qi by lia. reflexivity. }
  assert (Halign : forall n i j, i < Tx -> j < Ty ->
            item (softmax_dim1
                    (div_scalar
                       (Tensor (size0 (transpose_1_2 (tanh K1)))
                               (size1 (transpose_1_2 (tanh K1)))
                               (size2 (tanh Q1))
                               (fun n i j =>
                                  fsum (size2 (transpose_1_2 (tanh K1)))
                                       (fun k => fmul (item (transpose_1_2 (tanh K1)) n i k)
                                                      (item (tanh Q1) n k j))))
                       (fsqrt (of_nat d_hidden)))) n i j
            = alignment (projection theta_q d_hidden Q) (projection theta_k d_hidden K)
                        d_hidden Tx d_hidden n i j).
  { intros n i j Hi Hj. unfold alignment, largest_score.
    cbn [softmax_dim1 div_scalar pointwise transpose_1_2 item size0 size1 size2].
    change (size2 (tanh K1)) with (size2 K1).
    change (size1 (tanh K1)) with (size1 K1).
    rewrite K12, HK2.
    assert (Hmax : fmaximum Tx
                     (fun i' => fdiv (fsum (size1 K1)
                                        (fun k => fmul (item (tanh K1) n k i')
                                                       (item (tanh Q1) n k j)))
                                     (fsqrt (of_nat d_hidden)))
                   = fmaximum Tx
                       (fun i' => score (projection theta_q d_hidden Q)
                                        (projection theta_k d_hidden K)
                                        d_hidden d_hidden n i' j)).
    { apply fmaximum_ext. intros i' Hi'. apply Hscore; assumption. }
    rewrite Hmax. f_equal.
    - f_equal. f_equal. apply Hscore; assumption.
    - apply fsum_ext. intros i' Hi'. f_equal. f_equal. apply Hscore; assumption. }
  split; [apply shape_eq; cbn; repeat split; congruence |].
  split; [apply shape_eq; cbn; repeat split; congruence |].
  split.
  - intros n i j _ Hi Hj. apply Halign; assumption.
  - intros n c j _ Hc Hj. unfold attended. cbn [item].
    change (size2 (tanh V1)) with (size2 V1). rewrite V12, HV2.
    apply fsum_ext. intros i Hi.
    rewrite Vi by lia. f_equal. apply Halign; assumption.
Qed.

(** C6: the shapes of [DotProductAttention.forward]: for [Q] of shape
    [(N, C, Ty)] and [K], [V] of shape [(N, C, Tx)] with [C = d_hidden], none
    of them empty, it returns [R] of shape [(N, C, Ty)] and [A] of shape
    [(N, Tx, Ty)]. *)
Theorem DotProductAttention_forward_shapes
    (d_hidden : nat) (theta_q theta_k theta_v : parameters F)
    (Q K V : tensor F) (N C Tx Ty : nat) :
  C = d_hidden ->
  0 < N -> 0 < C -> 0 < Tx -> 0 < Ty ->
  shape Q = (N, C, Ty) ->
  shape K = (N, C, Tx) ->
  shape V = (N, C, Tx) ->
  exists R A,
    DotProductAttention.forward
      (DotProductAttention.__init__ d_hidden theta_q theta_k theta_v) Q K V = inr (R, A) /\
    shape R = (N, C, Ty) /\
    shape A = (N, Tx, Ty).
Proof.
  intros -> _ Hd HTx HTy HQ HK HV.
  destruct (attention_forward_run d_hidden theta_q theta_k theta_v Q K V N Tx Ty
              HQ HK HV Hd HTx HTy) as (R & A & Hrun & HR & HA & _).
  exists R, A. auto.
Qed.

End AttentionProofs.

(** An instance of C6. *)
Lemma DotProductAttention_forward_shapes_witness :
  (0 < 1 /\ 0 < 2 /\ 0 < 2 /\ 0 < 3) /\
  exists R A,
    DotProductAttention.forward
      (DotProductAttention.__init__ 2 (Symbolic.theta_plain "q")
         (Symbolic.theta_plain "k") (Symbolic.theta_plain "v"))
      Symbolic.Q0 Symbolic.K0 Symbolic.V0 = inr (R, A) /\
    shape R = (1, 2, 3) /\
    shape A = (1, 2, 3).
Proof.
  assert (H1 : 0 < 1) by lia.
  assert (H2 : 0 < 2) by lia.
  assert (H3 : 0 < 3) by lia.
  split; [repeat split; assumption |].
  exact (DotProductAttention_forward_shapes 2
           (Symbolic.theta_plain "q") (Symbolic.theta_plain "k")
           (Symbolic.theta_plain "v") Symbolic.Q0 Symbolic.K0 Symbolic.V0 1 2 2 3
           eq_refl H1 H2 H2 H3 eq_refl eq_refl eq_refl).
Defined.

(** ** PostNet *)

Section PostNetProofs.

Context {F : Type} {SF : Scalar F}.
Context {residual_parameters : Type}.
Variable RB : nat -> nat -> nat -> residual_parameters -> tensor F -> result (tensor F).

Lemma Upsample_inr (scale_factor : nat) (x : tensor F) :
  0 < scale_factor -> 0 < size2 x ->
  Upsample scale_factor x = inr (nearest scale_factor x).
Proof.
  intros Hs HT. unfold Upsample.
  destruct (Nat.eqb_spec (size2 x) 0) as [E | _]; [lia |].
  destruct (Nat.eqb_spec (size2 x * scale_factor) 0) as [E | _]; [| reflexivity].
  apply Nat.eq_mul_0 in E. lia.
Qed.

Lemma Upsample_inl (scale_factor : nat) (x : tensor F) :
  size2 x = 0 ->
  Upsample scale_factor x
  = inl (RuntimeError "Upsample: input and output sizes should be greater than 0").
Proof.
  intros HT. unfold Upsample. rewrite HT. reflexivity.
Qed.

Lemma Sequential_cons (m : PostNet.net residual_parameters)
    (ms : list (PostNet.net residual_parameters)) (x : tensor F) :
  PostNet.Sequential RB (m :: ms) x
  = (y <- PostNet.call_net RB m x ;; PostNet.Sequential RB ms y).
Proof.
  unfold PostNet.Sequential. cbn [fold_left bind ret Monad_either].
  destruct (PostNet.call_net RB m x) as [e | y]; [| reflexivity].
  induction ms as [| m' ms IH]; [reflexivity | exact IH].
Qed.

Lemma Sequential_app (ms ms' : list (PostNet.net residual_parameters)) (x : tensor F) :
  PostNet.Sequential RB (ms ++ ms') x
  = (y <- PostNet.Sequential RB ms x ;; PostNet.Sequential RB ms' y).
Proof.
  revert x. induction ms as [| m ms IH]; intros x.
  - reflexivity.
  - cbn [app]. rewrite !Sequential_cons.
    destruct (PostNet.call_net RB m x) as [e | y]; [reflexivity |].
    cbn [bind Monad_either]. apply IH.
Qed.

(** C4: [PostNet.forward] upsamples: an input of shape [(N, d_in, T)], not
    empty, is doubled in length by the first nearest-neighbour [Upsample],
    keeps that length through the first residual block, is doubled again by
    the second [Upsample] and keeps the length [4 * T] through the last two
    residual blocks and the sigmoid.  The residual blocks are those of the
    source, built with [ksize = 5] and positive widths; they are taken to
    return, for an input that is not empty and has the channels they were
    built for, their output channels at the length of the input. *)
Theorem PostNet_forward_length
    (d_in d_out d_hidden : nat) (theta : nat -> residual_parameters)
    (x : tensor F) (N T : nat) :
  (forall i o p z, size1 z = i -> 0 < i -> 0 < o -> 0 < size0 z -> 0 < size2 z ->
     exists y, RB i o 5 p z = inr y /\ shape y = (size0 z, o, size2 z)) ->
  shape x = (N, d_in, T) ->
  0 < N -> 0 < d_in -> 0 < d_hidden -> 0 < d_out -> 0 < T ->
  exists y1 y2 y3,
    Upsample 2 x = inr (nearest 2 x) /\
    RB d_in d_hidden 5 (theta 1) (nearest 2 x) = inr y1 /\
    Upsample 2 y1 = inr (nearest 2 y1) /\
    RB d_hidden d_hidden 5 (theta 3) (nearest 2 y1) = inr y2 /\
    RB d_hidden d_out 5 (theta 4) y2 = inr y3 /\
    PostNet.forward RB (PostNet.__init__ d_in d_out d_hidden theta) x = inr (sigmoid y3) /\
    size2 (nearest 2 x) = 2 * T /\
    size2 y1 = 2 * T /\
    size2 (nearest 2 y1) = 4 * T /\
    size2 y2 = 4 * T /\
    shape (sigmoid y3) = (N, d_out, 4 * T).
Proof.
  intros HRB Hx HN Hi Hh Ho HT. apply shape_eq in Hx. destruct Hx as (H0 & H1 & H2).
  assert (U1 : Upsample 2 x = inr (nearest 2 x)) by (apply Upsample_inr; lia).
  destruct (HRB d_in d_hidden (theta 1) (nearest 2 x) H1 Hi Hh)
    as (y1 & E1 & S1); [cbn [nearest size0]; lia | cbn [nearest size2]; lia |].
  apply shape_eq in S1. destruct S1 as (S10 & S11 & S12).
  cbn [nearest size0 size1 size2] in S10, S12.
  assert (U2 : Upsample 2 y1 = inr (nearest 2 y1)) by (apply Upsample_inr; lia).
  destruct (HRB d_hidden d_hidden (theta 3) (nearest 2 y1) S11 Hh Hh)
    as (y2 & E2 & S2); [cbn [nearest size0]; lia | cbn [nearest size2]; lia |].
  apply shape_eq in S2. destruct S2 as (S20 & S21 & S22).
  cbn [nearest size0 size1 size2] in S20, S22.
  destruct (HRB d_hidden d_out (theta 4) y2 S21 Hh Ho)
    as (y3 & E3 & S3); [lia | lia |].
  apply shape_eq in S3. destruct S3 as (S30 & S31 & S32).
  exists y1, y2, y3.
  split; [exact U1 |]. split; [exact E1 |]. split; [exact U2 |].
  split; [exact E2 |]. split; [exact E3 |].
  split.
  { unfold PostNet.forward. cbn [PostNet.__init__ PostNet.nets].
    rewrite Sequential_cons. cbn [PostNet.call_net].
    rewrite U1. cbn [bind Monad_either].
    rewrite Sequential_cons. cbn [PostNet.call_net].
    rewrite E1. cbn [bind Monad_either].
    rewrite Sequential_cons. cbn [PostNet.call_net].
    rewrite U2. cbn [bind Monad_either].
    rewrite Sequential_cons. cbn [PostNet.call_net].
    rewrite E2. cbn [bind Monad_either].
    rewrite Sequential_cons. cbn [PostNet.call_net].
    rewrite E3. reflexivity. }
  cbn [nearest size2].
  repeat (split; [lia |]).
  apply shape_eq. cbn [sigmoid pointwise size0 size1 size2].
  repeat split; lia.
Qed.

End PostNetProofs.

(** The residual block of the instances keeps the length, for positive
    widths and an input that has a time step. *)
Lemma residual_block_shape (i o : nat)
    (p : parameters Symbolic.term * parameters Symbolic.term)
    (z : tensor Symbolic.term) :
  size1 z = i -> 0 < i -> 0 < o -> 0 < size0 z -> 0 < size2 z ->
  exists y, Symbolic.residual_block i o 5 p z = inr y /\
            shape y = (size0 z, o, size2 z).
Proof.
  intros Hz Hi Ho _ HT. unfold Symbolic.residual_block.
  destruct (conv_same_shape z o i 5 (weight (fst p)) (bias (fst p)) 1 Hz Ho Hi HT eq_refl)
    as (y & -> & Y0 & Y1 & Y2).
  cbn [bind Monad_either].
  destruct (conv_same_shape z o i 1 (weight (snd p)) (bias (snd p)) 1 Hz Ho Hi HT eq_refl)
    as (s & -> & S0 & S1 & S2).
  cbn [bind Monad_either].
  destruct (binary_shape fadd (relu y) s) as (r & -> & R0 & R1 & R2);
    cbn [relu pointwise size0 size1 size2]; try congruence.
  exists r. split; [reflexivity |].
  apply shape_eq. cbn [relu pointwise size0 size1 size2] in R0, R1, R2.
  repeat split; congruence.
Defined.

(** An instance of C4: three steps in, twelve out. *)
Lemma PostNet_forward_length_witness :
  let x := Symbolic.unknown "x" 1 2 3 in
  (shape x = (1, 2, 3) /\ 0 < 1 /\ 0 < 2 /\ 0 < 4 /\ 0 < 3 /\ 0 < 3) /\
  exists y1 y2 y3,
    Upsample 2 x = inr (nearest 2 x) /\
    Symbolic.residual_block 2 4 5 (Symbolic.theta_residual 1) (nearest 2 x) = inr y1 /\
    Upsample 2 y1 = inr (nearest 2 y1) /\
    Symbolic.residual_block 4 4 5 (Symbolic.theta_residual 3) (nearest 2 y1) = inr y2 /\
    Symbolic.residual_block 4 3 5 (Symbolic.theta_residual 4) y2 = inr y3 /\
    PostNet.forward Symbolic.residual_block
      (PostNet.__init__ 2 3 4 Symbolic.theta_residual) x = inr (sigmoid y3) /\
    size2 (nearest 2 x) = 2 * 3 /\
    size2 y1 = 2 * 3 /\
    size2 (nearest 2 y1) = 4 * 3 /\
    size2 y2 = 4 * 3 /\
    shape (sigmoid y3) = (1, 3, 4 * 3).
Proof.
  assert (H1 : 0 < 1) by lia.
  assert (H2 : 0 < 2) by lia.
  assert (H3 : 0 < 3) by lia.
  assert (H4 : 0 < 4) by lia.
  split; [repeat split; assumption |].
  exact (PostNet_forward_length Symbolic.residual_block 2 3 4 Symbolic.theta_residual
           (Symbolic.unknown "x" 1 2 3) 1 3 residual_block_shape eq_refl
           H1 H2 H4 H3 H3).
Defined.

(** ** Failures *)

Section FailureProofs.

Context {F : Type} {SF : Scalar F}.

Lemma run_blocks_inl (ms : list (module F)) (x : tensor F) (e : exn) :
  run_blocks ms x = inl e -> raised_by_block ms x e.
Proof.
  revert x. induction ms as [| m ms IH]; intros x H; simpl in H.
  - discriminate.
  - destruct (call m x) as [e' | y] eqn:Hm; simpl in H.
    + exists 0, m, x. split; [reflexivity | split; [reflexivity | congruence]].
    + destruct (IH y H) as (i & m' & y' & Hn & Hr & Hc).
      exists (S i), m', y'. split; [exact Hn | split; [| exact Hc]].
      cbn [firstn run_blocks]. rewrite Hm. exact Hr.
Qed.

(** The exception a block raises ends the loop: no later block runs, and
    nothing handles it. *)
Lemma run_blocks_raised (ms : list (module F)) (x : tensor F) (e : exn) :
  raised_by_block ms x e -> run_blocks ms x = inl e.
Proof.
  intros (i & m & y & Hn & Hr & Hc). revert ms x Hn Hr.
  induction i as [| i IH]; intros ms x Hn Hr; destruct ms as [| m0 ms];
    try discriminate; cbn [nth_error firstn run_blocks] in Hn, Hr |- *.
  - inversion Hn. inversion Hr. subst. rewrite Hc. reflexivity.
  - destruct (call m0 x) as [e' | z]; cbn [bind Monad_either] in Hr |- *;
      [discriminate |].
    apply IH; assumption.
Qed.

(** When all the blocks returned, none of them raised. *)
Lemma run_blocks_inr_not_raised (ms : list (module F)) (x y : tensor F) (e : exn) :
  run_blocks ms x = inr y -> raised_by_block ms x e -> False.
Proof.
  intros H He. apply run_blocks_raised in He. congruence.
Qed.

Lemma broadcast_size_inl (a b : nat) (e : exn) :
  broadcast_size a b = inl e ->
  e = RuntimeError "the sizes of the tensors do not match".
Proof.
  unfold broadcast_size.
  destruct (a =? b); [discriminate |].
  destruct (a =? 1); [discriminate |].
  destruct (b =? 1); [discriminate |].
  intros H. inversion H. reflexivity.
Qed.

Lemma binary_inl (f : F -> F -> F) (a b : tensor F) (e : exn) :
  binary f a b = inl e -> exists msg, e = RuntimeError msg.
Proof.
  unfold binary. intros H.
  destruct (broadcast_size (size0 a) (size0 b)) as [e0 | s0] eqn:H0; simpl in H.
  { inversion H; subst. eexists. eapply broadcast_size_inl, H0. }
  destruct (broadcast_size (size1 a) (size1 b)) as [e1 | s1] eqn:H1; simpl in H.
  { inversion H; subst. eexists. eapply broadcast_size_inl, H1. }
  destruct (broadcast_size (size2 a) (size2 b)) as [e2 | s2] eqn:H2; simpl in H.
  { inversion H; subst. eexists. eapply broadcast_size_inl, H2. }
  discriminate.
Qed.

Lemma conv1d_raises (x : tensor F) (o i k : nat) (w : nat -> nat -> nat -> F)
    (b : nat -> F) (p d : nat) (e : exn) :
  conv1d x o i k w b p d = inl e -> exists msg, e = RuntimeError msg.
Proof.
  intros H.
  destruct (conv1d_cases x o i k w b p d)
    as [(_ & E) | [(_ & _ & E) | [(_ & _ & _ & _ & _ & E) |
        [(_ & _ & _ & _ & _ & _ & E) | (_ & _ & _ & _ & _ & _ & E)]]]];
    rewrite E in H; inversion H; eauto.
Qed.

Lemma conv_causal_raises (x : tensor F) (o i k : nat) (w : nat -> nat -> nat -> F)
    (b : nat -> F) (d : nat) (e : exn) :
  conv_causal x o i k w b d = inl e -> exists msg, e = RuntimeError msg.
Proof.
  unfold conv_causal. intros H. apply bind_inl in H.
  destruct H as [H | (y & _ & H)]; [eapply conv1d_raises, H | discriminate].
Qed.

Lemma highway_raises (H x : tensor F) (o : nat) (e : exn) :
  highway H x o = inl e -> exists msg, e = RuntimeError msg.
Proof.
  unfold highway. intros He.
  apply bind_inl in He. destruct He as [He | (a & _ & He)].
  { eapply binary_inl, He. }
  apply bind_inl in He. destruct He as [He | (b & _ & He)].
  { eapply binary_inl, He. }
  eapply binary_inl, He.
Qed.

(** A layer fails with the framework's error for refused shapes only. *)
Lemma call_raises (m : module F) (x : tensor F) (e : exn) :
  call m x = inl e -> exists msg, e = RuntimeError msg.
Proof.
  assert (Hl : forall l w b, layer_forward l w b x = inl e ->
                             exists msg, e = RuntimeError msg).
  { intros l w b H.
    destruct l as [i o k d act | i o k d | i o k d act | i o k d | i o k];
      cbn [layer_forward] in H.
    - apply bind_inl in H. destruct H as [H | (y & _ & H)]; [| discriminate].
      eapply conv1d_raises, H.
    - apply bind_inl in H. destruct H as [H | (y & _ & H)].
      + eapply conv1d_raises, H.
      + eapply highway_raises, H.
    - apply bind_inl in H. destruct H as [H | (y & _ & H)]; [| discriminate].
      eapply conv_causal_raises, H.
    - apply bind_inl in H. destruct H as [H | (y & _ & H)].
      + eapply conv_causal_raises, H.
      + eapply highway_raises, H.
    - eapply conv1d_raises, H. }
  destruct m as [l p | l p]; cbn [call]; apply Hl.
Qed.

Lemma bmm_raises (a b : tensor F) (e : exn) :
  bmm a b = inl e -> exists msg, e = RuntimeError msg.
Proof.
  unfold bmm. destruct ((size0 a =? size0 b) && (size2 a =? size1 b)); [discriminate |].
  intros H. inversion H. eauto.
Qed.

Lemma Upsample_raises (scale_factor : nat) (x : tensor F) (e : exn) :
  Upsample scale_factor x = inl e -> exists msg, e = RuntimeError msg.
Proof.
  unfold Upsample.
  destruct ((size2 x =? 0) || (size2 x * scale_factor =? 0)); [| discriminate].
  intros H. inversion H. eauto.
Qed.

Lemma Sequential_inl {residual_parameters : Type}
    (RB : nat -> nat -> nat -> residual_parameters -> tensor F -> result (tensor F))
    (ms : list (PostNet.net residual_parameters)) (x : tensor F) (e : exn) :
  PostNet.Sequential RB ms x = inl e -> raised_by_net RB ms x e.
Proof.
  revert x. induction ms as [| m ms IH]; intros x H.
  - discriminate.
  - rewrite Sequential_cons in H.
    destruct (PostNet.call_net RB m x) as [e' | y] eqn:Hm; simpl in H.
    + exists 0, m, x. split; [reflexivity | split; [reflexivity | congruence]].
    + destruct (IH y H) as (i & m' & y' & Hn & Hr & Hc).
      exists (S i), m', y'. split; [exact Hn | split; [| exact Hc]].
      cbn [firstn]. rewrite Sequential_cons, Hm. exact Hr.
Qed.

Lemma Sequential_raised {residual_parameters : Type}
    (RB : nat -> nat -> nat -> residual_parameters -> tensor F -> result (tensor F))
    (ms : list (PostNet.net residual_parameters)) (x : tensor F) (e : exn) :
  raised_by_net RB ms x e -> PostNet.Sequential RB ms x = inl e.
Proof.
  intros (i & m & y & Hn & Hr & Hc). revert ms x Hn Hr.
  induction i as [| i IH]; intros ms x Hn Hr; destruct ms as [| m0 ms];
    try discriminate; cbn [nth_error firstn] in Hn, Hr.
  - inversion Hn. inversion Hr. subst. rewrite Sequential_cons, Hc. reflexivity.
  - rewrite Sequential_cons in Hr |- *.
    destruct (PostNet.call_net RB m0 x) as [e' | z]; cbn [bind Monad_either] in Hr |- *;
      [discriminate |].
    apply IH; assumption.
Qed.

(** C7, as amended: a [forward] raises nothing of its own, handles nothing
    and translates nothing.  It fails with an exception exactly when a call
    of a block (a projection or a matrix product, for the attention; a module
    of the [Sequential], for [PostNet]) raised that exception on the value
    that reached it: every failure of a primitive ends [forward], unchanged,
    and every failure of [forward] is one.  The layers, [bmm] and [Upsample]
    raise the framework's [RuntimeError] only.  The one failure that is not a
    primitive's is the interpreter's [ValueError] in [TextEncoder.forward],
    when every block has returned and [chunk] gives other than the two
    pieces that [K, V] are unpacked from. *)
Theorem forward_failures :
  (forall (self : TextEncoder.t F) (L : tensor F) (e : exn),
      TextEncoder.forward self L = inl e <->
      (raised_by_block (TextEncoder.hc_blocks self) L e \/
       exists y, apply_blocks (TextEncoder.hc_blocks self) L = inr y /\
                 length (chunk 2 y) <> 2 /\
                 e = ValueError "not enough values to unpack (expected 2)")) /\
  (forall (self : AudioEncoder.t F) (S : tensor F) (e : exn),
      AudioEncoder.forward self S = inl e <->
      raised_by_block (AudioEncoder.hc_blocks self) S e) /\
  (forall (self : DotProductAttention.t F) (Q K V : tensor F) (e : exn),
      DotProductAttention.forward self Q K V = inl e <->
      raised_in_attention self Q K V e) /\
  (forall (self : AudioDecoder.t F) (R_ : tensor F) (e : exn),
      AudioDecoder.forward self R_ = inl e <->
      raised_by_block (AudioDecoder.hc_blocks self) R_ e) /\
  (forall (residual_parameters : Type)
          (RB : nat -> nat -> nat -> residual_parameters -> tensor F -> result (tensor F))
          (self : PostNet.t residual_parameters) (x : tensor F) (e : exn),
      PostNet.forward RB self x = inl e <->
      raised_by_net RB (PostNet.nets self) x e) /\
  (forall (m : module F) (x : tensor F) (e : exn),
      call m x = inl e -> exists msg, e = RuntimeError msg) /\
  (forall (a b : tensor F) (e : exn),
      bmm a b = inl e -> exists msg, e = RuntimeError msg) /\
  (forall (scale_factor : nat) (x : tensor F) (e : exn),
      Upsample scale_factor x = inl e -> exists msg, e = RuntimeError msg).
Proof.
  split; [| split; [| split; [| split; [| split; [| split; [| split]]]]]].
  - intros self L e. unfold TextEncoder.forward. rewrite apply_blocks_run_blocks.
    split.
    + intros H. apply bind_inl in H. destruct H as [H | (y & Hy & H)].
      * left. apply run_blocks_inl, H.
      * right. exists y. split; [exact Hy |].
        destruct (chunk 2 y) as [| K [| V [| W ws]]]; simpl in H |- *;
          try discriminate; split; try lia; congruence.
    + intros [H | (y & Hy & Hlen & ->)].
      * rewrite (run_blocks_raised _ _ _ H). reflexivity.
      * rewrite Hy. cbn [bind Monad_either].
        destruct (chunk 2 y) as [| K [| V [| W ws]]]; cbn [length] in Hlen |- *;
          try reflexivity. exfalso. apply Hlen. reflexivity.
  - intros self S e. unfold AudioEncoder.forward. rewrite apply_blocks_run_blocks.
    split; [apply run_blocks_inl | apply run_blocks_raised].
  - intros self Q K V e. unfold DotProductAttention.forward, raised_in_attention.
    split.
    + intros H.
      apply bind_inl in H. destruct H as [H | (Q1 & HQ & H)]; [left; exact H |].
      right. exists Q1. split; [exact HQ |].
      apply bind_inl in H. destruct H as [H | (K1 & HK & H)]; [left; exact H |].
      right. exists K1. split; [exact HK |].
      apply bind_inl in H. destruct H as [H | (V1 & HV & H)]; [left; exact H |].
      right. exists V1. split; [exact HV |].
      apply bind_inl in H. destruct H as [H | (KQ & HKQ & H)]; [left; exact H |].
      right. exists KQ. split; [exact HKQ |].
      apply bind_inl in H. destruct H as [H | (R & _ & H)]; [exact H | discriminate].
    + intros [H | (Q1 & HQ & H)]; [rewrite H; reflexivity |].
      rewrite HQ. cbn [bind Monad_either].
      destruct H as [H | (K1 & HK & H)]; [rewrite H; reflexivity |].
      rewrite HK. cbn [bind Monad_either].
      destruct H as [H | (V1 & HV & H)]; [rewrite H; reflexivity |].
      rewrite HV. cbn [bind Monad_either].
      destruct H as [H | (KQ & HKQ & H)]; [rewrite H; reflexivity |].
      rewrite HKQ. cbn [bind Monad_either]. rewrite H. reflexivity.
  - intros self R_ e. unfold AudioDecoder.forward. rewrite apply_blocks_run_blocks.
    split.
    + intros H. apply bind_inl in H. destruct H as [H | (y & _ & H)]; [| discriminate].
      apply run_blocks_inl, H.
    + intros H. rewrite (run_blocks_raised _ _ _ H). reflexivity.
  - intros rp RB self x e. unfold PostNet.forward. split.
    + intros H. apply bind_inl in H. destruct H as [H | (y & _ & H)]; [| discriminate].
      apply Sequential_inl, H.
    + intros H. rewrite (Sequential_raised _ _ _ _ H). reflexivity.
  - apply call_raises.
  - apply bmm_raises.
  - apply Upsample_raises.
Qed.

End FailureProofs.

(** An instance of C7: a spectrogram of five channels given to an encoder
    built for two; the first block's convolution raises, and [forward] ends
    with that exception. *)
Lemma forward_failures_witness :
  raised_by_block (AudioEncoder.hc_blocks (AudioEncoder.__init__ 2 3 3 Symbolic.theta))
                  Symbolic.S5
                  (RuntimeError "conv1d: the input has the wrong number of channels") /\
  AudioEncoder.forward (AudioEncoder.__init__ 2 3 3 Symbolic.theta) Symbolic.S5
  = inl (RuntimeError "conv1d: the input has the wrong number of channels").
Proof.
  assert (H : raised_by_block
                (AudioEncoder.hc_blocks (AudioEncoder.__init__ 2 3 3 Symbolic.theta))
                Symbolic.S5
                (RuntimeError "conv1d: the input has the wrong number of channels")).
  { exists 0, (norm (CausalConv1d 2 3 1 1 (Some frelu)) (Symbolic.theta 0)), Symbolic.S5.
    split; [reflexivity |]. split; reflexivity. }
  split; [exact H |].
  exact (proj2 (proj1 (proj2 forward_failures) _ _ _) H).
Defined.

(** C7, as first stated, fails: a text encoder with one hidden channel runs
    all its blocks, none of which raises, and [forward] still fails, with the
    [ValueError] of unpacking the single piece [chunk] returns. *)
Lemma forward_failure_without_a_failing_primitive :
  let self := TextEncoder.__init__ 1 1 1 Symbolic.theta in
  TextEncoder.forward self Symbolic.L1
  = inl (ValueError "not enough values to unpack (expected 2)") /\
  (exists y, apply_blocks (TextEncoder.hc_blocks self) Symbolic.L1 = inr y /\
             chunk 2 y = [narrow_1 y 0 1]) /\
  (forall e, raised_by_block (TextEncoder.hc_blocks self) Symbolic.L1 e -> False).
Proof.
  cbv zeta.
  destruct (TextEncoder_blocks_shape 1 1 1 Symbolic.theta Symbolic.L1 eq_refl
              ltac:(lia) ltac:(lia) ltac:(cbn; lia))
    as (y & Hy & H0 & H1 & H2).
  pose proof (chunk_2_single y H1) as Hc.
  split.
  { unfold TextEncoder.forward. rewrite Hy. cbn [bind Monad_either].
    rewrite Hc. reflexivity. }
  split.
  { exists y. split; [exact Hy | exact Hc]. }
  intros e He. rewrite apply_blocks_run_blocks in Hy.
  exact (run_blocks_inr_not_raised _ _ _ _ Hy He).
Qed.

(** ** Causality *)

Section CausalityProofs.

Context {F : Type} {SF : Scalar F}.

Lemma broadcast_index_lt (size i : nat) : i < size -> broadcast_index size i = i.
Proof.
  unfold broadcast_index. intros H.
  destruct (Nat.eqb_spec size 1); [lia | reflexivity].
Qed.

(** Broadcasting reads inside both operands. *)
Lemma broadcast_size_index (a b s i : nat) :
  broadcast_size a b = inr s -> i < s ->
  broadcast_index a i < a /\ broadcast_index b i < b.
Proof.
  unfold broadcast_size, broadcast_index.
  destruct (Nat.eqb_spec a b) as [-> | Hab].
  - intros H Hi. inversion H; subst. destruct (Nat.eqb_spec s 1); lia.
  - destruct (Nat.eqb_spec a 1) as [-> | Ha].
    + intros H Hi. inversion H; subst. destruct (Nat.eqb_spec s 1); lia.
    + destruct (Nat.eqb_spec b 1) as [-> | Hb]; [| discriminate].
      intros H Hi. inversion H; subst. lia.
Qed.

Lemma agree_len_pointwise (f : F -> F) (t T T' : nat) (x x' : tensor F) :
  agree_len t T T' x x' -> agree_len t T T' (pointwise f x) (pointwise f x').
Proof.
  intros ((H0 & H1 & Hi) & HT & HT').
  repeat split; cbn [pointwise size0 size1 size2 item]; try assumption.
  intros n c s Hn Hc Hs HsT HsT'. f_equal. apply Hi; assumption.
Qed.

Lemma agree_len_activate (act : option (F -> F)) (t T T' : nat) (x x' : tensor F) :
  agree_len t T T' x x' -> agree_len t T T' (activate act x) (activate act x').
Proof.
  destruct act; cbn [activate]; [apply agree_len_pointwise | auto].
Qed.

Lemma agree_len_narrow (t T T' : nat) (H H' : tensor F) (start length : nat) :
  agree_len t T T' H H' -> start + length <= size1 H ->
  agree_len t T T' (narrow_1 H start length) (narrow_1 H' start length).
Proof.
  intros ((H0 & H1 & Hi) & HT & HT') Hle.
  repeat split; cbn [narrow_1 size0 size1 size2 item]; try assumption.
  intros n c s Hn Hc Hs HsT HsT'. apply Hi; try assumption. lia.
Qed.

(** An elementwise operation on operands of one length. *)
Lemma agree_len_binary (f : F -> F -> F) (t T T' : nat) (a a' b b' : tensor F) :
  agree_len t T T' a a' -> agree_len t T T' b b' ->
  result_rel (agree_len t T T') (binary f a b) (binary f a' b').
Proof.
  intros ((Ha0 & Ha1 & Hai) & HaT & HaT') ((Hb0 & Hb1 & Hbi) & HbT & HbT').
  unfold binary. rewrite <- Ha0, <- Ha1, <- Hb0, <- Hb1, HaT, HaT', HbT, HbT'.
  rewrite !broadcast_size_refl.
  destruct (broadcast_size (size0 a) (size0 b)) as [e0 | s0] eqn:E0;
    cbn [bind ret Monad_either result_rel]; [reflexivity |].
  destruct (broadcast_size (size1 a) (size1 b)) as [e1 | s1] eqn:E1;
    cbn [bind ret Monad_either result_rel]; [reflexivity |].
  repeat split; cbn [size0 size1 size2 item]; try reflexivity.
  intros n c s Hn Hc Hs HsT HsT'.
  destruct (broadcast_size_index _ _ _ n E0 Hn) as [Hna Hnb].
  destruct (broadcast_size_index _ _ _ c E1 Hc) as [Hca Hcb].
  rewrite (broadcast_index_lt T s HsT), (broadcast_index_lt T' s HsT').
  f_equal; [apply Hai | apply Hbi]; solve [assumption | lia].
Qed.

(** A causal convolution reads no step after the one it writes.  The two
    inputs may differ in length, as long as both have a time step. *)
Lemma agree_len_conv_causal (t T T' : nat) (x x' : tensor F) (o i k : nat)
    (w : nat -> nat -> nat -> F) (b : nat -> F) (d : nat) :
  0 < T -> 0 < T' ->
  agree_len t T T' x x' ->
  result_rel (agree_len t T T') (conv_causal x o i k w b d) (conv_causal x' o i k w b d).
Proof.
  intros HT0 HT0' ((H0 & H1 & Hi) & HT & HT').
  unfold conv_causal.
  assert (Halike : result_rel
                     (fun y y' => y = convolved x o i k w b ((k - 1) * d) d /\
                                  y' = convolved x' o i k w b ((k - 1) * d) d)
                     (conv1d x o i k w b ((k - 1) * d) d)
                     (conv1d x' o i k w b ((k - 1) * d) d)).
  { apply conv1d_alike; [exact H1 | lia |].
    pose proof (causal_fits k d (size2 x) ltac:(lia)) as A.
    pose proof (causal_fits k d (size2 x') ltac:(lia)) as A'.
    revert A A'. generalize (d * (k - 1)) ((k - 1) * d). intros u v A A'. lia. }
  destruct (conv1d x o i k w b ((k - 1) * d) d) as [e | y] eqn:Ey,
           (conv1d x' o i k w b ((k - 1) * d) d) as [e' | y'];
    cbn [result_rel bind ret Monad_either] in Halike |- *; try contradiction;
    [exact Halike |].
  destruct Halike as [-> ->].
  apply conv1d_inr_inv in Ey. destruct Ey as (Hx & _).
  assert (Hp : forall U, Nat.min U (U + 2 * ((k - 1) * d) - d * (k - 1)) = U).
  { intros U. apply Nat.min_l.
    replace (d * (k - 1)) with ((k - 1) * d) by lia. lia. }
  repeat split; cbn [keep_time convolved size0 size1 size2 item]; try assumption;
    try (rewrite HT, Hp; reflexivity); try (rewrite HT', Hp; reflexivity).
  rewrite HT, HT', !Hp.
  intros n c s Hn Hc Hs HsT HsT'.
  f_equal. apply fsum_ext. intros c' Hc'. apply fsum_ext. intros j Hj. f_equal.
  unfold padded.
  destruct (Nat.leb_spec ((k - 1) * d) (s + j * d)) as [Hle | Hgt];
    cbn [andb]; [| reflexivity].
  assert (Hjd : j * d <= (k - 1) * d) by (apply Nat.mul_le_mono_r; lia).
  assert (Hidx : s + j * d - (k - 1) * d <= s) by lia.
  rewrite HT, HT'.
  destruct (Nat.ltb_spec (s + j * d - (k - 1) * d) T); [| lia].
  destruct (Nat.ltb_spec (s + j * d - (k - 1) * d) T'); [| lia].
  apply Hi; lia.
Qed.

Lemma agree_len_highway (t T T' : nat) (H H' x x' : tensor F) (o : nat) :
  agree_len t T T' H H' -> agree_len t T T' x x' -> size1 H = 2 * o ->
  result_rel (agree_len t T T') (highway H x o) (highway H' x' o).
Proof.
  intros HH Hx Ho. unfold highway.
  assert (H1 : agree_len t T T' (sigmoid (narrow_1 H 0 o)) (sigmoid (narrow_1 H' 0 o))).
  { apply agree_len_pointwise, agree_len_narrow; [exact HH | lia]. }
  assert (H2 : agree_len t T T' (narrow_1 H o o) (narrow_1 H' o o)).
  { apply agree_len_narrow; [exact HH | lia]. }
  eapply result_rel_bind; [apply agree_len_binary; eassumption |].
  intros a a' Ha.
  eapply result_rel_bind.
  { apply agree_len_binary; [apply agree_len_pointwise, H1 | exact Hx]. }
  intros b b' Hb. apply agree_len_binary; assumption.
Qed.

(** A causal layer is causal, whatever its weights. *)
Lemma agree_len_layer (l : layer F) (w : nat -> nat -> nat -> F) (b : nat -> F)
    (t T T' : nat) (x x' : tensor F) :
  is_causal l = true -> 0 < T -> 0 < T' -> agree_len t T T' x x' ->
  result_rel (agree_len t T T') (layer_forward l w b x) (layer_forward l w b x').
Proof.
  intros Hl HT HT' Hx.
  destruct l as [i o k d act | i o k d | i o k d act | i o k d | i o k];
    try discriminate; cbn [layer_forward].
  - eapply result_rel_bind; [apply (agree_len_conv_causal t T T'); assumption |].
    intros y y' Hy. cbn [ret Monad_either result_rel].
    apply agree_len_activate, Hy.
  - pose proof (agree_len_conv_causal t T T' x x' (2 * o) i k w b d HT HT' Hx) as Hc.
    destruct (conv_causal x (2 * o) i k w b d) as [e | y] eqn:Ey,
             (conv_causal x' (2 * o) i k w b d) as [e' | y'] eqn:Ey';
      cbn [result_rel bind Monad_either] in Hc |- *; try contradiction; [exact Hc |].
    apply agree_len_highway; [exact Hc | exact Hx |].
    eapply conv_causal_channels, Ey.
Qed.

Lemma agree_len_run_blocks (ms : list (module F)) (t T T' : nat) (x x' : tensor F) :
  forallb (fun m => is_causal (module_layer m)) ms = true ->
  0 < T -> 0 < T' ->
  agree_len t T T' x x' ->
  result_rel (agree_len t T T') (run_blocks ms x) (run_blocks ms x').
Proof.
  intros Hms HT HT'. revert x x' Hms.
  induction ms as [| m ms IH]; intros x x' Hms Hx; cbn [run_blocks].
  - exact Hx.
  - cbn [forallb] in Hms. apply andb_prop in Hms. destruct Hms as [Hm Hms].
    apply (result_rel_bind (agree_len t T T') (agree_len t T T')).
    + destruct m as [l p | l p]; cbn [call module_layer] in Hm |- *;
        apply agree_len_layer; assumption.
    + intros y y' Hy. apply IH; assumption.
Qed.

Lemma agree_agree_len (t : nat) (x x' : tensor F) :
  agree t x x' -> agree_len t (size2 x) (size2 x') x x'.
Proof. intros H. repeat split; apply H. Qed.

Lemma result_rel_agree (t T T' : nat) (r r' : result (tensor F)) :
  result_rel (agree_len t T T') r r' -> result_rel (agree t) r r'.
Proof. apply result_rel_impl. intros a a' H. apply H. Qed.

(** C3: [AudioEncoder.forward] and [AudioDecoder.forward] are causal.  Two
    inputs that agree at all steps up to and including [t] make either network
    end alike, with outputs that agree at all steps up to and including [t]:
    the output at a step depends on no later input.  Both inputs have a time
    step; beyond that no step after [t] is constrained, not even how many
    there are. *)
Theorem audio_networks_causal
    (d_in d_out d_hidden : nat) (theta : nat -> norm_parameters F)
    (d_in' d_out' d_hidden' : nat) (theta' : nat -> norm_parameters F)
    (t : nat) (S S' R_ R_' : tensor F) :
  agree t S S' -> 0 < size2 S -> 0 < size2 S' ->
  agree t R_ R_' -> 0 < size2 R_ -> 0 < size2 R_' ->
  result_rel (agree t)
    (AudioEncoder.forward (AudioEncoder.__init__ d_in d_out d_hidden theta) S)
    (AudioEncoder.forward (AudioEncoder.__init__ d_in d_out d_hidden theta) S') /\
  result_rel (agree t)
    (AudioDecoder.forward (AudioDecoder.__init__ d_in' d_out' d_hidden' theta') R_)
    (AudioDecoder.forward (AudioDecoder.__init__ d_in' d_out' d_hidden' theta') R_').
Proof.
  intros HS HS0 HS0' HR HR0 HR0'. split.
  - unfold AudioEncoder.forward. rewrite !apply_blocks_run_blocks.
    apply (result_rel_agree t (size2 S) (size2 S')).
    apply agree_len_run_blocks; [reflexivity | assumption | assumption |].
    apply agree_agree_len, HS.
  - unfold AudioDecoder.forward. rewrite !apply_blocks_run_blocks.
    apply (result_rel_agree t (size2 R_) (size2 R_')).
    apply (result_rel_bind (agree_len t (size2 R_) (size2 R_'))
                           (agree_len t (size2 R_) (size2 R_'))).
    + apply agree_len_run_blocks; [reflexivity | assumption | assumption |].
      apply agree_agree_len, HR.
    + intros Y Y' HY. cbn [ret Monad_either result_rel].
      apply agree_len_pointwise, HY.
Qed.

End CausalityProofs.

Lemma S1_S2_agree : agree 1 Symbolic.S1 Symbolic.S2.
Proof.
  split; [reflexivity |]. split; [reflexivity |].
  intros n c s _ _ Hs _ _. cbn.
  destruct (Nat.leb_spec s 1); [reflexivity | lia].
Defined.

(** An instance of C3: two spectrograms that share their first two steps. *)
Lemma audio_networks_causal_witness :
  (agree 1 Symbolic.S1 Symbolic.S2 /\ 0 < size2 Symbolic.S1 /\ 0 < size2 Symbolic.S2) /\
  result_rel (agree 1)
    (AudioEncoder.forward (AudioEncoder.__init__ 2 3 3 Symbolic.theta) Symbolic.S1)
    (AudioEncoder.forward (AudioEncoder.__init__ 2 3 3 Symbolic.theta) Symbolic.S2) /\
  result_rel (agree 1)
    (AudioDecoder.forward (AudioDecoder.__init__ 2 5 3 Symbolic.theta) Symbolic.S1)
    (AudioDecoder.forward (AudioDecoder.__init__ 2 5 3 Symbolic.theta) Symbolic.S2).
Proof.
  assert (H1 : 0 < size2 Symbolic.S1) by (cbn; lia).
  assert (H2 : 0 < size2 Symbolic.S2) by (cbn; lia).
  split; [split; [exact S1_S2_agree | split; assumption] |].
  exact (audio_networks_causal 2 3 3 Symbolic.theta 2 5 3 Symbolic.theta 1
           Symbolic.S1 Symbolic.S2 Symbolic.S1 Symbolic.S2
           S1_S2_agree H1 H2 S1_S2_agree H1 H2).
Defined.

(** ** Equal tensors *)

Section EqualityProofs.

Context {F : Type} {SF : Scalar F}.

Lemma tensor_eq_sizes (x x' : tensor F) :
  tensor_eq x x' -> size0 x = size0 x' /\ size1 x = size1 x' /\ size2 x = size2 x'.
Proof.
  intros [Hs _]. unfold shape in Hs. inversion Hs. auto.
Qed.

Lemma tensor_eq_intro (x x' : tensor F) :
  size0 x = size0 x' -> size1 x = size1 x' -> size2 x = size2 x' ->
  (forall n c s, n < size0 x -> c < size1 x -> s < size2 x ->
     item x n c s = item x' n c s) ->
  tensor_eq x x'.
Proof.
  intros H0 H1 H2 Hi. split; [| exact Hi]. unfold shape. congruence.
Qed.

Lemma Forall2_map_seq {A : Type} (R : A -> A -> Prop) (f g : nat -> A) (l : list nat) :
  (forall i, In i l -> R (f i) (g i)) -> Forall2 R (map f l) (map g l).
Proof.
  induction l as [| i l IH]; intros H; cbn [map]; constructor.
  - apply H. left. reflexivity.
  - apply IH. intros j Hj. apply H. right. exact Hj.
Qed.

Lemma Forall2_repeat {A : Type} (R : A -> A -> Prop) (a b : A) (n : nat) :
  R a b -> Forall2 R (repeat a n) (repeat b n).
Proof.
  intros H. induction n; cbn [repeat]; constructor; assumption.
Qed.

End EqualityProofs.

(** ** Further properties of the networks *)

Section FurtherProofs.

Context {F : Type} {SF : Scalar F}.

(** The loop [for i in range(len(self.hc_blocks)): y = self.hc_blocks[i](y)]
    applies every block once, in the order of the list, and its indexing is
    always in range: it never ends with an [IndexError]. *)
Theorem hc_blocks_loop_in_order (ms : list (module F)) (y0 : tensor F) :
  apply_blocks ms y0
  = fold_left (fun acc m => y <- acc ;; call m y) ms (inr y0) /\
  forall e, apply_blocks ms y0 = inl e -> exists msg, e = RuntimeError msg.
Proof.
  split.
  - rewrite apply_blocks_run_blocks. revert y0.
    induction ms as [| m ms IH]; intros y0; cbn [run_blocks fold_left].
    + reflexivity.
    + cbn [bind Monad_either]. destruct (call m y0) as [e | y]; cbn [bind Monad_either].
      * clear IH. induction ms as [| m' ms IH]; [reflexivity | exact IH].
      * apply IH.
  - intros e H. rewrite apply_blocks_run_blocks in H.
    destruct (run_blocks_inl ms y0 e H) as (i & m & y & _ & _ & Hc).
    eapply call_raises, Hc.
Qed.

Lemma AudioDecoder_chain (d_in d_out d_hidden : nat) (theta : nat -> norm_parameters F) :
  0 < d_in -> 0 < d_out -> 0 < d_hidden ->
  chain (AudioDecoder.hc_blocks (AudioDecoder.__init__ d_in d_out d_hidden theta)) d_in /\
  chain_out (AudioDecoder.hc_blocks (AudioDecoder.__init__ d_in d_out d_hidden theta)) d_in
  = d_out.
Proof.
  intros Hi Ho Hh. split; [| reflexivity]. fits.
Qed.

Lemma AudioEncoder_chain (d_in d_hidden : nat) (theta : nat -> norm_parameters F) :
  0 < d_in -> 0 < d_hidden ->
  chain (AudioEncoder.hc_blocks (AudioEncoder.__init__ d_in d_hidden d_hidden theta)) d_in /\
  chain_out (AudioEncoder.hc_blocks (AudioEncoder.__init__ d_in d_hidden d_hidden theta))
            d_in
  = d_hidden.
Proof.
  intros Hi Hh. split; [| reflexivity]. fits.
Qed.

(** The blocks of the decoder succeed on an input of [d_in] channels that
    has a time step, and return [d_out] channels of the same length. *)
Lemma AudioDecoder_blocks_shape (d_in d_out d_hidden : nat)
    (theta : nat -> norm_parameters F) (R_ : tensor F) :
  size1 R_ = d_in -> 0 < d_in -> 0 < d_out -> 0 < d_hidden -> 0 < size2 R_ ->
  exists Y,
    run_blocks (AudioDecoder.hc_blocks (AudioDecoder.__init__ d_in d_out d_hidden theta)) R_
    = inr Y /\
    size0 Y = size0 R_ /\ size1 Y = d_out /\ size2 Y = size2 R_.
Proof.
  intros HR Hi Ho Hh HT.
  destruct (AudioDecoder_chain d_in d_out d_hidden theta Hi Ho Hh) as [Hc Hout].
  rewrite <- HR in Hc, Hout.
  destruct (run_blocks_shape _ R_ Hc HT) as (Y & HY & Y0 & Y1 & Y2).
  exists Y. repeat split; congruence.
Qed.

Lemma AudioEncoder_blocks_shape (d_in d_hidden : nat)
    (theta : nat -> norm_parameters F) (S : tensor F) :
  size1 S = d_in -> 0 < d_in -> 0 < d_hidden -> 0 < size2 S ->
  exists Q,
    run_blocks (AudioEncoder.hc_blocks (AudioEncoder.__init__ d_in d_hidden d_hidden theta)) S
    = inr Q /\
    size0 Q = size0 S /\ size1 Q = d_hidden /\ size2 Q = size2 S.
Proof.
  intros HS Hi Hh HT.
  destruct (AudioEncoder_chain d_in d_hidden theta Hi Hh) as [Hc Hout].
  rewrite <- HS in Hc, Hout.
  destruct (run_blocks_shape _ S Hc HT) as (Q & HQ & Q0 & Q1 & Q2).
  exists Q. repeat split; congruence.
Qed.

(** [AudioDecoder.forward] returns, for a decoder of positive widths and an
    input of shape [(N, d_in, T)] that is not empty, the elementwise sigmoid
    of the last block's output, of shape [(N, d_out, T)]. *)
Theorem AudioDecoder_forward_shape
    (d_in d_out d_hidden : nat) (theta : nat -> norm_parameters F)
    (R_ : tensor F) (N T : nat) :
  shape R_ = (N, d_in, T) ->
  0 < N -> 0 < T -> 0 < d_in -> 0 < d_out -> 0 < d_hidden ->
  let self := AudioDecoder.__init__ d_in d_out d_hidden theta in
  exists Y,
    apply_blocks (AudioDecoder.hc_blocks self) R_ = inr Y /\
    AudioDecoder.forward self R_ = inr (sigmoid Y) /\
    shape (sigmoid Y) = (N, d_out, T) /\
    forall n c t, item (sigmoid Y) n c t = fsigmoid (item Y n c t).
Proof.
  intros HR _ HT Hi Ho Hh self. subst self.
  apply shape_eq in HR. destruct HR as (H0 & H1 & H2). rewrite <- H2 in HT.
  destruct (AudioDecoder_blocks_shape d_in d_out d_hidden theta R_ H1 Hi Ho Hh HT)
    as (Y & HY & Y0 & Y1 & Y2).
  exists Y. rewrite apply_blocks_run_blocks.
  split; [exact HY |]. split.
  { unfold AudioDecoder.forward. rewrite apply_blocks_run_blocks, HY. reflexivity. }
  split; [| reflexivity].
  apply shape_eq. cbn [sigmoid pointwise size0 size1 size2].
  repeat split; congruence.
Qed.

(** [AudioEncoder.forward] returns, for an encoder built with
    [d_out = d_hidden], positive, and an input of shape [(N, d_in, T)] that is
    not empty, a query of shape [(N, d_hidden, T)]. *)
Theorem AudioEncoder_forward_shape
    (d_in d_hidden : nat) (theta : nat -> norm_parameters F)
    (S : tensor F) (N T : nat) :
  shape S = (N, d_in, T) ->
  0 < N -> 0 < T -> 0 < d_in -> 0 < d_hidden ->
  exists Q,
    AudioEncoder.forward (AudioEncoder.__init__ d_in d_hidden d_hidden theta) S = inr Q /\
    shape Q = (N, d_hidden, T).
Proof.
  intros HS _ HT Hi Hh. apply shape_eq in HS. destruct HS as (H0 & H1 & H2).
  rewrite <- H2 in HT.
  destruct (AudioEncoder_blocks_shape d_in d_hidden theta S H1 Hi Hh HT)
    as (Q & HQ & Q0 & Q1 & Q2).
  exists Q. unfold AudioEncoder.forward. rewrite apply_blocks_run_blocks.
  split; [exact HQ |].
  apply shape_eq. repeat split; congruence.
Qed.

End FurtherProofs.

(** An instance of [AudioDecoder_forward_shape]. *)
Lemma AudioDecoder_forward_shape_witness :
  (shape Symbolic.S1 = (1, 2, 4) /\ 0 < 1 /\ 0 < 4 /\ 0 < 2 /\ 0 < 5 /\ 0 < 3) /\
  exists Y,
    apply_blocks (AudioDecoder.hc_blocks (AudioDecoder.__init__ 2 5 3 Symbolic.theta))
                 Symbolic.S1 = inr Y /\
    AudioDecoder.forward (AudioDecoder.__init__ 2 5 3 Symbolic.theta) Symbolic.S1
    = inr (sigmoid Y) /\
    shape (sigmoid Y) = (1, 5, 4) /\
    forall n c t, item (sigmoid Y) n c t = fsigmoid (item Y n c t).
Proof.
  assert (H1 : 0 < 1) by lia.
  assert (H2 : 0 < 2) by lia.
  assert (H3 : 0 < 3) by lia.
  assert (H4 : 0 < 4) by lia.
  assert (H5 : 0 < 5) by lia.
  split; [repeat split; assumption |].
  exact (AudioDecoder_forward_shape 2 5 3 Symbolic.theta Symbolic.S1 1 4 eq_refl
           H1 H4 H2 H5 H3).
Defined.

(** An instance of [AudioEncoder_forward_shape]. *)
Lemma AudioEncoder_forward_shape_witness :
  (shape Symbolic.S1 = (1, 2, 4) /\ 0 < 1 /\ 0 < 4 /\ 0 < 2 /\ 0 < 3) /\
  exists Q,
    AudioEncoder.forward (AudioEncoder.__init__ 2 3 3 Symbolic.theta) Symbolic.S1 = inr Q /\
    shape Q = (1, 3, 4).
Proof.
  assert (H1 : 0 < 1) by lia.
  assert (H2 : 0 < 2) by lia.
  assert (H3 : 0 < 3) by lia.
  assert (H4 : 0 < 4) by lia.
  split; [repeat split; assumption |].
  exact (AudioEncoder_forward_shape 2 3 Symbolic.theta Symbolic.S1 1 4 eq_refl
           H1 H4 H2 H3).
Defined.

(** ** The alignments in exact arithmetic *)

Section ExactProofs.

Context {F : Type} {SF : Scalar F}.
Variable less : F -> F -> Prop.
Hypothesis Hexact : exact_arithmetic less.

Lemma le_of_lt_trans (a b c : F) : le_of less a b -> less b c -> less a c.
Proof.
  intros [H | ->] Hbc; [eapply (lt_transitive less Hexact); eassumption | exact Hbc].
Qed.

Lemma lt_le_of_trans (a b c : F) : less a b -> le_of less b c -> less a c.
Proof.
  intros Hab [H | <-]; [eapply (lt_transitive less Hexact); eassumption | exact Hab].
Qed.

(** Adding positive elements to an accumulator makes it no smaller. *)
Lemma fold_fadd_grows (f : nat -> F) (l : list nat) :
  (forall i, In i l -> less fzero (f i)) ->
  forall acc, le_of less acc (fold_left (fun a i => fadd a (f i)) l acc).
Proof.
  induction l as [| i l IH]; intros Hf acc; cbn [fold_left].
  - right. reflexivity.
  - left. eapply lt_le_of_trans.
    + apply (lt_add_right less Hexact), Hf. left. reflexivity.
    + apply IH. intros j Hj. apply Hf. right. exact Hj.
Qed.

(** Every summand is below the sum, or is the sum. *)
Lemma fold_fadd_above (f : nat -> F) (l : list nat) :
  (forall i, In i l -> less fzero (f i)) ->
  forall acc i, less fzero acc -> In i l ->
    less (f i) (fold_left (fun a i => fadd a (f i)) l acc).
Proof.
  induction l as [| k l IH]; intros Hf acc i Hacc Hi; [contradiction |].
  cbn [fold_left]. destruct Hi as [-> | Hi].
  - eapply lt_le_of_trans.
    + apply (lt_add_left less Hexact), Hacc.
    + apply fold_fadd_grows. intros j Hj. apply Hf. right. exact Hj.
  - apply IH; [intros j Hj; apply Hf; right; exact Hj | | exact Hi].
    eapply (lt_transitive less Hexact); [exact Hacc |].
    apply (lt_add_right less Hexact), Hf. left. reflexivity.
Qed.

Lemma fsum_positive (n : nat) (f : nat -> F) :
  0 < n -> (forall i, i < n -> less fzero (f i)) -> less fzero (fsum n f).
Proof.
  intros Hn Hf. destruct n as [| m]; [exfalso; lia |]. cbn [fsum].
  apply (lt_le_of_trans fzero (f 0)); [apply Hf; lia |].
  apply fold_fadd_grows. intros i Hi. apply in_seq in Hi. apply Hf. lia.
Qed.

Lemma fsum_above (n : nat) (f : nat -> F) (i : nat) :
  i < n -> (forall i, i < n -> less fzero (f i)) -> le_of less (f i) (fsum n f).
Proof.
  intros Hi Hf. destruct n as [| m]; [exfalso; lia |]. cbn [fsum].
  destruct i as [| i'].
  - apply fold_fadd_grows. intros k Hk. apply in_seq in Hk. apply Hf. lia.
  - left. apply fold_fadd_above.
    + intros k Hk. apply in_seq in Hk. apply Hf. lia.
    + apply Hf. lia.
    + apply in_seq. lia.
Qed.

Lemma fold_fadd_div (f : nat -> F) (z : F) (l : list nat) (acc : F) :
  fold_left (fun a i => fadd a (fdiv (f i) z)) l (fdiv acc z)
  = fdiv (fold_left (fun a i => fadd a (f i)) l acc) z.
Proof.
  revert acc. induction l as [| i l IH]; intros acc; cbn [fold_left]; [reflexivity |].
  rewrite <- (div_add less Hexact). apply IH.
Qed.

(** Dividing the summands divides the sum. *)
Lemma fsum_div (n : nat) (f : nat -> F) (z : F) :
  0 < n -> fsum n (fun i => fdiv (f i) z) = fdiv (fsum n f) z.
Proof.
  intros Hn. destruct n as [| m]; [exfalso; lia |]. cbn [fsum]. apply fold_fadd_div.
Qed.

(** The softmax over the text steps is a distribution over them. *)
Lemma alignment_distribution (Q' K' : nat -> nat -> nat -> F) (C Tx d_k n j : nat) :
  0 < Tx ->
  fsum Tx (fun i => alignment Q' K' C Tx d_k n i j) = fone /\
  forall i, i < Tx ->
    less fzero (alignment Q' K' C Tx d_k n i j) /\
    le_of less (alignment Q' K' C Tx d_k n i j) fone.
Proof.
  intros HTx. unfold alignment.
  set (e := fun i => fexp (fsub (score Q' K' C d_k n i j)
                                (largest_score Q' K' C Tx d_k n j))).
  assert (He : forall i, i < Tx -> less fzero (e i))
    by (intros i _; apply (exp_positive less Hexact)).
  assert (HZ : less fzero (fsum Tx e)) by (apply fsum_positive; assumption).
  split.
  - change (fsum Tx (fun i => fdiv (e i) (fsum Tx e)) = fone).
    rewrite fsum_div by exact HTx. apply (div_same less Hexact), HZ.
  - intros i Hi. change (less fzero (fdiv (e i) (fsum Tx e)) /\
                         le_of less (fdiv (e i) (fsum Tx e)) fone).
    split; [apply (div_positive less Hexact); [apply He, Hi | exact HZ] |].
    destruct (fsum_above Tx e i Hi He) as [Hlt | Heq].
    + left. apply (div_below_one less Hexact); assumption.
    + right. rewrite Heq at 1. apply (div_same less Hexact), HZ.
Qed.

(** The alignments in exact arithmetic: when the elements obey the laws of
    [exact_arithmetic], the alignments [A] that [DotProductAttention.forward]
    returns on inputs that are not empty lie in [[0, 1]] (they are positive)
    and, for each batch index and audio step, sum to one over the text
    steps. *)
Theorem alignments_exact_distribution
    (d_hidden : nat) (theta_q theta_k theta_v : parameters F)
    (Q K V : tensor F) (N Tx Ty : nat) :
  shape Q = (N, d_hidden, Ty) ->
  shape K = (N, d_hidden, Tx) ->
  shape V = (N, d_hidden, Tx) ->
  0 < N -> 0 < d_hidden -> 0 < Tx -> 0 < Ty ->
  exists R A,
    DotProductAttention.forward
      (DotProductAttention.__init__ d_hidden theta_q theta_k theta_v) Q K V = inr (R, A) /\
    (forall n i j, n < N -> i < Tx -> j < Ty ->
       le_of less fzero (item A n i j) /\ le_of less (item A n i j) fone) /\
    (forall n j, n < N -> j < Ty -> fsum Tx (fun i => item A n i j) = fone).
Proof.
  intros HQ HK HV _ Hd HTx HTy.
  destruct (attention_forward_run d_hidden theta_q theta_k theta_v Q K V N Tx Ty
              HQ HK HV Hd HTx HTy) as (R & A & Hrun & _ & _ & HA & _).
  exists R, A. split; [exact Hrun |]. split.
  - intros n i j Hn Hi Hj. rewrite HA by assumption.
    destruct (alignment_distribution (projection theta_q d_hidden Q)
                (projection theta_k d_hidden K) d_hidden Tx d_hidden n j HTx)
      as [_ Hr].
    destruct (Hr i Hi) as [Hpos Hle]. split; [left; exact Hpos | exact Hle].
  - intros n j Hn Hj.
    destruct (alignment_distribution (projection theta_q d_hidden Q)
                (projection theta_k d_hidden K) d_hidden Tx d_hidden n j HTx)
      as [Hs _].
    rewrite <- Hs. apply fsum_ext. intros i Hi. apply HA; assumption.
Qed.

(** In exact arithmetic the sigmoid lies strictly between zero and one. *)
Lemma sigmoid_exact_range (x : F) : less fzero (fsigmoid x) /\ less (fsigmoid x) fone.
Proof.
  rewrite (sigmoid_exp less Hexact).
  pose proof (exp_positive less Hexact (fsub fzero x)) as He.
  pose proof (one_positive less Hexact) as H1.
  assert (Hd : less fone (fadd fone (fexp (fsub fzero x))))
    by (apply (lt_add_right less Hexact), He).
  split.
  - apply (div_positive less Hexact); [exact H1 |].
    eapply (lt_transitive less Hexact); eassumption.
  - apply (div_below_one less Hexact); [| exact Hd].
    eapply (lt_transitive less Hexact); eassumption.
Qed.

(** The outputs in exact arithmetic: when the elements obey the laws of
    [exact_arithmetic], every element of the tensor [AudioDecoder.forward]
    returns, and every element of the tensor [PostNet.forward] returns, lies
    strictly between zero and one; a decoder of positive widths does return
    on an input with the channels it was built for that is not empty. *)
Theorem outputs_exact_range :
  (forall (d_in d_out d_hidden : nat) (theta : nat -> norm_parameters F)
          (R_ : tensor F),
      size1 R_ = d_in ->
      0 < d_in -> 0 < d_out -> 0 < d_hidden -> 0 < size0 R_ -> 0 < size2 R_ ->
      exists O,
        AudioDecoder.forward (AudioDecoder.__init__ d_in d_out d_hidden theta) R_ = inr O /\
        forall n c t, less fzero (item O n c t) /\ less (item O n c t) fone) /\
  (forall (self : AudioDecoder.t F) (R_ O : tensor F),
      AudioDecoder.forward self R_ = inr O ->
      forall n c t, less fzero (item O n c t) /\ less (item O n c t) fone) /\
  (forall (residual_parameters : Type)
          (RB : nat -> nat -> nat -> residual_parameters -> tensor F -> result (tensor F))
          (self : PostNet.t residual_parameters) (x y : tensor F),
      PostNet.forward RB self x = inr y ->
      forall n c t, less fzero (item y n c t) /\ less (item y n c t) fone).
Proof.
  assert (Hdec : forall (self : AudioDecoder.t F) (R_ O : tensor F),
             AudioDecoder.forward self R_ = inr O ->
             forall n c t, less fzero (item O n c t) /\ less (item O n c t) fone).
  { intros self R_ O H n c t. unfold AudioDecoder.forward in H.
    apply bind_inr in H. destruct H as (Y & _ & H). inversion H.
    apply sigmoid_exact_range. }
  split; [| split; [exact Hdec |]].
  - intros d_in d_out d_hidden theta R_ HR Hi Ho Hh _ HT.
    destruct (AudioDecoder_blocks_shape d_in d_out d_hidden theta R_ HR Hi Ho Hh HT)
      as (Y & HY & _).
    assert (HO : AudioDecoder.forward (AudioDecoder.__init__ d_in d_out d_hidden theta) R_
                 = inr (sigmoid Y)).
    { unfold AudioDecoder.forward. rewrite apply_blocks_run_blocks, HY. reflexivity. }
    exists (sigmoid Y). split; [exact HO | exact (Hdec _ _ _ HO)].
  - intros rp RB self x y H n c t. unfold PostNet.forward in H.
    apply bind_inr in H. destruct H as (z & _ & H). inversion H.
    apply sigmoid_exact_range.
Qed.

End ExactProofs.

(** The real numbers are an exact arithmetic. *)
Lemma exact_arithmetic_R : exact_arithmetic Rlt.
Proof.
  constructor; cbn [fzero fone fadd fdiv fexp Real.Scalar_R].
  - intros a b c. apply Rlt_trans.
  - intros a b Ha. lra.
  - intros a b Hb. lra.
  - apply exp_pos.
  - intros a b z. unfold Rdiv. ring.
  - intros z Hz. unfold Rdiv. apply Rinv_r. lra.
  - intros a z Ha Hz. apply Rdiv_lt_0_compat; assumption.
  - intros a z Hz Haz. unfold Rdiv.
    apply (Rmult_lt_reg_r z); [exact Hz |].
    rewrite Rmult_assoc, Rinv_l by lra. lra.
  - lra.
  - intros x. cbn [fsigmoid fsub Real.Scalar_R]. do 3 f_equal. ring.
Defined.

(** An instance of [alignments_exact_distribution], over the real numbers. *)
Lemma alignments_exact_distribution_witness :
  (0 < 1 /\ 0 < 2 /\ 0 < 2 /\ 0 < 3) /\
  exists R A,
    DotProductAttention.forward
      (DotProductAttention.__init__ 2 Real.theta0 Real.theta0 Real.theta0)
      Real.Q0 Real.K0 Real.V0 = inr (R, A) /\
    (forall n i j, n < 1 -> i < 2 -> j < 3 ->
       le_of Rlt 0%R (item A n i j) /\ le_of Rlt (item A n i j) 1%R) /\
    (forall n j, n < 1 -> j < 3 -> fsum 2 (fun i => item A n i j) = 1%R).
Proof.
  assert (H1 : 0 < 1) by lia.
  assert (H2 : 0 < 2) by lia.
  assert (H3 : 0 < 3) by lia.
  split; [repeat split; assumption |].
  exact (alignments_exact_distribution Rlt exact_arithmetic_R 2
           Real.theta0 Real.theta0 Real.theta0 Real.Q0 Real.K0 Real.V0 1 2 3
           eq_refl eq_refl eq_refl H1 H2 H2 H3).
Defined.

(** An instance of [outputs_exact_range], over the real numbers. *)
Lemma outputs_exact_range_witness :
  exists O,
    AudioDecoder.forward (AudioDecoder.__init__ 2 5 3 Real.theta) Real.R0 = inr O /\
    forall n c t, (0 < item O n c t)%R /\ (item O n c t < 1)%R.
Proof.
  exact (proj1 (outputs_exact_range Rlt exact_arithmetic_R) 2 5 3 Real.theta Real.R0
           eq_refl ltac:(lia) ltac:(lia) ltac:(lia) ltac:(cbn; lia) ltac:(cbn; lia)).
Defined.


(** ** What depends on the shapes only *)

Section ShapeOnlyProofs.

Context {F : Type} {SF : Scalar F}.

Lemma same_shape_sizes (x x' : tensor F) :
  same_shape x x' -> size0 x = size0 x' /\ size1 x = size1 x' /\ size2 x = size2 x'.
Proof.
  unfold same_shape, shape. intros H. inversion H. auto.
Qed.

Lemma same_shape_intro (x x' : tensor F) :
  size0 x = size0 x' -> size1 x = size1 x' -> size2 x = size2 x' -> same_shape x x'.
Proof.
  unfold same_shape, shape. congruence.
Qed.

Lemma shape_conv1d (x x' : tensor F) (o i k : nat) (w : nat -> nat -> nat -> F)
    (b : nat -> F) (p d : nat) :
  same_shape x x' ->
  result_rel same_shape (conv1d x o i k w b p d) (conv1d x' o i k w b p d).
Proof.
  intros H. destruct (same_shape_sizes x x' H) as (H0 & H1 & H2).
  eapply result_rel_impl; [| apply conv1d_alike; [exact H1 | | ]; rewrite H2; reflexivity].
  cbn beta. intros y y' [-> ->].
  apply same_shape_intro; cbn [convolved size0 size1 size2]; congruence.
Qed.

Lemma shape_binary (f : F -> F -> F) (a a' b b' : tensor F) :
  same_shape a a' -> same_shape b b' ->
  result_rel same_shape (binary f a b) (binary f a' b').
Proof.
  intros Ha Hb.
  destruct (same_shape_sizes a a' Ha) as (Ha0 & Ha1 & Ha2).
  destruct (same_shape_sizes b b' Hb) as (Hb0 & Hb1 & Hb2).
  unfold binary. rewrite <- Ha0, <- Ha1, <- Ha2, <- Hb0, <- Hb1, <- Hb2.
  destruct (broadcast_size (size0 a) (size0 b));
    cbn [bind ret Monad_either result_rel]; [reflexivity |].
  destruct (broadcast_size (size1 a) (size1 b));
    cbn [bind ret Monad_either result_rel]; [reflexivity |].
  destruct (broadcast_size (size2 a) (size2 b));
    cbn [bind ret Monad_either result_rel]; reflexivity.
Qed.

Lemma shape_highway (H H' x x' : tensor F) (o : nat) :
  same_shape H H' -> same_shape x x' ->
  result_rel same_shape (highway H x o) (highway H' x' o).
Proof.
  intros HH Hx. destruct (same_shape_sizes H H' HH) as (H0 & H1 & H2).
  unfold highway.
  apply (result_rel_bind same_shape same_shape).
  { apply shape_binary; apply same_shape_intro;
      cbn [sigmoid pointwise narrow_1 size0 size1 size2]; congruence. }
  intros a a' Ha.
  apply (result_rel_bind same_shape same_shape).
  { apply shape_binary; [| exact Hx]. apply same_shape_intro;
      cbn [sigmoid pointwise narrow_1 size0 size1 size2]; congruence. }
  intros b b' Hb. apply shape_binary; assumption.
Qed.

Lemma shape_conv_causal (x x' : tensor F) (o i k : nat) (w : nat -> nat -> nat -> F)
    (b : nat -> F) (d : nat) :
  same_shape x x' ->
  result_rel same_shape (conv_causal x o i k w b d) (conv_causal x' o i k w b d).
Proof.
  intros H. unfold conv_causal.
  apply (result_rel_bind same_shape same_shape); [apply shape_conv1d, H |].
  intros y y' Hy. cbn [ret Monad_either result_rel].
  destruct (same_shape_sizes x x' H) as (_ & _ & H2).
  destruct (same_shape_sizes y y' Hy) as (Y0 & Y1 & Y2).
  apply same_shape_intro; cbn [keep_time size0 size1 size2]; congruence.
Qed.

Lemma shape_activate (act : option (F -> F)) (y y' : tensor F) :
  same_shape y y' -> same_shape (activate act y) (activate act y').
Proof.
  destruct act; cbn [activate]; auto.
Qed.

Lemma shape_call (m : module F) (x x' : tensor F) :
  same_shape x x' -> result_rel same_shape (call m x) (call m x').
Proof.
  intros Hx.
  assert (Hl : forall l w b,
             result_rel same_shape (layer_forward l w b x) (layer_forward l w b x')).
  { intros l w b.
    destruct l as [i o k d act | i o k d | i o k d act | i o k d | i o k];
      cbn [layer_forward]; unfold conv_same.
    - apply (result_rel_bind same_shape same_shape); [apply shape_conv1d, Hx |].
      intros y y' Hy. apply shape_activate, Hy.
    - apply (result_rel_bind same_shape same_shape); [apply shape_conv1d, Hx |].
      intros H H' HH. apply shape_highway; assumption.
    - apply (result_rel_bind same_shape same_shape); [apply shape_conv_causal, Hx |].
      intros y y' Hy. apply shape_activate, Hy.
    - apply (result_rel_bind same_shape same_shape); [apply shape_conv_causal, Hx |].
      intros H H' HH. apply shape_highway; assumption.
    - apply shape_conv1d, Hx. }
  destruct m as [l p | l p]; cbn [call]; apply Hl.
Qed.

Lemma shape_run_blocks (ms : list (module F)) (x x' : tensor F) :
  same_shape x x' -> result_rel same_shape (run_blocks ms x) (run_blocks ms x').
Proof.
  revert x x'. induction ms as [| m ms IH]; intros x x' Hx; cbn [run_blocks].
  - exact Hx.
  - apply (result_rel_bind same_shape same_shape); [apply shape_call, Hx |].
    intros y y' Hy. apply IH, Hy.
Qed.

Lemma shape_bmm (a a' b b' : tensor F) :
  same_shape a a' -> same_shape b b' ->
  result_rel same_shape (bmm a b) (bmm a' b').
Proof.
  intros Ha Hb.
  destruct (same_shape_sizes a a' Ha) as (Ha0 & Ha1 & Ha2).
  destruct (same_shape_sizes b b' Hb) as (Hb0 & Hb1 & Hb2).
  unfold bmm. rewrite <- Ha0, <- Ha2, <- Hb0, <- Hb1.
  destruct ((size0 a =? size0 b) && (size2 a =? size1 b));
    cbn [ret Monad_either result_rel raise Exception_either]; [| reflexivity].
  apply same_shape_intro; cbn [size0 size1 size2]; congruence.
Qed.

Lemma shape_chunk (chunks : nat) (y y' : tensor F) :
  same_shape y y' -> Forall2 same_shape (chunk chunks y) (chunk chunks y').
Proof.
  intros H. destruct (same_shape_sizes y y' H) as (H0 & H1 & H2).
  unfold chunk. rewrite <- H1.
  destruct ((size1 y + chunks - 1) / chunks =? 0).
  - apply Forall2_repeat. apply same_shape_intro; cbn [narrow_1 size0 size1 size2];
      congruence.
  - apply Forall2_map_seq. intros i _.
    apply same_shape_intro; cbn [narrow_1 size0 size1 size2]; congruence.
Qed.

Lemma shape_Sequential {residual_parameters : Type}
    (RB : nat -> nat -> nat -> residual_parameters -> tensor F -> result (tensor F))
    (ms : list (PostNet.net residual_parameters)) (x x' : tensor F) :
  (forall i o k p z z', same_shape z z' ->
     result_rel same_shape (RB i o k p z) (RB i o k p z')) ->
  same_shape x x' ->
  result_rel same_shape (PostNet.Sequential RB ms x) (PostNet.Sequential RB ms x').
Proof.
  intros HRB. revert x x'. induction ms as [| m ms IH]; intros x x' Hx.
  - exact Hx.
  - rewrite !Sequential_cons.
    apply (result_rel_bind same_shape same_shape); [| intros y y' Hy; apply IH, Hy].
    destruct m as [scale | i o k p]; cbn [PostNet.call_net].
    + destruct (same_shape_sizes x x' Hx) as (H0 & H1 & H2).
      unfold Upsample. rewrite <- H2.
      destruct ((size2 x =? 0) || (size2 x * scale =? 0));
        cbn [ret Monad_either result_rel raise Exception_either]; [reflexivity |].
      apply same_shape_intro; cbn [nearest size0 size1 size2]; congruence.
    + apply HRB, Hx.
Qed.

(** No [forward] branches on the elements of its inputs: whether it fails,
    with which exception, and the shapes of what it returns are the same for
    any two inputs of the same shapes ([PostNet]: as far as this holds of its
    residual blocks). *)
Theorem forward_depends_on_shapes_only :
  (forall (self : TextEncoder.t F) (L L' : tensor F),
      same_shape L L' ->
      result_rel same_shape2 (TextEncoder.forward self L) (TextEncoder.forward self L')) /\
  (forall (self : AudioEncoder.t F) (S S' : tensor F),
      same_shape S S' ->
      result_rel same_shape (AudioEncoder.forward self S) (AudioEncoder.forward self S')) /\
  (forall (self : DotProductAttention.t F) (Q Q' K K' V V' : tensor F),
      same_shape Q Q' -> same_shape K K' -> same_shape V V' ->
      result_rel same_shape2 (DotProductAttention.forward self Q K V)
                             (DotProductAttention.forward self Q' K' V')) /\
  (forall (self : AudioDecoder.t F) (R_ R_' : tensor F),
      same_shape R_ R_' ->
      result_rel same_shape (AudioDecoder.forward self R_)
                            (AudioDecoder.forward self R_')) /\
  (forall (residual_parameters : Type)
          (RB : nat -> nat -> nat -> residual_parameters -> tensor F -> result (tensor F))
          (self : PostNet.t residual_parameters) (x x' : tensor F),
      (forall i o k p z z', same_shape z z' ->
         result_rel same_shape (RB i o k p z) (RB i o k p z')) ->
      same_shape x x' ->
      result_rel same_shape (PostNet.forward RB self x) (PostNet.forward RB self x')).
Proof.
  split; [| split; [| split; [| split]]].
  - intros self L L' HL. unfold TextEncoder.forward.
    rewrite !apply_blocks_run_blocks.
    apply (result_rel_bind same_shape same_shape2); [apply shape_run_blocks, HL |].
    intros y y' Hy. pose proof (shape_chunk 2 y y' Hy) as Hc.
    destruct Hc as [| K K' ? ? HK Hc]; [reflexivity |].
    destruct Hc as [| V V' ? ? HV Hc]; [reflexivity |].
    destruct Hc as [| W W' ? ? HW Hc]; [| reflexivity].
    cbn [ret Monad_either result_rel]. split; assumption.
  - intros self S S' HS. unfold AudioEncoder.forward.
    rewrite !apply_blocks_run_blocks. apply shape_run_blocks, HS.
  - intros self Q Q' K K' V V' HQ HK HV. unfold DotProductAttention.forward.
    apply (result_rel_bind same_shape same_shape2); [apply shape_call, HQ |].
    intros Q1 Q1' HQ1.
    apply (result_rel_bind same_shape same_shape2); [apply shape_call, HK |].
    intros K1 K1' HK1.
    apply (result_rel_bind same_shape same_shape2); [apply shape_call, HV |].
    intros V1 V1' HV1.
    destruct (same_shape_sizes _ _ HQ1) as (q0 & q1 & q2).
    destruct (same_shape_sizes _ _ HK1) as (k0 & k1 & k2).
    destruct (same_shape_sizes _ _ HV1) as (v0 & v1 & v2).
    apply (result_rel_bind same_shape same_shape2).
    { apply shape_bmm; apply same_shape_intro;
        cbn [transpose_1_2 tanh pointwise size0 size1 size2]; congruence. }
    intros KQ KQ' HKQ.
    destruct (same_shape_sizes _ _ HKQ) as (s0 & s1 & s2).
    apply (result_rel_bind same_shape same_shape2).
    { apply shape_bmm; apply same_shape_intro;
        cbn [softmax_dim1 div_scalar tanh pointwise size0 size1 size2]; congruence. }
    intros R R' HR. cbn [ret Monad_either result_rel]. split; [exact HR |].
    apply same_shape_intro;
      cbn [softmax_dim1 div_scalar pointwise size0 size1 size2 snd]; congruence.
  - intros self R_ R_' HR. unfold AudioDecoder.forward.
    rewrite !apply_blocks_run_blocks.
    apply (result_rel_bind same_shape same_shape); [apply shape_run_blocks, HR |].
    intros Y Y' HY. cbn [ret Monad_either result_rel].
    destruct (same_shape_sizes _ _ HY) as (y0 & y1 & y2).
    apply same_shape_intro; cbn [sigmoid pointwise size0 size1 size2]; congruence.
  - intros rp RB self x x' HRB Hx. unfold PostNet.forward.
    apply (result_rel_bind same_shape same_shape); [apply shape_Sequential; assumption |].
    intros y y' Hy. cbn [ret Monad_either result_rel].
    destruct (same_shape_sizes _ _ Hy) as (y0 & y1 & y2).
    apply same_shape_intro; cbn [sigmoid pointwise size0 size1 size2]; congruence.
Qed.

End ShapeOnlyProofs.

(** An instance of [forward_depends_on_shapes_only]: two spectrograms of one
    shape and different elements. *)
Lemma forward_depends_on_shapes_only_witness :
  same_shape Symbolic.S1 Symbolic.S2 /\
  result_rel same_shape
    (AudioEncoder.forward (AudioEncoder.__init__ 2 3 3 Symbolic.theta) Symbolic.S1)
    (AudioEncoder.forward (AudioEncoder.__init__ 2 3 3 Symbolic.theta) Symbolic.S2).
Proof.
  split; [reflexivity |].
  exact (proj1 (proj2 forward_depends_on_shapes_only)
           (AudioEncoder.__init__ 2 3 3 Symbolic.theta) Symbolic.S1 Symbolic.S2 eq_refl).
Defined.


(** ** Receptive fields *)

Section LocalityProofs.

Context {F : Type} {SF : Scalar F}.

Lemma agree_in_weaken (n lo hi back ahead back' ahead' : nat) (x x' : tensor F) :
  back <= back' -> ahead <= ahead' ->
  agree_in n lo hi back ahead x x' -> agree_in n lo hi back' ahead' x x'.
Proof.
  intros Hb Ha [Hs Hi]. split; [exact Hs |].
  intros c s Hn Hc Hs' Hlo Hhi. apply Hi; solve [assumption | lia].
Qed.

Lemma agree_in_pointwise (f : F -> F) (n lo hi back ahead : nat) (x x' : tensor F) :
  agree_in n lo hi back ahead x x' ->
  agree_in n lo hi back ahead (pointwise f x) (pointwise f x').
Proof.
  intros [Hs Hi]. destruct (same_shape_sizes x x' Hs) as (H0 & H1 & H2).
  split; [apply same_shape_intro; cbn [pointwise size0 size1 size2]; assumption |].
  cbn [pointwise size0 size1 size2 item].
  intros c s Hn Hc Hs' Hlo Hhi. f_equal. apply Hi; assumption.
Qed.

Lemma agree_in_activate (act : option (F -> F)) (n lo hi back ahead : nat)
    (x x' : tensor F) :
  agree_in n lo hi back ahead x x' ->
  agree_in n lo hi back ahead (activate act x) (activate act x').
Proof.
  destruct act; cbn [activate]; [apply agree_in_pointwise | auto].
Qed.

Lemma agree_in_narrow (n lo hi back ahead : nat) (H H' : tensor F) (start length : nat) :
  agree_in n lo hi back ahead H H' ->
  (forall c, c < length -> start + c < size1 H) ->
  agree_in n lo hi back ahead (narrow_1 H start length) (narrow_1 H' start length).
Proof.
  intros [Hs Hi] Hle. destruct (same_shape_sizes H H' Hs) as (H0 & H1 & H2).
  split; [apply same_shape_intro; cbn [narrow_1 size0 size1 size2]; congruence |].
  cbn [narrow_1 size0 size1 size2 item].
  intros c s Hn Hc Hs' Hlo Hhi. apply Hi; try assumption. apply Hle, Hc.
Qed.

Lemma agree_in_keep_time (n lo hi back ahead : nat) (x x' : tensor F) (length : nat) :
  agree_in n lo hi back ahead x x' ->
  agree_in n lo hi back ahead (keep_time x length) (keep_time x' length).
Proof.
  intros [Hs Hi]. destruct (same_shape_sizes x x' Hs) as (H0 & H1 & H2).
  split; [apply same_shape_intro; cbn [keep_time size0 size1 size2]; congruence |].
  cbn [keep_time size0 size1 size2 item].
  intros c s Hn Hc Hs' Hlo Hhi. apply Hi; try assumption. lia.
Qed.

(** An elementwise operation on operands of one batch size and one length. *)
Lemma agree_in_binary (f : F -> F -> F) (n lo hi back ahead : nat)
    (a a' b b' : tensor F) :
  size0 a = size0 b -> size2 a = size2 b ->
  agree_in n lo hi back ahead a a' -> agree_in n lo hi back ahead b b' ->
  result_rel (fun y y' => agree_in n lo hi back ahead y y' /\
                          size0 y = size0 a /\ size2 y = size2 a)
             (binary f a b) (binary f a' b').
Proof.
  intros E0 E2 [Has Hai] [Hbs Hbi].
  destruct (same_shape_sizes a a' Has) as (Ha0 & Ha1 & Ha2).
  destruct (same_shape_sizes b b' Hbs) as (Hb0 & Hb1 & Hb2).
  unfold binary. rewrite <- Ha0, <- Ha1, <- Ha2, <- Hb0, <- Hb1, <- Hb2.
  rewrite <- E0, <- E2, !broadcast_size_refl. cbn [bind Monad_either].
  destruct (broadcast_size (size1 a) (size1 b)) as [e1 | s1] eqn:E1;
    cbn [bind ret Monad_either result_rel]; [reflexivity |].
  split; [| split; reflexivity].
  split; [reflexivity |]. cbn [size0 size1 size2 item].
  intros c s Hn Hc Hs Hlo Hhi.
  destruct (broadcast_size_index _ _ _ c E1 Hc) as [Hca Hcb].
  rewrite (broadcast_index_lt (size0 a) n Hn), (broadcast_index_lt (size2 a) s Hs).
  f_equal; [apply Hai | apply Hbi]; solve [assumption | congruence].
Qed.

(** A convolution reads, for step [s], the steps from [s - padding] to
    [s + (kernel_size - 1) * dilation - padding]. *)
Lemma agree_in_conv1d (n lo hi back ahead : nat) (x x' : tensor F) (o i k : nat)
    (w : nat -> nat -> nat -> F) (b : nat -> F) (p d : nat) :
  agree_in n lo hi back ahead x x' ->
  result_rel (agree_in n lo hi (back + p) (ahead + ((k - 1) * d - p)))
             (conv1d x o i k w b p d) (conv1d x' o i k w b p d).
Proof.
  intros [Hs Hi]. destruct (same_shape_sizes x x' Hs) as (H0 & H1 & H2).
  assert (Halike : result_rel
                     (fun y y' => y = convolved x o i k w b p d /\
                                  y' = convolved x' o i k w b p d)
                     (conv1d x o i k w b p d) (conv1d x' o i k w b p d))
    by (apply conv1d_alike; [exact H1 | |]; rewrite H2; reflexivity).
  destruct (conv1d x o i k w b p d) as [e | y] eqn:Ey,
           (conv1d x' o i k w b p d) as [e' | y'];
    cbn [result_rel] in Halike |- *; try contradiction; [exact Halike |].
  destruct Halike as [-> ->].
  apply conv1d_inr_inv in Ey. destruct Ey as (Hx & _).
  split; [apply same_shape_intro; cbn [convolved size0 size1 size2]; congruence |].
  cbn [convolved size0 size1 size2 item].
  intros c s Hn Hc Hs' Hlo Hhi.
  f_equal. apply fsum_ext. intros c' Hc'. apply fsum_ext. intros j Hj. f_equal.
  unfold padded. rewrite <- H2.
  destruct (Nat.leb_spec p (s + j * d)) as [Hle | Hgt]; cbn [andb]; [| reflexivity].
  destruct (Nat.ltb_spec (s + j * d - p) (size2 x)) as [Hin | Hout]; [| reflexivity].
  assert (Hjd : j * d <= (k - 1) * d) by (apply Nat.mul_le_mono_r; lia).
  apply Hi; lia.
Qed.

(** The highway connection of a convolution output [H] as long as [x]. *)
Lemma agree_in_highway (n lo hi back ahead back' ahead' : nat)
    (H H' x x' : tensor F) (o : nat) :
  back <= back' -> ahead <= ahead' ->
  size0 H = size0 x -> size1 H = 2 * o -> size2 H = size2 x ->
  agree_in n lo hi back' ahead' H H' -> agree_in n lo hi back ahead x x' ->
  result_rel (agree_in n lo hi back' ahead') (highway H x o) (highway H' x' o).
Proof.
  intros Hb Ha E0 E1 E2 HH Hx. unfold highway.
  pose proof (agree_in_weaken n lo hi back ahead back' ahead' x x' Hb Ha Hx) as Hx'.
  assert (H1 : agree_in n lo hi back' ahead'
                 (sigmoid (narrow_1 H 0 o)) (sigmoid (narrow_1 H' 0 o))).
  { apply agree_in_pointwise, agree_in_narrow; [exact HH | intros; lia]. }
  assert (H2 : agree_in n lo hi back' ahead' (narrow_1 H o o) (narrow_1 H' o o)).
  { apply agree_in_narrow; [exact HH | intros; lia]. }
  assert (HG : agree_in n lo hi back' ahead'
                 (pointwise (fsub fone) (sigmoid (narrow_1 H 0 o)))
                 (pointwise (fsub fone) (sigmoid (narrow_1 H' 0 o))))
    by (apply agree_in_pointwise, H1).
  eapply result_rel_bind.
  { exact (agree_in_binary fmul n lo hi back' ahead'
             (sigmoid (narrow_1 H 0 o)) (sigmoid (narrow_1 H' 0 o))
             (narrow_1 H o o) (narrow_1 H' o o) eq_refl eq_refl H1 H2). }
  cbn beta. intros a a' (Haa & A0 & A2).
  eapply result_rel_bind.
  { exact (agree_in_binary fmul n lo hi back' ahead'
             (pointwise (fsub fone) (sigmoid (narrow_1 H 0 o)))
             (pointwise (fsub fone) (sigmoid (narrow_1 H' 0 o)))
             x x' E0 E2 HG Hx'). }
  cbn beta. intros b b' (Hbb & B0 & B2).
  cbn [sigmoid pointwise narrow_1 size0 size2] in A0, A2, B0, B2.
  eapply result_rel_impl; [| apply agree_in_binary; try eassumption; congruence].
  cbn beta. intros y y' Hy. apply Hy.
Qed.

Lemma agree_in_conv_same (n lo hi back ahead : nat) (x x' : tensor F) (o i k : nat)
    (w : nat -> nat -> nat -> F) (b : nat -> F) (d : nat) :
  agree_in n lo hi back ahead x x' ->
  result_rel (fun y y' =>
                agree_in n lo hi (back + k / 2 * d) (ahead + ((k - 1) * d - k / 2 * d))
                         y y' /\
                size0 y = size0 x /\ size1 y = o /\
                (Nat.odd k = true -> size2 y = size2 x))
             (conv_same x o i k w b d) (conv_same x' o i k w b d).
Proof.
  intros Hx. unfold conv_same.
  pose proof (agree_in_conv1d n lo hi back ahead x x' o i k w b (k / 2 * d) d Hx) as Hc.
  destruct (conv1d x o i k w b (k / 2 * d) d) as [e | y] eqn:Ey,
           (conv1d x' o i k w b (k / 2 * d) d) as [e' | y'];
    cbn [result_rel] in Hc |- *; try contradiction; [exact Hc |].
  destruct (conv1d_sizes _ _ _ _ _ _ _ _ _ Ey) as (Y0 & Y1 & Y2).
  repeat split; try apply Hc; try assumption.
  intros Hk. rewrite Y2. apply same_length, Hk.
Qed.

Lemma agree_in_conv_causal (n lo hi back ahead : nat) (x x' : tensor F) (o i k : nat)
    (w : nat -> nat -> nat -> F) (b : nat -> F) (d : nat) :
  agree_in n lo hi back ahead x x' ->
  result_rel (fun y y' =>
                agree_in n lo hi (back + (k - 1) * d) ahead y y' /\
                size0 y = size0 x /\ size1 y = o /\ size2 y = size2 x)
             (conv_causal x o i k w b d) (conv_causal x' o i k w b d).
Proof.
  intros Hx. unfold conv_causal.
  pose proof (agree_in_conv1d n lo hi back ahead x x' o i k w b ((k - 1) * d) d Hx)
    as Hc.
  destruct Hx as [Hxs _]. destruct (same_shape_sizes x x' Hxs) as (_ & _ & X2).
  rewrite <- X2.
  destruct (conv1d x o i k w b ((k - 1) * d) d) as [e | y] eqn:Ey,
           (conv1d x' o i k w b ((k - 1) * d) d) as [e' | y'];
    cbn [result_rel bind ret Monad_either] in Hc |- *; try contradiction; [exact Hc |].
  destruct (conv1d_sizes _ _ _ _ _ _ _ _ _ Ey) as (Y0 & Y1 & Y2).
  split.
  - apply agree_in_keep_time.
    eapply agree_in_weaken; [| | exact Hc]; lia.
  - cbn [keep_time size0 size1 size2]. repeat split; try assumption.
    rewrite Y2. apply Nat.min_l.
    replace (d * (k - 1)) with ((k - 1) * d) by lia. lia.
Qed.

(** A layer reads [reach_back] steps back and [reach_ahead] steps ahead, in
    the batch element it writes. *)
Lemma agree_in_layer (l : layer F) (w : nat -> nat -> nat -> F) (b : nat -> F)
    (n lo hi back ahead : nat) (x x' : tensor F) :
  keeps_length l = true ->
  agree_in n lo hi back ahead x x' ->
  result_rel (agree_in n lo hi (back + reach_back l) (ahead + reach_ahead l))
             (layer_forward l w b x) (layer_forward l w b x').
Proof.
  intros Hl Hx.
  destruct l as [i o k d act | i o k d | i o k d act | i o k d | i o k];
    cbn [layer_forward reach_back reach_ahead keeps_length is_causal
         layer_kernel_size orb] in Hl |- *.
  - eapply result_rel_bind; [apply agree_in_conv_same, Hx |].
    cbn beta. intros y y' (Hy & _). cbn [ret Monad_either result_rel].
    apply agree_in_activate, Hy.
  - pose proof (agree_in_conv_same n lo hi back ahead x x' (2 * o) i k w b d Hx) as Hc.
    destruct (conv_same x (2 * o) i k w b d) as [e | H],
             (conv_same x' (2 * o) i k w b d) as [e' | H'];
      cbn [result_rel bind Monad_either] in Hc |- *; try contradiction; [exact Hc |].
    destruct Hc as (HH & H0 & H1 & H2).
    apply (agree_in_highway n lo hi back ahead); try assumption;
      try apply Nat.le_add_r.
    apply H2, Hl.
  - eapply result_rel_bind; [apply agree_in_conv_causal, Hx |].
    cbn beta. intros y y' (Hy & _). cbn [ret Monad_either result_rel].
    apply agree_in_activate.
    eapply agree_in_weaken; [| | exact Hy]; lia.
  - pose proof (agree_in_conv_causal n lo hi back ahead x x' (2 * o) i k w b d Hx) as Hc.
    destruct (conv_causal x (2 * o) i k w b d) as [e | H],
             (conv_causal x' (2 * o) i k w b d) as [e' | H'];
      cbn [result_rel bind Monad_either] in Hc |- *; try contradiction; [exact Hc |].
    destruct Hc as (HH & H0 & H1 & H2).
    apply (agree_in_highway n lo hi back ahead); try assumption;
      try apply Nat.le_add_r.
    eapply agree_in_weaken; [| | exact HH]; lia.
  - eapply result_rel_impl; [| apply agree_in_conv_same, Hx].
    cbn beta. intros y y' (Hy & _). exact Hy.
Qed.

(** The reaches of the blocks add up. *)
Lemma agree_in_run_blocks (ms : list (module F)) (n lo hi back ahead : nat)
    (x x' : tensor F) :
  forallb (fun m => keeps_length (module_layer m)) ms = true ->
  agree_in n lo hi back ahead x x' ->
  result_rel (agree_in n lo hi (back + blocks_back ms) (ahead + blocks_ahead ms))
             (run_blocks ms x) (run_blocks ms x').
Proof.
  revert back ahead x x'.
  induction ms as [| m ms IH]; intros back ahead x x' Hms Hx;
    cbn [run_blocks blocks_back blocks_ahead fold_right].
  - cbn [ret Monad_either result_rel]. rewrite !Nat.add_0_r. exact Hx.
  - cbn [forallb] in Hms. apply andb_prop in Hms. destruct Hms as [Hm Hms].
    apply (result_rel_bind
             (agree_in n lo hi (back + reach_back (module_layer m))
                               (ahead + reach_ahead (module_layer m)))
             (agree_in n lo hi
                (back + (reach_back (module_layer m) + blocks_back ms))
                (ahead + (reach_ahead (module_layer m) + blocks_ahead ms)))).
    + destruct m as [l p | l p]; cbn [call module_layer] in Hm |- *;
        apply agree_in_layer; assumption.
    + intros y y' Hy.
      eapply result_rel_impl; [| apply IH; [exact Hms | exact Hy]].
      intros z z' Hz. fold (blocks_back ms) (blocks_ahead ms) in Hz |- *.
      eapply agree_in_weaken; [| | exact Hz]; lia.
Qed.

Lemma agree_in_chunk (chunks n lo hi back ahead : nat) (y y' : tensor F) :
  agree_in n lo hi back ahead y y' ->
  Forall2 (agree_in n lo hi back ahead) (chunk chunks y) (chunk chunks y').
Proof.
  intros H. destruct H as [Hs Hi]. destruct (same_shape_sizes y y' Hs) as (H0 & H1 & H2).
  unfold chunk. rewrite <- H1.
  destruct ((size1 y + chunks - 1) / chunks =? 0).
  - apply Forall2_repeat, agree_in_narrow; [split; assumption | intros; lia].
  - apply Forall2_map_seq. intros i _.
    apply agree_in_narrow; [split; assumption | intros c Hc; lia].
Qed.

Lemma agree_around_in (n s back ahead : nat) (x x' : tensor F) :
  agree_around n s back ahead x x' -> agree_in n (s - back) (s + ahead) 0 0 x x'.
Proof.
  intros [Hs Hi]. split; [exact Hs |].
  intros c s' Hn Hc Hs' Hlo Hhi. apply Hi; solve [assumption | lia].
Qed.

Lemma agree_in_at (n s back ahead : nat) (y y' : tensor F) :
  agree_in n (s - back) (s + ahead) back ahead y y' -> agree_at n s y y'.
Proof.
  intros [Hs Hi]. split; [exact Hs |].
  intros c Hn Hc Hs'. apply Hi; solve [assumption | lia].
Qed.

(** The receptive fields of the three convolutional networks, read off the
    kernel sizes and dilations of their blocks.  For two inputs of one shape,
    what a network returns for batch element [n] at step [s] is the same
    whenever the inputs agree, in batch element [n], on the steps they have
    among

    - [s - 82 .. s + 82] for [TextEncoder] (both [K] and [V]),
    - [s - 172 .. s] for [AudioEncoder],
    - [s - 84 .. s] for [AudioDecoder],

    where [s - 82] is the first step when [s < 82].  The two runs fail alike
    or return alike. *)
Theorem receptive_fields (n s : nat) (d_in d_out d_hidden : nat)
    (theta : nat -> norm_parameters F) :
  (forall L L' : tensor F,
      agree_around n s 82 82 L L' ->
      result_rel (agree_at2 n s)
        (TextEncoder.forward (TextEncoder.__init__ d_in d_out d_hidden theta) L)
        (TextEncoder.forward (TextEncoder.__init__ d_in d_out d_hidden theta) L')) /\
  (forall S S' : tensor F,
      agree_around n s 172 0 S S' ->
      result_rel (agree_at n s)
        (AudioEncoder.forward (AudioEncoder.__init__ d_in d_out d_hidden theta) S)
        (AudioEncoder.forward (AudioEncoder.__init__ d_in d_out d_hidden theta) S')) /\
  (forall R_ R_' : tensor F,
      agree_around n s 84 0 R_ R_' ->
      result_rel (agree_at n s)
        (AudioDecoder.forward (AudioDecoder.__init__ d_in d_out d_hidden theta) R_)
        (AudioDecoder.forward (AudioDecoder.__init__ d_in d_out d_hidden theta) R_')).
Proof.
  split; [| split].
  - intros L L' HL. apply agree_around_in in HL.
    unfold TextEncoder.forward. rewrite !apply_blocks_run_blocks.
    apply (result_rel_bind (agree_in n (s - 82) (s + 82) 82 82) (agree_at2 n s)).
    { exact (agree_in_run_blocks
               (TextEncoder.hc_blocks (TextEncoder.__init__ d_in d_out d_hidden theta))
               n (s - 82) (s + 82) 0 0 L L' eq_refl HL). }
    intros y y' Hy.
    pose proof (agree_in_chunk 2 n (s - 82) (s + 82) 82 82 y y' Hy) as Hc.
    destruct Hc as [| K K' ? ? HK Hc]; [reflexivity |].
    destruct Hc as [| V V' ? ? HV Hc]; [reflexivity |].
    destruct Hc as [| W W' ? ? HW Hc]; [| reflexivity].
    cbn [ret Monad_either result_rel].
    split; cbn [fst snd]; eapply agree_in_at; eassumption.
  - intros S S' HS. apply agree_around_in in HS.
    unfold AudioEncoder.forward. rewrite !apply_blocks_run_blocks.
    apply (result_rel_impl (agree_in n (s - 172) (s + 0) 172 0) (agree_at n s)).
    { intros Q Q' HQ. eapply agree_in_at, HQ. }
    exact (agree_in_run_blocks
             (AudioEncoder.hc_blocks (AudioEncoder.__init__ d_in d_out d_hidden theta))
             n (s - 172) (s + 0) 0 0 S S' eq_refl HS).
  - intros R_ R_' HR. apply agree_around_in in HR.
    unfold AudioDecoder.forward. rewrite !apply_blocks_run_blocks.
    apply (result_rel_bind (agree_in n (s - 84) (s + 0) 84 0) (agree_at n s)).
    { exact (agree_in_run_blocks
               (AudioDecoder.hc_blocks (AudioDecoder.__init__ d_in d_out d_hidden theta))
               n (s - 84) (s + 0) 0 0 R_ R_' eq_refl HR). }
    intros Y Y' HY. cbn [ret Monad_either result_rel].
    eapply agree_in_at. apply agree_in_pointwise, HY.
Qed.

End LocalityProofs.

Lemma X1_X2_around (back ahead : nat) :
  back <= 190 -> ahead <= 190 -> agree_around 0 200 back ahead Long.X1 Long.X2.
Proof.
  intros Hb Ha. split; [reflexivity |].
  intros c s' _ _ _ Hlo Hhi. cbn [Long.X1 Long.X2 Symbolic.unknown item].
  destruct (Nat.leb_spec 10 s') as [_ | H]; [| lia].
  destruct (Nat.leb_spec s' 390) as [_ | H]; [reflexivity | lia].
Defined.

(** An instance of [receptive_fields]: two inputs of four hundred steps that
    share the steps 10 to 390, compared at step 200. *)
Lemma receptive_fields_witness :
  agree_around 0 200 82 82 Long.X1 Long.X2 /\
  agree_around 0 200 172 0 Long.X1 Long.X2 /\
  agree_around 0 200 84 0 Long.X1 Long.X2 /\
  result_rel (agree_at2 0 200)
    (TextEncoder.forward (TextEncoder.__init__ 2 3 3 Symbolic.theta) Long.X1)
    (TextEncoder.forward (TextEncoder.__init__ 2 3 3 Symbolic.theta) Long.X2) /\
  result_rel (agree_at 0 200)
    (AudioEncoder.forward (AudioEncoder.__init__ 2 3 3 Symbolic.theta) Long.X1)
    (AudioEncoder.forward (AudioEncoder.__init__ 2 3 3 Symbolic.theta) Long.X2) /\
  result_rel (agree_at 0 200)
    (AudioDecoder.forward (AudioDecoder.__init__ 2 3 3 Symbolic.theta) Long.X1)
    (AudioDecoder.forward (AudioDecoder.__init__ 2 3 3 Symbolic.theta) Long.X2).
Proof.
  assert (H82 : agree_around 0 200 82 82 Long.X1 Long.X2)
    by (apply X1_X2_around; lia).
  assert (H172 : agree_around 0 200 172 0 Long.X1 Long.X2)
    by (apply X1_X2_around; lia).
  assert (H84 : agree_around 0 200 84 0 Long.X1 Long.X2)
    by (apply X1_X2_around; lia).
  split; [exact H82 |]. split; [exact H172 |]. split; [exact H84 |].
  split; [| split].
  - exact (proj1 (receptive_fields 0 200 2 3 3 Symbolic.theta) _ _ H82).
  - exact (proj1 (proj2 (receptive_fields 0 200 2 3 3 Symbolic.theta)) _ _ H172).
  - exact (proj2 (proj2 (receptive_fields 0 200 2 3 3 Symbolic.theta)) _ _ H84).
Defined.

(** ** Prefixes, the split of the text encoding, accepted inputs *)

Section AcceptanceProofs.

Context {F : Type} {SF : Scalar F}.

Lemma keep_time_agree_len (S : tensor F) (T' : nat) :
  agree_len T' (Nat.min T' (size2 S)) (size2 S) (keep_time S T') S.
Proof.
  repeat split.
Qed.

Lemma agree_len_prefix (T' T : nat) (r r' : result (tensor F)) :
  T' <= T ->
  result_rel (agree_len T' T' T) r r' ->
  result_rel tensor_eq r (y <- r' ;; ret (keep_time y T')).
Proof.
  intros HT.
  destruct r as [e | y], r' as [e' | y'];
    cbn [result_rel bind ret Monad_either]; try contradiction; [auto |].
  intros ((H0 & H1 & Hi) & HT' & HT2).
  apply tensor_eq_intro; cbn [keep_time size0 size1 size2 item]; try assumption.
  - rewrite HT', HT2. lia.
  - intros n c s Hn Hc Hs. apply Hi; lia.
Qed.

(** The causal networks commute with cutting the input short: on the first
    [T'] steps of a spectrogram they return the first [T'] steps of what they
    return on the whole of it (and fail alike).  What has been computed for a
    prefix stays valid when steps are appended. *)
Theorem causal_networks_prefix
    (d_in d_out d_hidden : nat) (theta : nat -> norm_parameters F)
    (S : tensor F) (T' : nat) :
  0 < T' -> T' <= size2 S ->
  result_rel tensor_eq
    (AudioEncoder.forward (AudioEncoder.__init__ d_in d_out d_hidden theta)
                          (keep_time S T'))
    (Q <- AudioEncoder.forward (AudioEncoder.__init__ d_in d_out d_hidden theta) S ;;
     ret (keep_time Q T')) /\
  result_rel tensor_eq
    (AudioDecoder.forward (AudioDecoder.__init__ d_in d_out d_hidden theta)
                          (keep_time S T'))
    (Y <- AudioDecoder.forward (AudioDecoder.__init__ d_in d_out d_hidden theta) S ;;
     ret (keep_time Y T')).
Proof.
  intros HT0 HT.
  pose proof (keep_time_agree_len S T') as HS.
  rewrite Nat.min_l in HS by exact HT.
  assert (HT1 : 0 < size2 S) by lia.
  split.
  - unfold AudioEncoder.forward. rewrite !apply_blocks_run_blocks.
    apply (agree_len_prefix T' (size2 S)); [exact HT |].
    apply agree_len_run_blocks; [reflexivity | exact HT0 | exact HT1 | exact HS].
  - unfold AudioDecoder.forward. rewrite !apply_blocks_run_blocks.
    apply (agree_len_prefix T' (size2 S)); [exact HT |].
    apply (result_rel_bind (agree_len T' T' (size2 S)) (agree_len T' T' (size2 S))).
    + apply agree_len_run_blocks; [reflexivity | exact HT0 | exact HT1 | exact HS].
    + intros Y Y' HY. cbn [ret Monad_either result_rel].
      apply agree_len_pointwise, HY.
Qed.

(** The split of [TextEncoder.forward], for every hidden width of two or
    more and every input of shape [(N, d_in, Tx)] that is not empty: [K] and
    [V] share out the channels of the last block's output [y] in order and
    without loss.  [K] holds the first [ceil(d_hidden / 2)] channels and [V]
    the remaining [floor(d_hidden / 2)]; batch size and length are those of
    the input. *)
Theorem TextEncoder_forward_split
    (d_in d_out d_hidden : nat) (theta : nat -> norm_parameters F)
    (L : tensor F) (N Tx : nat) :
  shape L = (N, d_in, Tx) ->
  0 < N -> 0 < d_in -> 0 < Tx ->
  2 <= d_hidden ->
  let self := TextEncoder.__init__ d_in d_out d_hidden theta in
  exists y K V,
    apply_blocks (TextEncoder.hc_blocks self) L = inr y /\
    TextEncoder.forward self L = inr (K, V) /\
    shape K = (N, (d_hidden + 1) / 2, Tx) /\
    shape V = (N, d_hidden / 2, Tx) /\
    size1 K + size1 V = size1 y /\
    forall n c t,
      item y n c t = if c <? size1 K then item K n c t else item V n (c - size1 K) t.
Proof.
  intros HL _ Hi HTx Hd self. subst self.
  apply shape_eq in HL. destruct HL as (HN & HC & HT). rewrite <- HT in HTx.
  destruct (TextEncoder_blocks_shape d_in d_out d_hidden theta L HC Hi ltac:(lia) HTx)
    as (y & Hy & H0 & H1 & H2).
  pose proof (chunk_2_split y) as Hc. rewrite H1 in Hc. specialize (Hc Hd).
  exists y, (narrow_1 y 0 ((d_hidden + 1) / 2)),
         (narrow_1 y ((d_hidden + 1) / 2) (d_hidden / 2)).
  split; [exact Hy |]. split.
  { unfold TextEncoder.forward. rewrite Hy. cbn [bind Monad_either].
    rewrite Hc. reflexivity. }
  assert (Hsum : (d_hidden + 1) / 2 + d_hidden / 2 = d_hidden).
  { clear. pose proof (Nat.div_mod_eq d_hidden 2) as E1.
    pose proof (Nat.div_mod_eq (d_hidden + 1) 2) as E2.
    pose proof (Nat.mod_upper_bound d_hidden 2) as B1.
    pose proof (Nat.mod_upper_bound (d_hidden + 1) 2) as B2.
    lia. }
  split; [apply shape_eq; cbn [narrow_1 size0 size1 size2]; repeat split; congruence |].
  split; [apply shape_eq; cbn [narrow_1 size0 size1 size2]; repeat split; congruence |].
  cbn [narrow_1 size0 size1 size2 item].
  split; [congruence |].
  intros n c t. destruct (Nat.ltb_spec c ((d_hidden + 1) / 2)) as [Hlt | Hge].
  - reflexivity.
  - f_equal. lia.
Qed.

Lemma TextEncoder_forward_split_run
    (d_in d_out d_hidden : nat) (theta : nat -> norm_parameters F) (L : tensor F) :
  size1 L = d_in -> 0 < d_in -> 0 < size2 L -> 2 <= d_hidden ->
  exists K V,
    TextEncoder.forward (TextEncoder.__init__ d_in d_out d_hidden theta) L = inr (K, V).
Proof.
  intros HC Hi HT Hd.
  destruct (TextEncoder_blocks_shape d_in d_out d_hidden theta L HC Hi ltac:(lia) HT)
    as (y & Hy & _ & H1 & _).
  pose proof (chunk_2_split y) as Hc. rewrite H1 in Hc. specialize (Hc Hd).
  eexists. eexists. unfold TextEncoder.forward. rewrite Hy. cbn [bind Monad_either].
  rewrite Hc. reflexivity.
Qed.

(** Which inputs the networks take.  For networks of positive widths and an
    input with at least one batch element and one step:

    - [AudioDecoder.forward] returns exactly when the input has [d_in]
      channels;
    - [TextEncoder.forward] returns exactly when the input has [d_in]
      channels and [d_hidden] is not 1; with [d_hidden = 1] and [d_in] input
      channels it raises the [ValueError] of the unpacking;
    - each of the three, [AudioEncoder.forward] included, raises the
      [RuntimeError] of its first convolution on any other number of
      channels. *)
Theorem forward_accepts
    (d_in d_out d_hidden : nat) (theta : nat -> norm_parameters F) (x : tensor F) :
  0 < d_in -> 0 < d_out -> 0 < d_hidden -> 0 < size0 x -> 0 < size2 x ->
  ((exists O, AudioDecoder.forward (AudioDecoder.__init__ d_in d_out d_hidden theta) x
              = inr O) <-> size1 x = d_in) /\
  ((exists K V, TextEncoder.forward (TextEncoder.__init__ d_in d_out d_hidden theta) x
                = inr (K, V)) <-> size1 x = d_in /\ d_hidden <> 1) /\
  (size1 x = d_in -> d_hidden = 1 ->
   TextEncoder.forward (TextEncoder.__init__ d_in d_out d_hidden theta) x
   = inl (ValueError "not enough values to unpack (expected 2)")) /\
  (size1 x <> d_in ->
   exists msg,
     TextEncoder.forward (TextEncoder.__init__ d_in d_out d_hidden theta) x
     = inl (RuntimeError msg) /\
     AudioEncoder.forward (AudioEncoder.__init__ d_in d_out d_hidden theta) x
     = inl (RuntimeError msg) /\
     AudioDecoder.forward (AudioDecoder.__init__ d_in d_out d_hidden theta) x
     = inl (RuntimeError msg)).
Proof.
  intros Hi Ho Hd _ HT.
  assert (Hrefuse : size1 x <> d_in ->
            TextEncoder.forward (TextEncoder.__init__ d_in d_out d_hidden theta) x
            = inl (RuntimeError "conv1d: the input has the wrong number of channels") /\
            AudioEncoder.forward (AudioEncoder.__init__ d_in d_out d_hidden theta) x
            = inl (RuntimeError "conv1d: the input has the wrong number of channels") /\
            AudioDecoder.forward (AudioDecoder.__init__ d_in d_out d_hidden theta) x
            = inl (RuntimeError "conv1d: the input has the wrong number of channels")).
  { intros Hx.
    unfold TextEncoder.forward, AudioEncoder.forward, AudioDecoder.forward.
    rewrite !apply_blocks_run_blocks.
    cbn [TextEncoder.__init__ AudioEncoder.__init__ AudioDecoder.__init__
         TextEncoder.hc_blocks AudioEncoder.hc_blocks AudioDecoder.hc_blocks
         app run_blocks].
    rewrite !call_refuses by exact Hx. repeat split; reflexivity. }
  assert (Hone : size1 x = d_in -> d_hidden = 1 ->
            TextEncoder.forward (TextEncoder.__init__ d_in d_out d_hidden theta) x
            = inl (ValueError "not enough values to unpack (expected 2)")).
  { intros Hx H1.
    destruct (TextEncoder_blocks_shape d_in d_out d_hidden theta x Hx Hi Hd HT)
      as (y & Hy & _ & Y1 & _).
    unfold TextEncoder.forward. rewrite Hy. cbn [bind Monad_either].
    rewrite (chunk_2_single y) by congruence. reflexivity. }
  split; [| split; [| split]].
  - split.
    + intros [O HO]. destruct (Nat.eq_dec (size1 x) d_in) as [E | E]; [exact E |].
      destruct (Hrefuse E) as (_ & _ & Hdec). congruence.
    + intros Hx.
      destruct (AudioDecoder_blocks_shape d_in d_out d_hidden theta x Hx Hi Ho Hd HT)
        as (Y & HY & _).
      exists (sigmoid Y). unfold AudioDecoder.forward.
      rewrite apply_blocks_run_blocks, HY. reflexivity.
  - split.
    + intros (K & V & HKV).
      destruct (Nat.eq_dec (size1 x) d_in) as [E | E].
      * split; [exact E |]. intros H1. rewrite (Hone E H1) in HKV. discriminate.
      * destruct (Hrefuse E) as (Htext & _). congruence.
    + intros [Hx H1].
      destruct (TextEncoder_forward_split_run d_in d_out d_hidden theta x Hx Hi HT)
        as (K & V & HKV); [lia |].
      exists K, V. exact HKV.
  - exact Hone.
  - intros Hx. eexists. apply Hrefuse, Hx.
Qed.

End AcceptanceProofs.


(** ** The attention: accepted inputs and what an output column depends on *)

Section AttentionFurtherProofs.

Context {F : Type} {SF : Scalar F}.

(** Which inputs the attention takes: for a positive [d_hidden] and inputs
    that are not empty, [forward] returns exactly when [Q], [K] and [V] all
    have [d_hidden] channels and one batch size, and [K] and [V] have one
    length.  The length of [Q] is free. *)
Theorem DotProductAttention_forward_accepts
    (d_hidden : nat) (theta_q theta_k theta_v : parameters F) (Q K V : tensor F) :
  0 < d_hidden -> 0 < size0 Q -> 0 < size2 Q -> 0 < size2 K ->
  (exists R A,
     DotProductAttention.forward
       (DotProductAttention.__init__ d_hidden theta_q theta_k theta_v) Q K V
     = inr (R, A)) <->
  size1 Q = d_hidden /\ size1 K = d_hidden /\ size1 V = d_hidden /\
  size0 K = size0 Q /\ size0 V = size0 Q /\ size2 V = size2 K.
Proof.
  intros Hd _ HTy HTx. split.
  - intros (R & A & H). unfold DotProductAttention.forward in H.
    cbn [DotProductAttention.__init__ DotProductAttention.linear_q
         DotProductAttention.linear_k DotProductAttention.linear_v
         DotProductAttention.d_k] in H.
    apply bind_inr in H. destruct H as (Q1 & HQ & H).
    apply bind_inr in H. destruct H as (K1 & HK & H).
    apply bind_inr in H. destruct H as (V1 & HV & H).
    apply bind_inr in H. destruct H as (KQ & HKQ & H).
    apply bind_inr in H. destruct H as (R' & HR & _).
    apply projection_inr_inv in HQ, HK, HV.
    destruct HQ as (Q0 & _ & _ & Q10 & Q11 & Q12), HK as (K0 & _ & _ & K10 & K11 & K12),
             HV as (V0 & _ & _ & V10 & V11 & V12).
    apply bmm_inr_inv in HKQ, HR.
    cbn [transpose_1_2 tanh pointwise softmax_dim1 div_scalar size0 size1 size2]
      in HKQ, HR.
    destruct HKQ as (B0 & _ & S0 & S1 & _), HR as (C0 & C1 & _).
    repeat split; congruence.
  - intros (HQ & HK & HV & E0 & E1 & E2).
    destruct (attention_forward_run d_hidden theta_q theta_k theta_v Q K V
                (size0 Q) (size2 K) (size2 Q)) as (R & A & H & _);
      try assumption; try (apply shape_eq; repeat split; congruence).
    exists R, A. exact H.
Qed.

Lemma projection_ext (p : parameters F) (C : nat) (x x' : tensor F) (n o t : nat) :
  (forall c, c < C -> item x n c t = item x' n c t) ->
  projection p C x n o t = projection p C x' n o t.
Proof.
  intros H. unfold projection. do 2 f_equal. apply fsum_ext.
  intros c Hc. rewrite (H c Hc). reflexivity.
Qed.

Lemma alignment_ext (Q1 Q2 K1 K2 : nat -> nat -> nat -> F) (C Tx d_k n i j : nat) :
  (forall c, c < C -> Q1 n c j = Q2 n c j) ->
  (forall c i', c < C -> i' < Tx -> K1 n c i' = K2 n c i') ->
  i < Tx ->
  alignment Q1 K1 C Tx d_k n i j = alignment Q2 K2 C Tx d_k n i j.
Proof.
  intros HQ HK Hi.
  assert (Hs : forall i', i' < Tx -> score Q1 K1 C d_k n i' j = score Q2 K2 C d_k n i' j).
  { intros i' Hi'. unfold score. f_equal. apply fsum_ext. intros c Hc.
    rewrite (HQ c Hc), (HK c i' Hc Hi'). reflexivity. }
  assert (Hm : largest_score Q1 K1 C Tx d_k n j = largest_score Q2 K2 C Tx d_k n j)
    by (apply fmaximum_ext; exact Hs).
  unfold alignment. rewrite Hm. f_equal.
  - f_equal. f_equal. apply Hs, Hi.
  - apply fsum_ext. intros i' Hi'. f_equal. f_equal. apply Hs, Hi'.
Qed.

(** What a column of the attention depends on, for inputs that are not
    empty.  For batch element [n] and audio step [j], the alignments
    [A[n, :, j]] depend on the query at [(n, j)] and on the keys of batch
    element [n] only: not on the values, on other audio steps or on other
    batch elements.  The result [R[n, :, j]] depends on these and on the
    values of batch element [n]. *)
Theorem DotProductAttention_forward_column
    (d_hidden : nat) (theta_q theta_k theta_v : parameters F)
    (Q Q' K K' V V' : tensor F) (N Tx Ty n j : nat) :
  shape Q = (N, d_hidden, Ty) -> shape Q' = (N, d_hidden, Ty) ->
  shape K = (N, d_hidden, Tx) -> shape K' = (N, d_hidden, Tx) ->
  shape V = (N, d_hidden, Tx) -> shape V' = (N, d_hidden, Tx) ->
  0 < d_hidden -> 0 < Tx ->
  n < N -> j < Ty ->
  (forall c, c < d_hidden -> item Q n c j = item Q' n c j) ->
  (forall c i, c < d_hidden -> i < Tx -> item K n c i = item K' n c i) ->
  let self := DotProductAttention.__init__ d_hidden theta_q theta_k theta_v in
  exists R A R' A',
    DotProductAttention.forward self Q K V = inr (R, A) /\
    DotProductAttention.forward self Q' K' V' = inr (R', A') /\
    (forall i, i < Tx -> item A n i j = item A' n i j) /\
    ((forall c i, c < d_hidden -> i < Tx -> item V n c i = item V' n c i) ->
     forall c, c < d_hidden -> item R n c j = item R' n c j).
Proof.
  intros HQ HQ' HK HK' HV HV' Hd HTx Hn Hj EQ EK self. subst self.
  assert (HTy : 0 < Ty) by lia.
  destruct (attention_forward_run d_hidden theta_q theta_k theta_v Q K V N Tx Ty
              HQ HK HV Hd HTx HTy) as (R & A & Hrun & _ & _ & HA & HR).
  destruct (attention_forward_run d_hidden theta_q theta_k theta_v Q' K' V' N Tx Ty
              HQ' HK' HV' Hd HTx HTy) as (R' & A' & Hrun' & _ & _ & HA' & HR').
  exists R, A, R', A'. split; [exact Hrun |]. split; [exact Hrun' |].
  assert (Halign : forall i, i < Tx ->
            alignment (projection theta_q d_hidden Q) (projection theta_k d_hidden K)
                      d_hidden Tx d_hidden n i j
            = alignment (projection theta_q d_hidden Q') (projection theta_k d_hidden K')
                        d_hidden Tx d_hidden n i j).
  { intros i Hi. apply alignment_ext; [| | exact Hi].
    - intros c _. apply projection_ext, EQ.
    - intros c i' _ Hi'. apply projection_ext. intros c' Hc'. apply EK; assumption. }
  split.
  - intros i Hi. rewrite HA, HA' by assumption. apply Halign, Hi.
  - intros EV c Hc. rewrite HR, HR' by assumption. unfold attended.
    apply fsum_ext. intros i Hi. f_equal; [| apply Halign, Hi].
    apply projection_ext. intros c' Hc'. apply EV; assumption.
Qed.

End AttentionFurtherProofs.

(** ** The attention after the audio encoder *)

Section PipelineProofs.

Context {F : Type} {SF : Scalar F}.

(** The encoder feeding the attention stays causal.  Take an audio encoder
    of width [C] (built with [d_out = d_hidden = C]), an attention of the same
    width, keys and values of shape [(N, C, Tx)], and two spectrograms of
    shape [(N, d_in, Ty)] that agree at all steps up to and including [t];
    all widths are positive and no tensor is empty.
    Both runs return, and at every audio step [j <= t] they return the same
    alignments [A[n, :, j]] and the same result [R[n, :, j]]: what the
    attention gives for a step depends on no later frame of the
    spectrogram. *)
Theorem attention_after_encoder_causal
    (d_in C : nat) (theta : nat -> norm_parameters F)
    (theta_q theta_k theta_v : parameters F)
    (S S' K V : tensor F) (N Tx Ty t : nat) :
  shape S = (N, d_in, Ty) -> shape S' = (N, d_in, Ty) ->
  shape K = (N, C, Tx) -> shape V = (N, C, Tx) ->
  0 < N -> 0 < d_in -> 0 < C -> 0 < Tx -> 0 < Ty ->
  agree t S S' ->
  let encoder := AudioEncoder.__init__ d_in C C theta in
  let attention := DotProductAttention.__init__ C theta_q theta_k theta_v in
  exists Q Q' R A R' A',
    AudioEncoder.forward encoder S = inr Q /\
    AudioEncoder.forward encoder S' = inr Q' /\
    DotProductAttention.forward attention Q K V = inr (R, A) /\
    DotProductAttention.forward attention Q' K V = inr (R', A') /\
    forall n j, n < N -> j <= t -> j < Ty ->
      (forall i, i < Tx -> item A n i j = item A' n i j) /\
      (forall c, c < C -> item R n c j = item R' n c j).
Proof.
  intros HS HS' HK HV _ Hdi HC HTx HTy Hagree encoder attention.
  subst encoder attention.
  pose proof HS as HSs. pose proof HS' as HSs'.
  apply shape_eq in HSs, HSs'.
  destruct HSs as (S0 & S1 & S2), HSs' as (S0' & S1' & S2').
  set (ms := AudioEncoder.hc_blocks (AudioEncoder.__init__ d_in C C theta)).
  destruct (AudioEncoder_blocks_shape d_in C theta S S1 Hdi HC ltac:(lia))
    as (Q & HQ & Q0 & Q1 & Q2).
  destruct (AudioEncoder_blocks_shape d_in C theta S' S1' Hdi HC ltac:(lia))
    as (Q' & HQ' & Q0' & Q1' & Q2').
  fold ms in HQ, HQ'.
  pose proof (agree_len_run_blocks ms t (size2 S) (size2 S') S S' eq_refl
                ltac:(lia) ltac:(lia) (agree_agree_len t S S' Hagree)) as Hcausal.
  rewrite HQ, HQ' in Hcausal. cbn [result_rel] in Hcausal.
  destruct Hcausal as ((_ & _ & HQi) & _ & _).
  assert (HQs : shape Q = (N, C, Ty)) by (apply shape_eq; repeat split; congruence).
  assert (HQs' : shape Q' = (N, C, Ty)) by (apply shape_eq; repeat split; congruence).
  destruct (attention_forward_run C theta_q theta_k theta_v Q K V N Tx Ty HQs HK HV
              HC HTx HTy) as (R & A & Hrun & _ & _ & HA & HR).
  destruct (attention_forward_run C theta_q theta_k theta_v Q' K V N Tx Ty HQs' HK HV
              HC HTx HTy) as (R' & A' & Hrun' & _ & _ & HA' & HR').
  exists Q, Q', R, A, R', A'.
  unfold AudioEncoder.forward. rewrite !apply_blocks_run_blocks.
  fold ms. split; [exact HQ |]. split; [exact HQ' |].
  split; [exact Hrun |]. split; [exact Hrun' |].
  intros n j Hn Hjt Hj.
  assert (Halign : forall i, i < Tx ->
            alignment (projection theta_q C Q) (projection theta_k C K) C Tx C n i j
            = alignment (projection theta_q C Q') (projection theta_k C K) C Tx C n i j).
  { intros i Hi. apply alignment_ext; [| reflexivity | exact Hi].
    intros c _. apply projection_ext. intros c' Hc'. apply HQi; lia. }
  split.
  - intros i Hi. rewrite HA, HA' by assumption. apply Halign, Hi.
  - intros c Hc. rewrite HR, HR' by assumption. unfold attended.
    apply fsum_ext. intros i Hi. f_equal. apply Halign, Hi.
Qed.

End PipelineProofs.


(** ** Instances *)

(** An instance of [causal_networks_prefix]: the first two of four steps. *)
Lemma causal_networks_prefix_witness :
  0 < 2 /\ 2 <= size2 Symbolic.S1 /\
  result_rel tensor_eq
    (AudioEncoder.forward (AudioEncoder.__init__ 2 3 3 Symbolic.theta)
                          (keep_time Symbolic.S1 2))
    (Q <- AudioEncoder.forward (AudioEncoder.__init__ 2 3 3 Symbolic.theta) Symbolic.S1 ;;
     ret (keep_time Q 2)) /\
  result_rel tensor_eq
    (AudioDecoder.forward (AudioDecoder.__init__ 2 3 3 Symbolic.theta)
                          (keep_time Symbolic.S1 2))
    (Y <- AudioDecoder.forward (AudioDecoder.__init__ 2 3 3 Symbolic.theta) Symbolic.S1 ;;
     ret (keep_time Y 2)).
Proof.
  split; [exact (le_S 1 1 (le_n 1)) |].
  split; [exact (le_S 2 3 (le_S 2 2 (le_n 2))) |].
  exact (causal_networks_prefix 2 3 3 Symbolic.theta Symbolic.S1 2
           (le_S 1 1 (le_n 1)) (le_S 2 3 (le_S 2 2 (le_n 2)))).
Defined.

(** An instance of [TextEncoder_forward_split]: five hidden channels, three
    for the keys and two for the values. *)
Lemma TextEncoder_forward_split_witness :
  (shape Symbolic.S1 = (1, 2, 4) /\ 0 < 1 /\ 0 < 2 /\ 0 < 4 /\ 2 <= 5) /\
  exists y K V,
    apply_blocks (TextEncoder.hc_blocks (TextEncoder.__init__ 2 3 5 Symbolic.theta))
                 Symbolic.S1 = inr y /\
    TextEncoder.forward (TextEncoder.__init__ 2 3 5 Symbolic.theta) Symbolic.S1
    = inr (K, V) /\
    shape K = (1, (5 + 1) / 2, 4) /\
    shape V = (1, 5 / 2, 4) /\
    size1 K + size1 V = size1 y /\
    forall n c t,
      item y n c t = if c <? size1 K then item K n c t else item V n (c - size1 K) t.
Proof.
  assert (H1 : 0 < 1) by lia.
  assert (H2 : 0 < 2) by lia.
  assert (H4 : 0 < 4) by lia.
  assert (H5 : 2 <= 5) by lia.
  split; [repeat split; assumption |].
  exact (TextEncoder_forward_split 2 3 5 Symbolic.theta Symbolic.S1 1 4 eq_refl
           H1 H2 H4 H5).
Defined.

(** An instance of [forward_accepts]: networks of two input channels, on a
    spectrogram of two channels. *)
Lemma forward_accepts_witness :
  (0 < 2 /\ 0 < 3 /\ 0 < 3 /\ 0 < size0 Symbolic.S1 /\ 0 < size2 Symbolic.S1) /\
  (exists O, AudioDecoder.forward (AudioDecoder.__init__ 2 3 3 Symbolic.theta) Symbolic.S1
             = inr O) /\
  (exists K V, TextEncoder.forward (TextEncoder.__init__ 2 3 3 Symbolic.theta) Symbolic.S1
               = inr (K, V)).
Proof.
  assert (H2 : 0 < 2) by exact (le_S 1 1 (le_n 1)).
  assert (H3 : 0 < 3) by exact (le_S 1 2 (le_S 1 1 (le_n 1))).
  assert (H1 : 0 < size0 Symbolic.S1) by exact (le_n 1).
  assert (H4 : 0 < size2 Symbolic.S1)
    by exact (le_S 1 3 (le_S 1 2 (le_S 1 1 (le_n 1)))).
  split; [repeat split; assumption |].
  destruct (forward_accepts 2 3 3 Symbolic.theta Symbolic.S1 H2 H3 H3 H1 H4)
    as (Hdec & Htext & _ & _).
  split.
  - apply Hdec. reflexivity.
  - apply Htext. split; [reflexivity | discriminate].
Defined.

(** An instance of [DotProductAttention_forward_accepts]: three audio steps
    against two text steps. *)
Lemma DotProductAttention_forward_accepts_witness :
  (0 < 2 /\ 0 < size0 Symbolic.Q0 /\ 0 < size2 Symbolic.Q0 /\ 0 < size2 Symbolic.K0) /\
  exists R A,
    DotProductAttention.forward
      (DotProductAttention.__init__ 2 (Symbolic.theta_plain "q") (Symbolic.theta_plain "k")
         (Symbolic.theta_plain "v"))
      Symbolic.Q0 Symbolic.K0 Symbolic.V0
    = inr (R, A).
Proof.
  assert (H2 : 0 < 2) by exact (le_S 1 1 (le_n 1)).
  assert (H3 : 0 < 3) by exact (le_S 1 2 (le_S 1 1 (le_n 1))).
  assert (H1 : 0 < 1) by exact (le_n 1).
  split; [repeat split; assumption |].
  apply (proj2 (DotProductAttention_forward_accepts 2 (Symbolic.theta_plain "q")
                  (Symbolic.theta_plain "k") (Symbolic.theta_plain "v")
                  Symbolic.Q0 Symbolic.K0 Symbolic.V0 H2 H1 H3 H2)).
  repeat split; reflexivity.
Defined.

(** The two queries agree at audio step 1. *)
Lemma Q0_Q1_step_1 (c : nat) :
  c < 2 -> item Symbolic.Q0 0 c 1 = item Columns.Q1 0 c 1.
Proof. intros _. reflexivity. Defined.

(** An instance of [DotProductAttention_forward_column]: at audio step 1 the
    alignments for [Q0] and for [Q1] are the same, whatever the values. *)
Lemma DotProductAttention_forward_column_witness :
  let self := DotProductAttention.__init__ 2 (Symbolic.theta_plain "q")
                (Symbolic.theta_plain "k") (Symbolic.theta_plain "v") in
  exists R A R' A',
    DotProductAttention.forward self Symbolic.Q0 Symbolic.K0 Symbolic.V0 = inr (R, A) /\
    DotProductAttention.forward self Columns.Q1 Symbolic.K0 Columns.V1 = inr (R', A') /\
    (forall i, i < 2 -> item A 0 i 1 = item A' 0 i 1) /\
    ((forall c i, c < 2 -> i < 2 -> item Symbolic.V0 0 c i = item Columns.V1 0 c i) ->
     forall c, c < 2 -> item R 0 c 1 = item R' 0 c 1).
Proof.
  exact (DotProductAttention_forward_column 2 (Symbolic.theta_plain "q")
           (Symbolic.theta_plain "k") (Symbolic.theta_plain "v")
           Symbolic.Q0 Columns.Q1 Symbolic.K0 Symbolic.K0 Symbolic.V0 Columns.V1
           1 2 3 0 1 eq_refl eq_refl eq_refl eq_refl eq_refl eq_refl
           (le_S 1 1 (le_n 1)) (le_S 1 1 (le_n 1))
           (le_n 1) (le_S 2 2 (le_n 2)) Q0_Q1_step_1 (fun c i _ _ => eq_refl)).
Defined.

(** An instance of [attention_after_encoder_causal]: the spectrograms [S1]
    and [S2] share their first two steps. *)
Lemma attention_after_encoder_causal_witness :
  agree 1 Symbolic.S1 Symbolic.S2 /\
  let encoder := AudioEncoder.__init__ 2 2 2 Symbolic.theta in
  let attention := DotProductAttention.__init__ 2 (Symbolic.theta_plain "q")
                     (Symbolic.theta_plain "k") (Symbolic.theta_plain "v") in
  exists Q Q' R A R' A',
    AudioEncoder.forward encoder Symbolic.S1 = inr Q /\
    AudioEncoder.forward encoder Symbolic.S2 = inr Q' /\
    DotProductAttention.forward attention Q Symbolic.K0 Symbolic.V0 = inr (R, A) /\
    DotProductAttention.forward attention Q' Symbolic.K0 Symbolic.V0 = inr (R', A') /\
    forall n j, n < 1 -> j <= 1 -> j < 4 ->
      (forall i, i < 2 -> item A n i j = item A' n i j) /\
      (forall c, c < 2 -> item R n c j = item R' n c j).
Proof.
  split; [exact S1_S2_agree |].
  exact (attention_after_encoder_causal 2 2 Symbolic.theta (Symbolic.theta_plain "q")
           (Symbolic.theta_plain "k") (Symbolic.theta_plain "v")
           Symbolic.S1 Symbolic.S2 Symbolic.K0 Symbolic.V0 1 2 4 1
           eq_refl eq_refl eq_refl eq_refl
           (le_n 1) (le_S 1 1 (le_n 1)) (le_S 1 1 (le_n 1)) (le_S 1 1 (le_n 1))
           (le_S 1 3 (le_S 1 2 (le_S 1 1 (le_n 1)))) S1_S2_agree).
Defined.

(** ** Inputs without time steps *)

Section EmptyProofs.

Context {F : Type} {SF : Scalar F}.

Lemma call_refuses_empty (m : module F) (x : tensor F) :
  size2 x = 0 -> exists msg, call m x = inl (RuntimeError msg).
Proof.
  destruct m as [l p | l p]; cbn [call]; apply layer_refuses_empty.
Qed.

(** The attention fails with the framework's error only. *)
Lemma attention_raises (self : DotProductAttention.t F) (Q K V : tensor F) (e : exn) :
  DotProductAttention.forward self Q K V = inl e -> exists msg, e = RuntimeError msg.
Proof.
  unfold DotProductAttention.forward. intros H.
  apply bind_inl in H. destruct H as [H | (Q1 & _ & H)]; [eapply call_raises, H |].
  apply bind_inl in H. destruct H as [H | (K1 & _ & H)]; [eapply call_raises, H |].
  apply bind_inl in H. destruct H as [H | (V1 & _ & H)]; [eapply call_raises, H |].
  apply bind_inl in H. destruct H as [H | (KQ & _ & H)]; [eapply bmm_raises, H |].
  apply bind_inl in H. destruct H as [H | (R & _ & H)]; [eapply bmm_raises, H |].
  discriminate.
Qed.

(** No network takes an input without time steps.  For networks of positive
    widths and an input with a batch element: the three convolutional
    networks fail in their first block, the attention in the projection of
    the first of [Q], [K], [V] that is empty, [PostNet] in its first
    [Upsample]; each with the framework's [RuntimeError]. *)
Theorem forward_refuses_empty
    (d_in d_out d_hidden : nat) (theta : nat -> norm_parameters F)
    (theta_q theta_k theta_v : parameters F) :
  0 < d_in -> 0 < d_out -> 0 < d_hidden ->
  (forall x : tensor F, 0 < size0 x -> size2 x = 0 ->
     (exists msg, TextEncoder.forward (TextEncoder.__init__ d_in d_out d_hidden theta) x
                  = inl (RuntimeError msg)) /\
     (exists msg, AudioEncoder.forward (AudioEncoder.__init__ d_in d_out d_hidden theta) x
                  = inl (RuntimeError msg)) /\
     (exists msg, AudioDecoder.forward (AudioDecoder.__init__ d_in d_out d_hidden theta) x
                  = inl (RuntimeError msg))) /\
  (forall Q K V : tensor F,
     0 < size0 Q -> 0 < size0 K -> 0 < size0 V ->
     size2 Q = 0 \/ size2 K = 0 \/ size2 V = 0 ->
     exists msg,
       DotProductAttention.forward
         (DotProductAttention.__init__ d_hidden theta_q theta_k theta_v) Q K V
       = inl (RuntimeError msg)) /\
  (forall (residual_parameters : Type)
          (RB : nat -> nat -> nat -> residual_parameters -> tensor F -> result (tensor F))
          (theta_r : nat -> residual_parameters) (x : tensor F),
     0 < size0 x -> 0 < size1 x -> size2 x = 0 ->
     exists msg,
       PostNet.forward RB (PostNet.__init__ d_in d_out d_hidden theta_r) x
       = inl (RuntimeError msg)).
Proof.
  intros _ _ _. split; [| split].
  - intros x _ HT.
    unfold TextEncoder.forward, AudioEncoder.forward, AudioDecoder.forward.
    rewrite !apply_blocks_run_blocks.
    cbn [TextEncoder.__init__ AudioEncoder.__init__ AudioDecoder.__init__
         TextEncoder.hc_blocks AudioEncoder.hc_blocks AudioDecoder.hc_blocks
         app run_blocks].
    split; [| split].
    + destruct (call_refuses_empty
                  (norm (Conv1d d_in d_hidden 1 1 (Some frelu)) (theta 0)) x HT)
        as [msg ->].
      exists msg. reflexivity.
    + destruct (call_refuses_empty
                  (norm (CausalConv1d d_in d_hidden 1 1 (Some frelu)) (theta 0)) x HT)
        as [msg ->].
      exists msg. reflexivity.
    + destruct (call_refuses_empty
                  (norm (CausalConv1d d_in d_hidden 1 1 (Some frelu)) (theta 0)) x HT)
        as [msg ->].
      exists msg. reflexivity.
  - intros Q K V _ _ _ Hempty.
    destruct (DotProductAttention.forward
                (DotProductAttention.__init__ d_hidden theta_q theta_k theta_v) Q K V)
      as [e | [R A]] eqn:H.
    + destruct (attention_raises _ _ _ _ _ H) as [msg ->]. exists msg. reflexivity.
    + exfalso. unfold DotProductAttention.forward in H.
      cbn [DotProductAttention.__init__ DotProductAttention.linear_q
           DotProductAttention.linear_k DotProductAttention.linear_v] in H.
      apply bind_inr in H. destruct H as (Q1 & HQ & H).
      apply bind_inr in H. destruct H as (K1 & HK & H).
      apply bind_inr in H. destruct H as (V1 & HV & _).
      apply projection_inr_inv in HQ, HK, HV.
      destruct HQ as (_ & _ & HQ & _), HK as (_ & _ & HK & _), HV as (_ & _ & HV & _).
      lia.
  - intros rp RB theta_r x _ _ HT. unfold PostNet.forward.
    cbn [PostNet.__init__ PostNet.nets].
    rewrite Sequential_cons. cbn [PostNet.call_net].
    rewrite (Upsample_inl 2 x HT). eexists. reflexivity.
Qed.

End EmptyProofs.

(** An instance of [forward_refuses_empty]: a spectrogram of two channels and
    no time step. *)
Lemma forward_refuses_empty_witness :
  (0 < 2 /\ 0 < 3 /\ 0 < 3 /\ 0 < size0 Symbolic.S0 /\ size2 Symbolic.S0 = 0) /\
  (exists msg, TextEncoder.forward (TextEncoder.__init__ 2 3 3 Symbolic.theta) Symbolic.S0
               = inl (RuntimeError msg)) /\
  (exists msg, AudioEncoder.forward (AudioEncoder.__init__ 2 3 3 Symbolic.theta) Symbolic.S0
               = inl (RuntimeError msg)) /\
  (exists msg, AudioDecoder.forward (AudioDecoder.__init__ 2 3 3 Symbolic.theta) Symbolic.S0
               = inl (RuntimeError msg)).
Proof.
  assert (H2 : 0 < 2) by exact (le_S 1 1 (le_n 1)).
  assert (H3 : 0 < 3) by exact (le_S 1 2 (le_S 1 1 (le_n 1))).
  assert (H1 : 0 < size0 Symbolic.S0) by exact (le_n 1).
  split; [repeat split; assumption |].
  exact (proj1 (forward_refuses_empty 2 3 3 Symbolic.theta (Symbolic.theta_plain "q")
                  (Symbolic.theta_plain "k") (Symbolic.theta_plain "v") H2 H3 H3)
           Symbolic.S0 H1 eq_refl).
Defined.
